(** * Suffix tree (Ukkonen's construction) -- a shallow embedding of
    [suffix_tree.py] and the properties of its construction and query code.

    Conventions of the embedding.
    - Python integers are [Z]; node handles are positions in the node list,
      and [-1] is the "no suffix link" sentinel of the source.
    - A Python list indexed by an integer follows CPython: a negative index
      counts from the end, anything outside the list raises [IndexError].
    - The edge dictionary, keyed by [(source node, leading symbol)], is a
      [gmap]; [d[k]] and [d.pop(k)] raise [KeyError] on a missing key,
      [d[k] = v] overwrites, [d.get(k)] is the lookup itself.
    - Exceptions are an explicit outcome ([Raise]); the [while True] loop of
      [_add_prefix], the recursion of [_canonize_suffix] and the [while] loop
      of [find_substring] take a fuel argument, and running out of it is a
      third outcome ([OutOfFuel]) that is neither a value nor an exception.
      The interpreter's recursion limit is not modelled.
    - An attribute that no code of the class ever assigns is absent from the
      object: reading it raises [AttributeError]. The two attributes read by
      [find_substring] are therefore optional fields of the tree record; a
      caller that assigns them from outside gives the record with the two
      fields set ([with_attributes]). *)

From Stdlib Require Import Ascii String.
From stdpp Require Import gmap strings list fin_maps.

Local Open Scope Z_scope.

(** ** Outcomes of running Python code *)

Inductive exn :=
  | AttributeError (name : string)
  | KeyError
  | IndexError
  | UnboundLocalError (name : string).

Inductive result (T : Type) :=
  | Ok (x : T)
  | Raise (e : exn)
  | OutOfFuel.

Arguments Ok {T} x.
Arguments Raise {T} e.
Arguments OutOfFuel {T}.

#[global] Instance result_ret : MRet result := λ T x, Ok x.

#[global] Instance result_bind : MBind result := λ T U k r,
  match r with
  | Ok x => k x
  | Raise e => Raise e
  | OutOfFuel => OutOfFuel
  end.

#[global] Instance exn_eq_dec : EqDecision exn.
Proof. solve_decision. Defined.

#[global] Instance result_eq_dec {T : Type} `{EqDecision T} :
  EqDecision (result T).
Proof. solve_decision. Defined.

(** ** Python sequences *)

(** [l[k]]: a negative index is taken from the end. *)
Definition py_norm (n k : Z) : Z := if k <? 0 then k + n else k.

Definition py_index {T : Type} (l : list T) (k : Z) : result T :=
  let k' := py_norm (Z.of_nat (length l)) k in
  if (0 <=? k') && (k' <? Z.of_nat (length l)) then
    match l !! Z.to_nat k' with
    | Some x => Ok x
    | None => Raise IndexError
    end
  else Raise IndexError.

(** A slice bound: negative bounds count from the end, then both are clamped
    to the list. *)
Definition py_clamp (n k : Z) : Z :=
  if k <? 0 then Z.max 0 (k + n) else Z.min k n.

(** [l[a:b]] *)
Definition py_slice {T : Type} (l : list T) (a b : Z) : list T :=
  let n := Z.of_nat (length l) in
  let a' := py_clamp n a in
  let b' := py_clamp n b in
  take (Z.to_nat (b' - a')) (drop (Z.to_nat a') l).

Definition py_len {T : Type} (l : list T) : Z := Z.of_nat (length l).

Arguments py_norm : simpl never.
Arguments py_index : simpl never.
Arguments py_slice : simpl never.
Arguments py_len : simpl never.

(** [for i in l: s = body(s, i)] *)
Fixpoint for_each {S I : Type} (body : S → I → result S) (s : S) (l : list I)
    : result S :=
  match l with
  | [] => Ok s
  | i :: l => s ← body s i; for_each body s l
  end.

(** [range(n)] *)
Definition range (n : Z) : list Z := seqZ 0 n.

(** Reading an attribute that may not have been assigned. *)
Definition getattr {T : Type} (name : string) (a : option T) : result T :=
  match a with
  | Some x => Ok x
  | None => Raise (AttributeError name)
  end.

(** ** The three record classes *)

Module Node.
Record t := mk { suffix_node : Z }.
(** [Node()] *)
Definition new : t := mk (-1).
End Node.

Module Edge.
Record t := mk {
  first_obj_index : Z;
  last_obj_index : Z;
  source_node_index : Z;
  dest_node_index : Z
}.
Definition length (e : t) : Z := last_obj_index e - first_obj_index e.
End Edge.

Module Suffix.
Record t := mk {
  source_node_index : Z;
  first_obj_index : Z;
  last_obj_index : Z
}.
Definition length (s : t) : Z := last_obj_index s - first_obj_index s.
Definition explicit (s : t) : bool := last_obj_index s <? first_obj_index s.
Definition implicit (s : t) : bool := first_obj_index s <=? last_obj_index s.
End Suffix.

(** ** The tree object *)

Section Tree.
Context {A : Type} `{Countable A}.

(** [str.lower] of the sequence type, used by [find_substring] when the
    attribute [case_insensitive] is set and true. *)
Variable lower : list A → list A.

Record tree := mkTree {
  seq : list A;
  N : Z;
  nodes : list Node.t;
  edges : gmap (Z * A) Edge.t;
  active : Suffix.t;
  (* attributes read by [find_substring]; [None] is "attribute not set" *)
  case_insensitive : option bool;
  string : option (list A)
}.

Definition set_nodes (t : tree) (ns : list Node.t) : tree :=
  mkTree (seq t) (N t) ns (edges t) (active t) (case_insensitive t) (string t).
Definition set_edges (t : tree) (es : gmap (Z * A) Edge.t) : tree :=
  mkTree (seq t) (N t) (nodes t) es (active t) (case_insensitive t) (string t).
Definition set_active (t : tree) (s : Suffix.t) : tree :=
  mkTree (seq t) (N t) (nodes t) (edges t) s (case_insensitive t) (string t).

(** [self.nodes.append(Node())] *)
Definition append_node (t : tree) : tree :=
  set_nodes t (nodes t ++ [Node.new]).

(** [self.nodes[k].suffix_node = v] *)
Definition set_suffix_node (t : tree) (k v : Z) : result tree :=
  _ ← py_index (nodes t) k;
  mret (set_nodes t
          (<[Z.to_nat (py_norm (py_len (nodes t)) k) := Node.mk v]> (nodes t))).

(** [self.edges[k]] *)
Definition edge_at (t : tree) (k : Z * A) : result Edge.t :=
  match edges t !! k with
  | Some e => Ok e
  | None => Raise KeyError
  end.

Definition _insert_edge (t : tree) (edge : Edge.t) : result tree :=
  c ← py_index (seq t) (Edge.first_obj_index edge);
  mret (set_edges t (<[(Edge.source_node_index edge, c) := edge]> (edges t))).

Definition _remove_edge (t : tree) (edge : Edge.t) : result tree :=
  c ← py_index (seq t) (Edge.first_obj_index edge);
  _ ← edge_at t (Edge.source_node_index edge, c);
  mret (set_edges t (delete (Edge.source_node_index edge, c) (edges t))).

(** Returns the tree after the split and the handle of the new node. The
    argument [edge] is the object just looked up in the table; it is popped
    before it is mutated and inserted again, so no table entry is ever
    changed in place. [suffix] is only read. *)
Definition _split_edge (t : tree) (edge : Edge.t) (suffix : Suffix.t)
    : result (tree * Z) :=
  let t := append_node t in
  let e := Edge.mk (Edge.first_obj_index edge)
                   (Edge.first_obj_index edge + Suffix.length suffix)
                   (Suffix.source_node_index suffix)
                   (py_len (nodes t) - 1) in
  t ← _remove_edge t edge;
  t ← _insert_edge t e;
  t ← set_suffix_node t (Edge.dest_node_index e) (Suffix.source_node_index suffix);
  let edge := Edge.mk (Edge.first_obj_index edge + (Suffix.length suffix + 1))
                      (Edge.last_obj_index edge)
                      (Edge.dest_node_index e)
                      (Edge.dest_node_index edge) in
  t ← _insert_edge t edge;
  mret (t, Edge.dest_node_index e).

(** [_canonize_suffix] is only ever called on [self.active], which it
    mutates in place: the embedding reads and writes the [active] field. *)
Fixpoint _canonize_suffix (fuel : nat) (t : tree) : result tree :=
  match fuel with
  | O => OutOfFuel
  | S fuel =>
    let suffix := active t in
    if negb (Suffix.explicit suffix) then
      c ← py_index (seq t) (Suffix.first_obj_index suffix);
      e ← edge_at t (Suffix.source_node_index suffix, c);
      if Edge.length e <=? Suffix.length suffix then
        _canonize_suffix fuel
          (set_active t
             (Suffix.mk (Edge.dest_node_index e)
                        (Suffix.first_obj_index suffix + (Edge.length e + 1))
                        (Suffix.last_obj_index suffix)))
      else mret t
    else mret t
  end.

(** *** [_add_prefix]

    The body of the [while True] loop is cut in two at the call of
    [_canonize_suffix]. [_add_prefix_test] is lines 118-128: it answers
    [None] where the source breaks out of the loop, and otherwise the tree
    (after a split, if any) with the value of [parent_node]. *)
Definition _add_prefix_test (t : tree) (last_obj_index : Z)
    : result (option (tree * Z)) :=
  let parent_node := Suffix.source_node_index (active t) in
  if Suffix.explicit (active t) then
    c ← py_index (seq t) last_obj_index;
    if decide (is_Some (edges t !! (Suffix.source_node_index (active t), c)))
    then mret None
    else mret (Some (t, parent_node))
  else
    c ← py_index (seq t) (Suffix.first_obj_index (active t));
    e ← edge_at t (Suffix.source_node_index (active t), c);
    c1 ← py_index (seq t)
           (Edge.first_obj_index e + Suffix.length (active t) + 1);
    c2 ← py_index (seq t) last_obj_index;
    if decide (c1 = c2) then mret None
    else
      r ← _split_edge t e (active t);
      mret (Some r).

(** Lines 135-136 and 144-145. *)
Definition link_last_parent (t : tree) (last_parent_node parent_node : Z)
    : result tree :=
  if 0 <? last_parent_node
  then set_suffix_node t last_parent_node parent_node
  else mret t.

(** Lines 131-142: the new leaf, the suffix link of the previous parent
    and the move of the active point to the next shorter suffix. *)
Definition _add_prefix_extend (t : tree)
    (last_obj_index last_parent_node parent_node : Z) : result tree :=
  let t := append_node t in
  let e := Edge.mk last_obj_index (N t) parent_node (py_len (nodes t) - 1) in
  t ← _insert_edge t e;
  t ← link_last_parent t last_parent_node parent_node;
  if decide (Suffix.source_node_index (active t) = 0) then
    mret (set_active t
            (Suffix.mk (Suffix.source_node_index (active t))
                       (Suffix.first_obj_index (active t) + 1)
                       (Suffix.last_obj_index (active t))))
  else
    n ← py_index (nodes t) (Suffix.source_node_index (active t));
    mret (set_active t
            (Suffix.mk (Node.suffix_node n)
                       (Suffix.first_obj_index (active t))
                       (Suffix.last_obj_index (active t)))).

(** Lines 144-147, after the loop. *)
Definition _add_prefix_finish (cfuel : nat) (t : tree)
    (last_parent_node parent_node : Z) : result tree :=
  t ← link_last_parent t last_parent_node parent_node;
  _canonize_suffix cfuel
    (set_active t
       (Suffix.mk (Suffix.source_node_index (active t))
                  (Suffix.first_obj_index (active t))
                  (Suffix.last_obj_index (active t) + 1))).

(** The loop; [cfuel] is handed to every call of [_canonize_suffix]. *)
Fixpoint _add_prefix_loop (cfuel fuel : nat) (t : tree)
    (last_obj_index last_parent_node : Z) : result tree :=
  match fuel with
  | O => OutOfFuel
  | S fuel =>
    let parent_node := Suffix.source_node_index (active t) in
    r ← _add_prefix_test t last_obj_index;
    match r with
    | None => _add_prefix_finish cfuel t last_parent_node parent_node
    | Some (t, parent_node) =>
      t ← _add_prefix_extend t last_obj_index last_parent_node parent_node;
      t ← _canonize_suffix cfuel t;
      _add_prefix_loop cfuel fuel t last_obj_index parent_node
    end
  end.

Definition _add_prefix (fuel : nat) (t : tree) (last_obj_index : Z)
    : result tree :=
  _add_prefix_loop fuel fuel t last_obj_index (-1).

(** *** [__init__] *)

(** The object before the [for] loop of [__init__]. Neither
    [case_insensitive] nor [string] is assigned, here or anywhere else. *)
Definition init (s : list A) : tree :=
  mkTree s (py_len s - 1) [Node.new] ∅ (Suffix.mk 0 0 (-1)) None None.

(** [SuffixTree(seq)] *)
Definition SuffixTree (fuel : nat) (s : list A) : result tree :=
  for_each (_add_prefix fuel) (init s) (range (py_len s)).

(** The first [k] phases of the construction. *)
Definition phases (fuel : nat) (s : list A) (k : nat) : result tree :=
  for_each (_add_prefix fuel) (init s) (take k (range (py_len s))).

(** *** [find_substring] and [has_substring] *)

(** The [while] loop. [last] holds the values of the local variables
    [edge] and [ln] once they have been assigned. *)
Fixpoint find_substring_loop (fuel : nat) (t : tree) (substring : list A)
    (i curr_node : Z) (last : option (Edge.t * Z)) : result Z :=
  match fuel with
  | O => OutOfFuel
  | S fuel =>
    if i <? py_len substring then
      c ← py_index substring i;
      match edges t !! (curr_node, c) with
      | None => mret (-1)
      | Some edge =>
        let ln := Z.min (Edge.length edge + 1) (py_len substring - i) in
        str ← getattr "string" (string t);
        if decide (py_slice substring i (i + ln)
                   ≠ py_slice str (Edge.first_obj_index edge)
                                  (Edge.first_obj_index edge + ln))
        then mret (-1)
        else find_substring_loop fuel t substring
               (i + (Edge.length edge + 1)) (Edge.dest_node_index edge)
               (Some (edge, ln))
      end
    else
      match last with
      | Some (edge, ln) =>
        mret (Edge.first_obj_index edge - py_len substring + ln)
      | None => Raise (UnboundLocalError "edge")
      end
  end.

Definition find_substring (fuel : nat) (t : tree) (substring : list A)
    : result Z :=
  match substring with
  | [] => mret (-1)
  | _ =>
    ci ← getattr "case_insensitive" (case_insensitive t);
    let substring := if ci : bool then lower substring else substring in
    find_substring_loop fuel t substring 0 0 None
  end.

Definition has_substring (fuel : nat) (t : tree) (substring : list A)
    : result bool :=
  r ← find_substring fuel t substring;
  mret (negb (r =? -1)).
End Tree.

(** ** Predicates on trees used by the invariants *)

Section Predicates.
Context {A : Type} `{Countable A}.
Implicit Types (t : @tree A _ _) (d : Z → Z) (e : Edge.t) (n : Z).

(** The fields no construction step writes. *)
Definition frame t t' : Prop :=
  seq t' = seq t ∧ N t' = N t ∧
  case_insensitive t' = case_insensitive t ∧ string t' = string t.

(** The symbols an edge stands for, [self.seq[first : last + 1]]. *)
Definition label t e : list A :=
  py_slice (seq t) (Edge.first_obj_index e) (Edge.last_obj_index e + 1).

(** The tree a split leaves behind, as one expression. *)
Definition split_result t edge (suffix : Suffix.t) (c c' : A) : @tree A _ _ :=
  let k := Suffix.length suffix in
  let new := py_len (nodes t) in
  let upper := Edge.mk (Edge.first_obj_index edge)
                       (Edge.first_obj_index edge + k)
                       (Suffix.source_node_index suffix) new in
  let lower := Edge.mk (Edge.first_obj_index edge + (k + 1))
                       (Edge.last_obj_index edge) new
                       (Edge.dest_node_index edge) in
  mkTree (seq t) (N t)
    (nodes t ++ [Node.mk (Suffix.source_node_index suffix)])
    (<[(new, c') := lower]>
       (<[(Suffix.source_node_index suffix, c) := upper]>
          (delete (Edge.source_node_index edge, c) (edges t))))
    (active t) (case_insensitive t) (string t).

(** The suffix link stored in node [n], [-1] outside the registry. *)
Definition suffix_link t n : Z :=
  match nodes t !! Z.to_nat n with
  | Some nd => Node.suffix_node nd
  | None => -1
  end.

(** The root, or a node whose suffix link is set. *)
Definition is_branch t n : Prop :=
  0 ≤ n < py_len (nodes t) ∧ (n = 0 ∨ suffix_link t n ≠ -1).

(** An internal node: not the root, and the source of some edge. These are
    exactly the nodes made by [_split_edge], which gives each of them an
    outgoing edge at once; the nodes made by [_add_prefix] itself are
    leaves and never get one. *)
Definition internal t n : Prop :=
  n ≠ 0 ∧ ∃ k e, edges t !! k = Some e ∧ Edge.source_node_index e = n.

(** Every entry of the edge table sits under the key of its edge. *)
Definition keyed t : Prop :=
  map_Forall (λ k e,
    k.1 = Edge.source_node_index e ∧
    py_index (seq t) (Edge.first_obj_index e) = Ok k.2) (edges t).

(** Every edge of the table leaves a node of the registry. *)
Definition sources_valid t : Prop :=
  map_Forall (λ (_ : Z * A) e,
    Edge.source_node_index e < py_len (nodes t)) (edges t).

#[global] Instance keyed_dec t : Decision (keyed t).
Proof. unfold keyed. apply _. Defined.

#[global] Instance sources_valid_dec t : Decision (sources_valid t).
Proof. unfold sources_valid. apply _. Defined.

(** The number of symbols in the window of the active point. *)
Definition window t : Z :=
  Z.max 0 (Suffix.length (active t) + 1).

(** The active point cannot descend any further. *)
Definition canonical t : Prop :=
  Suffix.explicit (active t) = true ∨
  ∃ c e,
    py_index (seq t) (Suffix.first_obj_index (active t)) = Ok c ∧
    edges t !! (Suffix.source_node_index (active t), c) = Some e ∧
    Suffix.length (active t) < Edge.length e.

(** The start of the suffix the active point stands for, given the string
    depth [d] of the nodes. *)
Definition start d t : Z :=
  Suffix.first_obj_index (active t) - d (Suffix.source_node_index (active t)).

Record edge_ok d (J : Z) t (k : Z * A) e : Prop := {
  eo_src : k.1 = Edge.source_node_index e;
  eo_sym : py_index (seq t) (Edge.first_obj_index e) = Ok k.2;
  eo_first : 0 ≤ Edge.first_obj_index e;
  eo_span : Edge.first_obj_index e ≤ Edge.last_obj_index e;
  eo_last : Edge.last_obj_index e ≤ N t;
  eo_branch : is_branch t (Edge.source_node_index e);
  eo_dest : 1 ≤ Edge.dest_node_index e < py_len (nodes t);
  eo_depth : d (Edge.dest_node_index e)
             = d (Edge.source_node_index e) + Edge.length e + 1;
  eo_leaf : Edge.last_obj_index e = N t ∨ is_branch t (Edge.dest_node_index e);
  eo_head : Edge.first_obj_index e - d (Edge.source_node_index e) < J
}.

(** The invariant of the registry and the table; [d] is the string depth
    of each node and [J] the start of the current suffix. *)
Record tree_inv d (J : Z) t : Prop := {
  ti_N : N t = py_len (seq t) - 1;
  ti_attr : case_insensitive t = None ∧ string t = None;
  ti_root : d 0 = 0;
  ti_nodes : 1 ≤ py_len (nodes t);
  ti_edges : ∀ k e, edges t !! k = Some e → edge_ok d J t k e;
  ti_links : ∀ n, 0 < n → suffix_link t n ≠ -1 →
               is_branch t (suffix_link t n) ∧ d (suffix_link t n) < d n;
  ti_depth : ∀ n, is_branch t n → 0 ≤ d n
}.

(** What holds of the active point whenever [_canonize_suffix] is called
    and when it returns. *)
Record active_inv d (J : Z) t : Prop := {
  ai_tree : tree_inv d J t;
  ai_start : J = start d t;
  ai_src : is_branch t (Suffix.source_node_index (active t));
  ai_last : Suffix.last_obj_index (active t) ≤ N t
}.

(** The bound on the registry in terms of the start [J] of the current
    suffix: nothing has been added before the first extension, every
    extension adds at most two nodes and moves [J] forward, and an
    extension made at the root adds one node only. *)
Record count_inv (J k i : Z) t : Prop := {
  ci_nonneg : 0 ≤ J;
  ci_zero : J = 0 → k = 0 ∧ py_len (nodes t) = 1;
  ci_pos : 1 ≤ J → py_len (nodes t) ≤ 2 * J;
  ci_top : 1 ≤ i → J = i + 1 → py_len (nodes t) ≤ 2 * J - 1;
  ci_size : Z.of_nat (size (edges t)) + 1 ≤ py_len (nodes t)
}.

(** At the head of the loop of [_add_prefix], before the test, while
    position [i] is being added. *)
Record head_inv d (i lpn : Z) t : Prop := {
  hi_active : active_inv d (start d t) t;
  hi_i : 0 ≤ i ≤ N t;
  hi_last : Suffix.last_obj_index (active t) = i - 1;
  hi_first :
    Suffix.first_obj_index (active t) ≤ i ∨
    (Suffix.first_obj_index (active t) = i + 1 ∧
     Suffix.source_node_index (active t) = 0 ∧ lpn = 0 ∧
     ∃ c, py_index (seq t) i = Ok c ∧ is_Some (edges t !! (0, c)));
  hi_lpn : lpn = -1 ∨ lpn = 0 ∨
           (0 < lpn ∧ is_branch t lpn ∧ i - start d t < d lpn);
  hi_count : count_inv (start d t) i i t
}.

(** After the test at the head of the loop did not leave it: [t1] is the
    tree (after a split, if there was one) and [p] the parent of the leaf
    about to be added. *)
Record test_post d (J i : Z) t t1 (p : Z) : Prop := {
  tp_tree : tree_inv d J t1;
  tp_active : active t1 = active t;
  tp_seq : seq t1 = seq t;
  tp_mono : ∀ n, is_branch t n → is_branch t1 n;
  tp_parent : is_branch t1 p;
  tp_depth : d p = i - J;
  tp_first : Suffix.first_obj_index (active t) ≤ i;
  tp_len : py_len (nodes t) ≤ py_len (nodes t1) ≤ py_len (nodes t) + 1;
  tp_explicit : Suffix.explicit (active t) = true →
                nodes t1 = nodes t ∧ p = Suffix.source_node_index (active t);
  tp_size : Z.of_nat (size (edges t1)) + 1 ≤ py_len (nodes t1)
}.

(** Between two phases, after [k] of them. *)
Record phase_inv d (k : Z) t : Prop := {
  pi_active : active_inv d (start d t) t;
  pi_canon : canonical t;
  pi_k : 0 ≤ k ≤ N t + 1;
  pi_last : Suffix.last_obj_index (active t) = k - 1;
  pi_first : Suffix.first_obj_index (active t) ≤ k;
  pi_count : count_inv (start d t) k (k - 1) t
}.

(** The trees met at the head of the loop of [_add_prefix] while
    [SuffixTree(s)] runs: [at_head fuel s i lpn t] is the head of the loop
    in the phase of position [i], with [last_parent_node = lpn]. *)
Inductive at_head (fuel : nat) (s : list A) : Z → Z → tree → Prop :=
  | head_enter (k : nat) t :
      (k < length s)%nat → phases fuel s k = Ok t →
      at_head fuel s (Z.of_nat k) (-1) t
  | head_again i lpn t t1 p t2 t3 :
      at_head fuel s i lpn t →
      _add_prefix_test t i = Ok (Some (t1, p)) →
      _add_prefix_extend t1 i lpn p = Ok t2 →
      _canonize_suffix fuel t2 = Ok t3 →
      at_head fuel s i p t3.

(** The trees on which [_canonize_suffix] is called while [SuffixTree(s)]
    runs: at the end of a round of the loop (line 143) and after the loop
    (line 147). *)
Inductive canonize_call (fuel : nat) (s : list A) : tree → Prop :=
  | call_in_loop i lpn t t1 p t2 :
      at_head fuel s i lpn t →
      _add_prefix_test t i = Ok (Some (t1, p)) →
      _add_prefix_extend t1 i lpn p = Ok t2 →
      canonize_call fuel s t2
  | call_after_loop i lpn t t1 :
      at_head fuel s i lpn t →
      _add_prefix_test t i = Ok None →
      link_last_parent t lpn (Suffix.source_node_index (active t)) = Ok t1 →
      canonize_call fuel s
        (set_active t1
           (Suffix.mk (Suffix.source_node_index (active t1))
                      (Suffix.first_obj_index (active t1))
                      (Suffix.last_obj_index (active t1) + 1))).
End Predicates.

(** ** Sequences of characters, for the examples *)

Definition chars (s : String.string) : list ascii :=
  String.list_ascii_of_string s.

(** [str.lower] on the letters A-Z. *)
Definition lower_ascii (c : ascii) : ascii :=
  let n := nat_of_ascii c in
  if (65 <=? n)%nat && (n <=? 90)%nat then ascii_of_nat (n + 32) else c.

Definition str_lower (s : list ascii) : list ascii := lower_ascii <$> s.

(** The tree of [s], or the bare root object where the construction does not
    return one. *)
Definition tree_of (s : String.string) : @tree ascii _ _ :=
  match SuffixTree (S (String.length s)) (chars s) with
  | Ok t => t
  | _ => init (chars s)
  end.

(** The tree object after the first [k] phases of the construction on [s]. *)
Definition tree_after (s : String.string) (k : nat) : @tree ascii _ _ :=
  match phases (S (String.length s)) (chars s) k with
  | Ok t => t
  | _ => init (chars s)
  end.

(** ** What the tree holds: the words read along its edges *)

Section Reading.
Context {A : Type} `{Countable A}.
Implicit Types (t : @tree A _ _) (d : Z → Z) (e edge : Edge.t) (n v J : Z).

(** [s[a : a + n]] and [s[b : b + n]] are the same word. *)
Definition agree (s : list A) (a b n : Z) : Prop :=
  ∀ m, 0 ≤ m < n → s !! Z.to_nat (a + m) = s !! Z.to_nat (b + m).

(** The word [seq[a .. b]] can be read in the tree downward from node [n]. *)
Inductive reads t : Z → Z → Z → Prop :=
  | reads_nil n a b : b < a → reads t n a b
  | reads_in n a b c e :
      a ≤ b → py_index (seq t) a = Ok c → edges t !! (n, c) = Some e →
      b - a ≤ Edge.length e →
      agree (seq t) a (Edge.first_obj_index e) (b - a + 1) →
      reads t n a b
  | reads_through n a b c e :
      py_index (seq t) a = Ok c → edges t !! (n, c) = Some e →
      0 ≤ Edge.length e < b - a →
      agree (seq t) a (Edge.first_obj_index e) (Edge.length e + 1) →
      reads t (Edge.dest_node_index e) (a + Edge.length e + 1) b →
      reads t n a b.

(** Reading the word [seq[a .. b]] downward from node [n] ends exactly on
    node [n']. *)
Inductive walk t : Z → Z → Z → Z → Prop :=
  | walk_nil n a : walk t n a (a - 1) n
  | walk_edge n a b c e n' :
      py_index (seq t) a = Ok c → edges t !! (n, c) = Some e →
      0 ≤ Edge.length e ≤ b - a →
      agree (seq t) a (Edge.first_obj_index e) (Edge.length e + 1) →
      walk t (Edge.dest_node_index e) (a + Edge.length e + 1) b n' →
      walk t n a b n'.
End Reading.

Section Semantics.
Context {A : Type} `{Countable A}.
Implicit Types (t : @tree A _ _) (d pos : Z → Z) (e edge : Edge.t) (n v J : Z).

(** The suffix link of every node that [P] covers leads to the node of the
    word without its first symbol; [pos n] is where an occurrence of the
    word of node [n] starts in the sequence. *)
Definition links_ok d pos t (P : Z → Prop) : Prop :=
  ∀ n, 0 < n → is_branch t n → P n →
    d (suffix_link t n) = d n - 1 ∧
    agree (seq t) (pos (suffix_link t n)) (pos n + 1) (d n - 1).

(** What the tree holds: the word of every node is where [pos] says, every
    internal node is where its word leads, every word of [seq[0 .. c-1]] can
    be read from the root, and so can every suffix that starts before [J]. *)
Record sem_inv d pos (c J : Z) t : Prop := {
  si_root : pos 0 = 0;
  si_edges : ∀ key e, edges t !! key = Some e →
    pos (Edge.dest_node_index e)
    = Edge.first_obj_index e - d (Edge.source_node_index e) ∧
    0 ≤ pos (Edge.dest_node_index e) ∧
    agree (seq t) (pos (Edge.dest_node_index e))
      (pos (Edge.source_node_index e)) (d (Edge.source_node_index e));
  si_loc : ∀ n, is_branch t n →
    0 ≤ pos n ∧ walk t 0 (pos n) (pos n + d n - 1) n;
  si_complete : ∀ a b, 0 ≤ a → b < c → reads t 0 a b;
  si_leaves : ∀ j, 0 ≤ j < J → reads t 0 j (N t)
}.

(** The active point stands for [seq[J .. last]]: its node for the first
    part, its window for the rest, which can be read from the node. *)
Record act_ok d pos t : Prop := {
  ao_path : agree (seq t) (start d t)
              (pos (Suffix.source_node_index (active t)))
              (d (Suffix.source_node_index (active t)));
  ao_reads : reads t (Suffix.source_node_index (active t))
               (Suffix.first_obj_index (active t))
               (Suffix.last_obj_index (active t))
}.

(** The parent of the previous leaf stands for [seq[J-1 .. i-1]]; if it was
    made by a split, the edge that was split went on with a symbol other
    than [seq[i]]. *)
Definition pend_ok d pos (i lpn : Z) t : Prop :=
  0 < lpn →
  d lpn = i - start d t + 1 ∧
  agree (seq t) (pos lpn) (start d t - 1) (d lpn) ∧
  (i ≤ Suffix.first_obj_index (active t) ∨
   ∃ x, 0 ≤ x - d lpn ∧ x < i ∧
        seq t !! Z.to_nat x ≠ seq t !! Z.to_nat i ∧
        agree (seq t) (x - d lpn) (start d t - 1) (d lpn)).

Record deep_head d pos (i lpn : Z) t : Prop := {
  dh_head : head_inv d i lpn t;
  dh_canon : canonical t;
  dh_sem : sem_inv d pos i (start d t) t;
  dh_links : links_ok d pos t (λ n, n ≠ lpn);
  dh_act : act_ok d pos t;
  dh_pend : pend_ok d pos i lpn t
}.

Record deep_phase d pos (k : Z) t : Prop := {
  dp_phase : phase_inv d k t;
  dp_sem : sem_inv d pos k (start d t) t;
  dp_links : links_ok d pos t (λ _, True);
  dp_act : act_ok d pos t
}.
End Semantics.

Section TestCases.
Context {A : Type} `{Countable A}.
Implicit Types (t : @tree A _ _) (d pos : Z → Z) (e edge : Edge.t) (n v J : Z).

(** The four ways through the test at the head of the loop of
    [_add_prefix], each with what [_add_prefix_test] answers. *)
Inductive test_case t (i : Z) : option (tree * Z) → Prop :=
  | test_explicit_new c :
      Suffix.explicit (active t) = true →
      py_index (seq t) i = Ok c →
      edges t !! (Suffix.source_node_index (active t), c) = None →
      test_case t i (Some (t, Suffix.source_node_index (active t)))
  | test_explicit_found c e :
      Suffix.explicit (active t) = true →
      py_index (seq t) i = Ok c →
      edges t !! (Suffix.source_node_index (active t), c) = Some e →
      test_case t i None
  | test_implicit_split c0 e c1 c2 :
      Suffix.explicit (active t) = false →
      py_index (seq t) (Suffix.first_obj_index (active t)) = Ok c0 →
      edges t !! (Suffix.source_node_index (active t), c0) = Some e →
      Suffix.length (active t) < Edge.length e →
      py_index (seq t)
        (Edge.first_obj_index e + (Suffix.length (active t) + 1)) = Ok c1 →
      py_index (seq t) i = Ok c2 → c1 ≠ c2 →
      test_case t i
        (Some (split_result t e (active t) c0 c1, py_len (nodes t)))
  | test_implicit_found c0 e c :
      Suffix.explicit (active t) = false →
      py_index (seq t) (Suffix.first_obj_index (active t)) = Ok c0 →
      edges t !! (Suffix.source_node_index (active t), c0) = Some e →
      Suffix.length (active t) < Edge.length e →
      py_index (seq t)
        (Edge.first_obj_index e + (Suffix.length (active t) + 1)) = Ok c →
      py_index (seq t) i = Ok c →
      test_case t i None.
End TestCases.

Section MidState.
Context {A : Type} `{Countable A}.
Implicit Types (t : @tree A _ _) (d pos : Z → Z) (e edge : Edge.t) (n v J : Z).

(** Between the test and the new leaf: [t1] is the tree after the split, if
    there was one, and [p] the parent of the leaf to come, which stands for
    [seq[J .. i-1]]. *)
Record deep_mid d pos d' pos' (i lpn : Z) t t1 (p : Z) : Prop := {
  dm_old : ∀ n, 0 ≤ n < py_len (nodes t) → d' n = d n ∧ pos' n = pos n;
  dm_post : test_post d' (start d t) i t t1 p;
  dm_sem : sem_inv d' pos' i (start d t) t1;
  dm_links : links_ok d' pos' t1 (λ n, n ≠ lpn ∧ n < py_len (nodes t));
  dm_path : agree (seq t) (start d t) (pos' p) (d' p);
  dm_free : ∀ c, py_index (seq t) i = Ok c → edges t1 !! (p, c) = None;
  dm_branch : ∀ n, is_branch t1 n → n = p ∨ is_branch t n;
  dm_pend : 0 < p →
    i ≤ Suffix.first_obj_index (active t) ∨
    ∃ x, 0 ≤ x - d' p ∧ x < i ∧
         seq t !! Z.to_nat x ≠ seq t !! Z.to_nat i ∧
         agree (seq t) (x - d' p) (start d t) (d' p)
}.
End MidState.

Section ExtendResult.
Context {A : Type} `{Countable A}.
Implicit Types (t : @tree A _ _) (d pos : Z → Z) (e edge : Edge.t) (n v J : Z).

(** The tree after the new leaf and its edge, and after the suffix link of
    the previous parent, as one expression. *)
Definition with_leaf t (i p : Z) (c : A) : tree :=
  set_edges (append_node t)
    (<[(p, c) := Edge.mk i (N t) p (py_len (nodes t))]> (edges t)).

Definition relinked t (lpn p : Z) : tree :=
  if 0 <? lpn
  then set_nodes t (<[Z.to_nat lpn := Node.mk p]> (nodes t))
  else t.

(** The active point after the move to the next shorter suffix. *)
Definition next_active t : Suffix.t :=
  if decide (Suffix.source_node_index (active t) = 0)
  then Suffix.mk (Suffix.source_node_index (active t))
         (Suffix.first_obj_index (active t) + 1)
         (Suffix.last_obj_index (active t))
  else Suffix.mk (suffix_link t (Suffix.source_node_index (active t)))
         (Suffix.first_obj_index (active t))
         (Suffix.last_obj_index (active t)).
End ExtendResult.

Section Shape.
Context {A : Type} `{Countable A}.
Implicit Types (t : @tree A _ _) (d pos : Z → Z) (e edge : Edge.t) (n v J : Z).

(** The table holds one edge for every node of the registry but the
    root. *)
Definition tree_shape t : Prop :=
  Z.of_nat (size (edges t)) + 1 = py_len (nodes t).
End Shape.

Section Attributes.
Context {A : Type} `{Countable A}.
Implicit Types (t : @tree A _ _).

(** The object after a caller has assigned the two attributes that
    [find_substring] reads and the class never sets:
    [tree.case_insensitive = ci; tree.string = str]. *)
Definition with_attributes t (ci : bool) (str : list A) : tree :=
  mkTree (seq t) (N t) (nodes t) (edges t) (active t) (Some ci) (Some str).

(** [p] occurs in [s] at index [r]. *)
Definition occurs_at (s p : list A) (r : Z) : Prop :=
  0 ≤ r ∧ take (length p) (drop (Z.to_nat r) s) = p.
End Attributes.

(** ** Basic facts about outcomes and Python indexing *)

Lemma bind_Ok {T U : Type} (r : result T) (k : T → result U) (y : U) :
  r ≫= k = Ok y ↔ ∃ x, r = Ok x ∧ k x = Ok y.
Proof.
  destruct r as [x| |]; simpl; split.
  - intros Hk. by exists x.
  - by intros (x' & [= <-] & Hk).
  - done.
  - by intros (x' & [=] & _).
  - done.
  - by intros (x' & [=] & _).
Qed.

Lemma bind_not_fuel {T U : Type} (r : result T) (k : T → result U) :
  r ≠ OutOfFuel → (∀ x, r = Ok x → k x ≠ OutOfFuel) → r ≫= k ≠ OutOfFuel.
Proof.
  destruct r as [x| |]; simpl; intros Hr Hk; [by apply Hk | done | done].
Qed.

Lemma py_index_Ok {T : Type} (l : list T) (k : Z) (x : T) :
  0 ≤ k → py_index l k = Ok x ↔ l !! Z.to_nat k = Some x.
Proof.
  intros Hk. unfold py_index, py_norm.
  destruct (Z.ltb_spec k 0) as [|_]; [lia|].
  destruct (Z.leb_spec 0 k) as [_|]; [|lia]. simpl.
  destruct (Z.ltb_spec k (Z.of_nat (length l))) as [Hlt|Hge].
  - destruct (l !! Z.to_nat k) eqn:E; naive_solver.
  - split; [done|]. intros E. apply lookup_lt_Some in E. lia.
Qed.

Lemma py_index_lt {T : Type} (l : list T) (k : Z) :
  0 ≤ k < py_len l → ∃ x, py_index l k = Ok x ∧ l !! Z.to_nat k = Some x.
Proof.
  intros Hk. unfold py_len in Hk.
  destruct (lookup_lt_is_Some_2 l (Z.to_nat k)) as [x Hx]; [lia|].
  exists x. split; [|done]. by apply py_index_Ok; [lia|].
Qed.

Lemma py_index_not_fuel {T : Type} (l : list T) (k : Z) :
  py_index l k ≠ OutOfFuel.
Proof.
  unfold py_index. repeat case_match; done.
Qed.

Lemma getattr_not_fuel {T : Type} (name : String.string) (a : option T) :
  getattr name a ≠ OutOfFuel.
Proof. by destruct a. Qed.

Lemma for_each_app {S I : Type} (body : S → I → result S) (s : S)
    (l1 l2 : list I) :
  for_each body s (l1 ++ l2) = for_each body s l1 ≫= λ s', for_each body s' l2.
Proof.
  revert s. induction l1 as [|i l1 IH]; intros s; simpl; [done|].
  destruct (body s i) as [s'| |]; simpl; [apply IH | done | done].
Qed.

(** ** What each table and registry operation does *)

Section Operations.
Context {A : Type} `{Countable A}.
Implicit Types (t : @tree A _ _) (e edge : Edge.t) (n k v : Z).

Lemma frame_refl t : frame t t.
Proof. by repeat split. Qed.

Lemma frame_trans t1 t2 t3 : frame t1 t2 → frame t2 t3 → frame t1 t3.
Proof.
  intros (?&?&?&?) (?&?&?&?). repeat split; congruence.
Qed.

Lemma set_suffix_node_Ok t k v t' :
  set_suffix_node t k v = Ok t' ↔
  (∃ x, py_index (nodes t) k = Ok x) ∧
  t' = set_nodes t
         (<[Z.to_nat (py_norm (py_len (nodes t)) k) := Node.mk v]> (nodes t)).
Proof.
  unfold set_suffix_node. rewrite bind_Ok. split.
  - intros (x & Hx & [= <-]). eauto.
  - intros [[x Hx] ->]. by exists x.
Qed.

Lemma insert_edge_Ok t e t' :
  _insert_edge t e = Ok t' ↔
  ∃ c, py_index (seq t) (Edge.first_obj_index e) = Ok c ∧
       t' = set_edges t (<[(Edge.source_node_index e, c) := e]> (edges t)).
Proof.
  unfold _insert_edge. rewrite bind_Ok. split.
  - intros (c & Hc & [= <-]). eauto.
  - intros (c & Hc & ->). by exists c.
Qed.

Lemma edge_at_Ok t (key : Z * A) e :
  edge_at t key = Ok e ↔ edges t !! key = Some e.
Proof.
  unfold edge_at. destruct (edges t !! key); split; congruence.
Qed.

Lemma remove_edge_Ok t e t' :
  _remove_edge t e = Ok t' ↔
  ∃ c, py_index (seq t) (Edge.first_obj_index e) = Ok c ∧
       is_Some (edges t !! (Edge.source_node_index e, c)) ∧
       t' = set_edges t (delete (Edge.source_node_index e, c) (edges t)).
Proof.
  unfold _remove_edge. rewrite bind_Ok. split.
  - intros (c & Hc & Hk). apply bind_Ok in Hk as (e' & He' & [= <-]).
    apply edge_at_Ok in He'. eauto.
  - intros (c & Hc & [e' He'] & ->). exists c. split; [done|].
    apply bind_Ok. exists e'. by rewrite edge_at_Ok.
Qed.

Lemma frame_set_suffix_node t k v t' :
  set_suffix_node t k v = Ok t' → frame t t' ∧ edges t' = edges t ∧ active t' = active t.
Proof. intros [_ ->]%set_suffix_node_Ok. by repeat split. Qed.

Lemma frame_insert_edge t e t' :
  _insert_edge t e = Ok t' → frame t t' ∧ nodes t' = nodes t ∧ active t' = active t.
Proof. intros (c & _ & ->)%insert_edge_Ok. by repeat split. Qed.

Lemma frame_remove_edge t e t' :
  _remove_edge t e = Ok t' → frame t t' ∧ nodes t' = nodes t ∧ active t' = active t.
Proof. intros (c & _ & _ & ->)%remove_edge_Ok. by repeat split. Qed.

Lemma frame_link_last_parent t lpn p t' :
  link_last_parent t lpn p = Ok t' →
  frame t t' ∧ edges t' = edges t ∧ active t' = active t.
Proof.
  unfold link_last_parent. destruct (0 <? lpn).
  - apply frame_set_suffix_node.
  - intros [= <-]. by repeat split.
Qed.

Lemma frame_split_edge t edge suffix t' n :
  _split_edge t edge suffix = Ok (t', n) → frame t t' ∧ active t' = active t.
Proof.
  unfold _split_edge. intros Hs.
  apply bind_Ok in Hs as (t1 & H1 & Hs). apply bind_Ok in Hs as (t2 & H2 & Hs).
  apply bind_Ok in Hs as (t3 & H3 & Hs). apply bind_Ok in Hs as (t4 & H4 & [= <- <-]).
  apply frame_remove_edge in H1 as (F1 & _ & A1).
  apply frame_insert_edge in H2 as (F2 & _ & A2).
  apply frame_set_suffix_node in H3 as (F3 & _ & A3).
  apply frame_insert_edge in H4 as (F4 & _ & A4).
  split.
  - eapply frame_trans; [|exact F4]. eapply frame_trans; [|exact F3].
    eapply frame_trans; [|exact F2]. eapply frame_trans; [|exact F1].
    by repeat split.
  - rewrite A4, A3, A2, A1. done.
Qed.

Lemma frame_canonize fuel t t' :
  _canonize_suffix fuel t = Ok t' →
  frame t t' ∧ nodes t' = nodes t ∧ edges t' = edges t.
Proof.
  revert t. induction fuel as [|fuel IH]; intros t; simpl; [done|].
  destruct (negb _); [|intros [= <-]; by repeat split].
  intros Hc. apply bind_Ok in Hc as (c & _ & Hc).
  apply bind_Ok in Hc as (e & _ & Hc).
  destruct (_ <=? _); [|injection Hc as <-; by repeat split].
  apply IH in Hc as (F & Hn & He). simpl in *. by repeat split; try apply F.
Qed.

Lemma frame_test t i r :
  _add_prefix_test t i = Ok r →
  match r with
  | None => True
  | Some (t', _) => frame t t' ∧ active t' = active t
  end.
Proof.
  unfold _add_prefix_test. destruct (Suffix.explicit _).
  - intros Ht. apply bind_Ok in Ht as (c & _ & Ht).
    case_decide; injection Ht as <-; [done|]. split; [apply frame_refl|done].
  - intros Ht. apply bind_Ok in Ht as (c & _ & Ht).
    apply bind_Ok in Ht as (e & _ & Ht). apply bind_Ok in Ht as (c1 & _ & Ht).
    apply bind_Ok in Ht as (c2 & _ & Ht).
    case_decide; [by injection Ht as <-|].
    apply bind_Ok in Ht as ([t' n] & Hs & [= <-]).
    by apply frame_split_edge in Hs.
Qed.

Lemma frame_extend t i lpn p t' :
  _add_prefix_extend t i lpn p = Ok t' → frame t t'.
Proof.
  unfold _add_prefix_extend. intros He.
  apply bind_Ok in He as (t1 & H1 & He). apply bind_Ok in He as (t2 & H2 & He).
  apply frame_insert_edge in H1 as (F1 & _ & _).
  apply frame_link_last_parent in H2 as (F2 & _ & _).
  assert (frame t t2) as F.
  { eapply frame_trans; [|exact F2]. eapply frame_trans; [|exact F1].
    by repeat split. }
  case_decide.
  - injection He as <-. eapply frame_trans; [exact F|]. by repeat split.
  - apply bind_Ok in He as (nd & _ & [= <-]).
    eapply frame_trans; [exact F|]. by repeat split.
Qed.

Lemma frame_finish cfuel t lpn p t' :
  _add_prefix_finish cfuel t lpn p = Ok t' → frame t t'.
Proof.
  unfold _add_prefix_finish. intros Hf.
  apply bind_Ok in Hf as (t1 & H1 & Hf).
  apply frame_link_last_parent in H1 as (F1 & _ & _).
  apply frame_canonize in Hf as (F2 & _ & _).
  eapply frame_trans; [exact F1|]. eapply frame_trans; [|exact F2].
  by repeat split.
Qed.

Lemma frame_loop cfuel fuel t i lpn t' :
  _add_prefix_loop cfuel fuel t i lpn = Ok t' → frame t t'.
Proof.
  revert t lpn. induction fuel as [|fuel IH]; intros t lpn; simpl; [done|].
  intros Hl. apply bind_Ok in Hl as (r & Hr & Hl).
  apply frame_test in Hr. destruct r as [[t1 p]|].
  - destruct Hr as [F1 _].
    apply bind_Ok in Hl as (t2 & H2 & Hl). apply bind_Ok in Hl as (t3 & H3 & Hl).
    apply frame_extend in H2. apply frame_canonize in H3 as (F3 & _ & _).
    apply IH in Hl.
    eauto using frame_trans.
  - by apply frame_finish in Hl.
Qed.

Lemma frame_for_each fuel t l t' :
  for_each (_add_prefix fuel) t l = Ok t' → frame t t'.
Proof.
  revert t. induction l as [|i l IH]; intros t; simpl.
  - intros [= <-]. apply frame_refl.
  - intros Hf. apply bind_Ok in Hf as (t1 & H1 & Hf).
    apply frame_loop in H1. apply IH in Hf. eauto using frame_trans.
Qed.

Lemma frame_SuffixTree fuel s t :
  SuffixTree fuel s = Ok t → frame (init s) t.
Proof. apply frame_for_each. Qed.
End Operations.

(** ** The query *)

Section Query.
Context {A : Type} `{Countable A}.
Variable lower : list A → list A.
Implicit Types (t : @tree A _ _) (substring s : list A).

(** C4: on every tree, [find_substring] of the empty pattern returns
    [-1]; it returns normally, whatever the fuel, since no attribute is
    read and the loop is not entered. *)
Theorem find_substring_empty fuel t :
  find_substring lower fuel t [] = Ok (-1).
Proof. reflexivity. Qed.

Lemma find_substring_no_attribute fuel t substring :
  case_insensitive t = None → substring ≠ [] →
  find_substring lower fuel t substring
  = Raise (AttributeError "case_insensitive").
Proof.
  intros Hci Hne. unfold find_substring.
  destruct substring as [|c substring]; [done|]. by rewrite Hci.
Qed.

Lemma SuffixTree_no_attributes fuel s t :
  SuffixTree fuel s = Ok t → case_insensitive t = None ∧ string t = None.
Proof.
  intros (_ & _ & Hci & Hstr)%frame_SuffixTree. by rewrite Hci, Hstr.
Qed.

(** C2: on every tree the constructor returns, [find_substring] of a
    non-empty pattern raises [AttributeError] and returns nothing: the
    constructor leaves [case_insensitive] and [string] unassigned, and
    [case_insensitive] is read before anything else is done. *)
Theorem find_substring_attribute_error fuel fuel' s t substring :
  SuffixTree fuel s = Ok t → substring ≠ [] →
  case_insensitive t = None ∧ string t = None ∧
  find_substring lower fuel' t substring
  = Raise (AttributeError "case_insensitive").
Proof.
  intros Hb Hne. destruct (SuffixTree_no_attributes _ _ _ Hb) as [Hci Hstr].
  repeat split; [done..|]. by apply find_substring_no_attribute.
Qed.

(** C9: the constructor applied to the empty sequence returns, whatever
    the fuel; [range(len(seq))] is empty, so [_add_prefix] is never
    called, and the tree has the root as its only node and no edge. *)
Theorem SuffixTree_empty fuel :
  range (py_len (@nil A)) = [] ∧
  ∃ t, SuffixTree fuel (@nil A) = Ok t ∧
       nodes t = [Node.new] ∧ edges t = ∅ ∧
       seq t = [] ∧ N t = -1 ∧ active t = Suffix.mk 0 0 (-1).
Proof.
  split; [reflexivity|]. exists (init []). by repeat split.
Qed.
End Query.

(** C2, on the tree of "abcabxabcd$" and the pattern "abc". *)
Lemma find_substring_attribute_error_witness :
  SuffixTree 12 (chars "abcabxabcd$") = Ok (tree_of "abcabxabcd$") ∧
  chars "abc" ≠ [] ∧
  find_substring str_lower 12 (tree_of "abcabxabcd$") (chars "abc")
  = Raise (AttributeError "case_insensitive").
Proof.
  assert (SuffixTree 12 (chars "abcabxabcd$") = Ok (tree_of "abcabxabcd$"))
    as Hb by (vm_compute; reflexivity).
  assert (chars "abc" ≠ []) as Hne by discriminate.
  split; [exact Hb|]. split; [exact Hne|].
  exact (proj2 (proj2 (find_substring_attribute_error str_lower 12 12
                         _ _ _ Hb Hne))).
Defined.

(** C1: "abc" occurs in "abcabxabcd$" at index 0, and [find_substring]
    raises [AttributeError] instead of returning an index. *)
Theorem find_substring_present_raises :
  SuffixTree 12 (chars "abcabxabcd$") = Ok (tree_of "abcabxabcd$") ∧
  py_slice (chars "abcabxabcd$") 0 (0 + py_len (chars "abc")) = chars "abc" ∧
  find_substring str_lower 12 (tree_of "abcabxabcd$") (chars "abc")
  = Raise (AttributeError "case_insensitive").
Proof. vm_compute. done. Qed.

(** C3: "z" does not occur in "abcabxabcd$", and [find_substring] raises
    [AttributeError] instead of returning [-1]. *)
Theorem find_substring_absent_raises :
  SuffixTree 12 (chars "abcabxabcd$") = Ok (tree_of "abcabxabcd$") ∧
  (∀ i : Z, py_slice (chars "abcabxabcd$") i (i + 1) ≠ chars "z") ∧
  find_substring str_lower 12 (tree_of "abcabxabcd$") (chars "z")
  = Raise (AttributeError "case_insensitive").
Proof.
  split; [vm_compute; reflexivity|]. split; [|vm_compute; reflexivity].
  intros i Hi.
  assert (In "z"%char (chars "abcabxabcd$")) as Hin.
  { assert ("z"%char ∈ py_slice (chars "abcabxabcd$") i (i + 1)) as Hz
      by (rewrite Hi; apply list_elem_of_here).
    unfold py_slice in Hz. apply list_elem_of_In.
    eapply subseteq_drop, subseteq_take, Hz. }
  vm_compute in Hin. intuition discriminate.
Qed.

(** ** The edge table: insertion and the split of an edge *)

Section Table.
Context {A : Type} `{Countable A}.
Implicit Types (t : @tree A _ _) (e edge : Edge.t) (suffix : Suffix.t).

Lemma py_norm_nonneg (n k : Z) : 0 ≤ k → py_norm n k = k.
Proof. unfold py_norm. destruct (Z.ltb_spec k 0); lia. Qed.

Lemma py_len_app_one {T : Type} (l : list T) (x : T) :
  py_len (l ++ [x]) = py_len l + 1.
Proof. unfold py_len. rewrite length_app. simpl. lia. Qed.

Lemma py_index_last {T : Type} (l : list T) (x : T) :
  py_index (l ++ [x]) (py_len l) = Ok x.
Proof.
  apply py_index_Ok; [unfold py_len; lia|]. unfold py_len.
  rewrite Nat2Z.id. by apply list_lookup_middle.
Qed.

Lemma insert_last {T : Type} (l : list T) (x y : T) :
  <[Z.to_nat (py_len l) := y]> (l ++ [x]) = l ++ [y].
Proof.
  unfold py_len. rewrite Nat2Z.id.
  replace (length l) with (length l + 0)%nat by lia.
  by rewrite insert_app_r.
Qed.

Lemma insert_edge_eq t e c :
  py_index (seq t) (Edge.first_obj_index e) = Ok c →
  _insert_edge t e
  = Ok (set_edges t (<[(Edge.source_node_index e, c) := e]> (edges t))).
Proof. intros Hc. unfold _insert_edge. by rewrite Hc. Qed.

Lemma remove_edge_eq t e c :
  py_index (seq t) (Edge.first_obj_index e) = Ok c →
  is_Some (edges t !! (Edge.source_node_index e, c)) →
  _remove_edge t e
  = Ok (set_edges t (delete (Edge.source_node_index e, c) (edges t))).
Proof.
  intros Hc [old Hold]. unfold _remove_edge, edge_at. rewrite Hc. simpl.
  by rewrite Hold.
Qed.

Lemma split_edge_eq t edge suffix c c' :
  py_index (seq t) (Edge.first_obj_index edge) = Ok c →
  is_Some (edges t !! (Edge.source_node_index edge, c)) →
  py_index (seq t) (Edge.first_obj_index edge + (Suffix.length suffix + 1))
  = Ok c' →
  _split_edge t edge suffix
  = Ok (split_result t edge suffix c c', py_len (nodes t)).
Proof.
  intros Hc Hold Hc'. unfold _split_edge.
  rewrite (remove_edge_eq _ _ c) by done. simpl.
  rewrite (insert_edge_eq _ _ c) by done. simpl.
  rewrite py_len_app_one.
  replace (py_len (nodes t) + 1 - 1) with (py_len (nodes t)) by lia.
  unfold set_suffix_node. simpl. rewrite py_index_last. simpl.
  rewrite (insert_edge_eq _ _ c') by done. simpl.
  rewrite py_len_app_one, py_norm_nonneg by (unfold py_len; lia).
  rewrite insert_last. reflexivity.
Qed.

Lemma split_edge_Ok t edge suffix t' n :
  _split_edge t edge suffix = Ok (t', n) →
  ∃ c c',
    py_index (seq t) (Edge.first_obj_index edge) = Ok c ∧
    is_Some (edges t !! (Edge.source_node_index edge, c)) ∧
    py_index (seq t) (Edge.first_obj_index edge + (Suffix.length suffix + 1))
    = Ok c' ∧
    n = py_len (nodes t) ∧ t' = split_result t edge suffix c c'.
Proof.
  intros Hs. pose proof Hs as Hs'. unfold _split_edge in Hs'.
  apply bind_Ok in Hs' as (t1 & H1 & Hs').
  apply bind_Ok in Hs' as (t2 & H2 & Hs').
  apply bind_Ok in Hs' as (t3 & H3 & Hs').
  apply bind_Ok in Hs' as (t4 & H4 & _).
  apply remove_edge_Ok in H1 as (c & Hc & Hin & ->). simpl in Hc, Hin.
  apply insert_edge_Ok in H2 as (c0 & _ & ->).
  apply set_suffix_node_Ok in H3 as [_ ->].
  apply insert_edge_Ok in H4 as (c' & Hc' & _). simpl in Hc'.
  exists c, c'. rewrite (split_edge_eq t edge suffix c c') in Hs by done.
  injection Hs as <- <-. done.
Qed.

Lemma py_slice_range {T : Type} (l : list T) (a b : Z) :
  0 ≤ a ≤ b → b ≤ py_len l →
  py_slice l a b = take (Z.to_nat (b - a)) (drop (Z.to_nat a) l).
Proof.
  intros Ha Hb. unfold py_slice, py_clamp, py_len in *.
  destruct (Z.ltb_spec a 0); [lia|]. destruct (Z.ltb_spec b 0); [lia|].
  by rewrite !Z.min_l by lia.
Qed.

Lemma keyed_lookup t key e :
  keyed t → edges t !! key = Some e →
  key.1 = Edge.source_node_index e ∧
  py_index (seq t) (Edge.first_obj_index e) = Ok key.2.
Proof. intros Hk He. exact (Hk key e He). Qed.

Lemma fresh_node_no_edge t (c : A) :
  keyed t → sources_valid t → edges t !! (py_len (nodes t), c) = None.
Proof.
  intros Hk Hv. destruct (edges t !! (py_len (nodes t), c)) as [e|] eqn:He;
    [|done].
  pose proof (Hk _ _ He) as [Hsrc _]. pose proof (Hv _ _ He) as Hlt.
  simpl in *. lia.
Qed.

(** C5, as amended: [_insert_edge] makes no collision check. Inserting an
    edge whose key is already in the table returns normally and replaces
    the entry under that key; every other entry, the size of the table and
    the registry are as before. *)
Theorem insert_edge_overwrites t e c old :
  py_index (seq t) (Edge.first_obj_index e) = Ok c →
  edges t !! (Edge.source_node_index e, c) = Some old →
  ∃ t', _insert_edge t e = Ok t' ∧
        edges t' !! (Edge.source_node_index e, c) = Some e ∧
        (∀ key, key ≠ (Edge.source_node_index e, c) →
                edges t' !! key = edges t !! key) ∧
        size (edges t') = size (edges t) ∧
        nodes t' = nodes t ∧ active t' = active t.
Proof.
  intros Hc Hold. eexists. split; [by apply insert_edge_eq|]. simpl.
  split; [apply lookup_insert_eq|].
  split; [intros key Hkey; by apply lookup_insert_ne|].
  split; [by apply map_size_insert_Some|done].
Qed.

(** C6: [_split_edge] applied to an edge [edge] of the table and to the
    active point [suffix] that selected it, with match length [k] inside
    the edge, returns the handle of one new node, appended to the registry
    and internal; the entry of [edge] is replaced by an edge from the
    source of [edge] to the new node, standing for the first [k+1] symbols
    of the label, and an edge from the new node to the destination of
    [edge], standing for the rest; nothing else in the table changes.
    The old entry is removed first, each of the two insertions finds its
    key free, and every intermediate table keeps each entry under the key
    of its edge. *)
Theorem split_edge_replaces t edge suffix c :
  let k := Suffix.length suffix in
  let new := py_len (nodes t) in
  let upper := Edge.mk (Edge.first_obj_index edge)
                       (Edge.first_obj_index edge + k)
                       (Edge.source_node_index edge) new in
  let lower := Edge.mk (Edge.first_obj_index edge + (k + 1))
                       (Edge.last_obj_index edge) new
                       (Edge.dest_node_index edge) in
  let key := (Edge.source_node_index edge, c) in
  nodes t ≠ [] → keyed t → sources_valid t →
  py_index (seq t) (Edge.first_obj_index edge) = Ok c →
  edges t !! key = Some edge →
  Suffix.source_node_index suffix = Edge.source_node_index edge →
  0 ≤ Edge.first_obj_index edge →
  Edge.last_obj_index edge < py_len (seq t) →
  0 ≤ k < Edge.length edge →
  ∃ c' t1 t2 t',
    _split_edge t edge suffix = Ok (t', new) ∧
    nodes t' = nodes t ++ [Node.mk (Edge.source_node_index edge)] ∧
    internal t' new ∧
    edges t' = <[(new, c') := lower]> (<[key := upper]> (delete key (edges t))) ∧
    edges t' !! key = Some upper ∧
    edges t' !! (new, c') = Some lower ∧
    (∀ key', key' ≠ key → key' ≠ (new, c') →
             edges t' !! key' = edges t !! key') ∧
    size (edges t') = S (size (edges t)) ∧
    label t' upper = take (Z.to_nat (k + 1)) (label t edge) ∧
    length (label t' upper) = Z.to_nat (k + 1) ∧
    label t' lower = drop (Z.to_nat (k + 1)) (label t edge) ∧
    _remove_edge (append_node t) edge = Ok t1 ∧
    edges t1 !! key = None ∧ keyed t1 ∧
    _insert_edge t1 upper = Ok t2 ∧
    edges t2 !! (new, c') = None ∧ keyed t2 ∧
    keyed t'.
Proof.
  intros k new upper lower key Hne Hk Hv Hc Hin Hsrc Hfirst Hlast Hlen.
  unfold Edge.length in Hlen.
  destruct (py_index_lt (seq t) (Edge.first_obj_index edge + (k + 1)))
    as (c' & Hc' & _); [lia|].
  assert (0 < new) as Hnew.
  { unfold new, py_len. destruct (nodes t); [done|]. simpl. lia. }
  assert (Edge.source_node_index edge < new) as Hlt by exact (Hv _ _ Hin).
  assert (key ≠ (new, c')) as Hkey by (unfold key; intros [=]; lia).
  assert (edges t !! (new, c') = None) as Hfresh
    by by apply fresh_node_no_edge.
  set (t1 := set_edges (append_node t) (delete key (edges t))).
  set (t2 := set_edges t1 (<[key := upper]> (edges t1))).
  exists c', t1, t2, (split_result t edge suffix c c').
  assert (keyed t1) as Hk1 by (by apply map_Forall_delete).
  assert (keyed t2) as Hk2.
  { apply map_Forall_insert_2; [by split|exact Hk1]. }
  assert (edges (split_result t edge suffix c c')
          = <[(new, c') := lower]> (<[key := upper]> (delete key (edges t))))
    as Hedges.
  { unfold split_result. simpl. fold k new. rewrite Hsrc. done. }
  split; [by apply split_edge_eq|].
  split; [unfold split_result; simpl; by rewrite Hsrc|].
  split.
  { split; [lia|]. exists (new, c'), lower. rewrite Hedges.
    by rewrite lookup_insert_eq. }
  split; [exact Hedges|]. rewrite Hedges.
  split; [by rewrite lookup_insert_ne, lookup_insert_eq|].
  split; [by rewrite lookup_insert_eq|].
  split.
  { intros key' H1 H2.
    by rewrite lookup_insert_ne, lookup_insert_ne, lookup_delete_ne. }
  split.
  { rewrite map_size_insert_None.
    2:{ by rewrite lookup_insert_ne, lookup_delete_ne. }
    rewrite map_size_insert_None by apply lookup_delete_eq.
    rewrite map_size_delete_Some by done.
    assert (size (edges t) ≠ 0%nat); [|lia].
    apply map_size_non_empty_iff. intros Hem. by rewrite Hem in Hin. }
  assert (label t edge
          = take (Z.to_nat (Edge.last_obj_index edge + 1
                            - Edge.first_obj_index edge))
                 (drop (Z.to_nat (Edge.first_obj_index edge)) (seq t)))
    as Hlab by (unfold label; apply py_slice_range; lia).
  assert (label (split_result t edge suffix c c') upper
          = take (Z.to_nat (k + 1))
                 (drop (Z.to_nat (Edge.first_obj_index edge)) (seq t)))
    as Hup.
  { unfold label. simpl. rewrite py_slice_range by lia. f_equal. lia. }
  split.
  { rewrite Hup, Hlab, take_take. f_equal. lia. }
  split.
  { rewrite Hup, length_take, length_drop. unfold py_len in Hlast. lia. }
  split.
  { unfold label at 1. simpl. rewrite py_slice_range by lia. rewrite Hlab.
    replace (Z.to_nat (Edge.last_obj_index edge + 1
                       - Edge.first_obj_index edge))
      with (Z.to_nat (k + 1)
            + Z.to_nat (Edge.last_obj_index edge + 1
                        - (Edge.first_obj_index edge + (k + 1))))%nat by lia.
    rewrite <- take_drop_commute, drop_drop. do 2 f_equal. lia. }
  split; [by apply (remove_edge_eq (append_node t) edge c); [|exists edge]|].
  split; [apply lookup_delete_eq|]. split; [exact Hk1|].
  split; [by apply (insert_edge_eq t1 upper c)|].
  split; [simpl; by rewrite lookup_insert_ne, lookup_delete_ne|].
  split; [exact Hk2|].
  apply map_Forall_insert_2; [by split|].
  unfold split_result; simpl. fold k new. rewrite Hsrc. exact Hk2.
Qed.
End Table.

(** C5, on the tree of "a", whose table holds one edge from the root under
    the symbol "a": a second edge with that key takes its place. *)
Lemma insert_edge_overwrites_witness :
  ∃ t', _insert_edge (tree_of "a") (Edge.mk 0 0 0 5) = Ok t' ∧
        edges t' !! (0, "a"%char) = Some (Edge.mk 0 0 0 5) ∧
        (∀ key, key ≠ (0, "a"%char) →
                edges t' !! key = edges (tree_of "a") !! key) ∧
        size (edges t') = size (edges (tree_of "a")) ∧
        nodes t' = nodes (tree_of "a") ∧ active t' = active (tree_of "a").
Proof.
  apply (insert_edge_overwrites (tree_of "a") (Edge.mk 0 0 0 5) "a"%char
           (Edge.mk 0 0 0 1)); vm_compute; reflexivity.
Defined.

(** C5 as stated fails: the key [(0, "a")] is in the table of the tree of
    "a", and inserting another edge with that key does not fail but returns
    a table in which the old entry is gone. *)
Lemma insert_edge_collision_not_rejected :
  let t := tree_of "a" in
  let e := Edge.mk 0 0 0 5 in
  edges t !! (0, "a"%char) = Some (Edge.mk 0 0 0 1) ∧
  py_index (seq t) (Edge.first_obj_index e) = Ok "a"%char ∧
  ¬ (∃ x, _insert_edge t e = Raise x) ∧
  ∃ t', _insert_edge t e = Ok t' ∧ edges t' !! (0, "a"%char) = Some e.
Proof.
  split; [vm_compute; reflexivity|]. split; [vm_compute; reflexivity|].
  split.
  - intros [x Hx]. vm_compute in Hx. discriminate.
  - eexists. split; vm_compute; reflexivity.
Qed.

(** C6, on the tree of "abcabx" after five phases: the active point is
    [(0, 3, 4)], two symbols into the edge [0..5] that leaves the root under
    "a", and match length [k = 1]. *)
Lemma split_edge_replaces_witness :
  let t := tree_after "abcabx" 5 in
  let edge := Edge.mk 0 5 0 1 in
  active t = Suffix.mk 0 3 4 ∧
  ∃ c' t1 t2 t',
    _split_edge t edge (active t) = Ok (t', 4) ∧
    nodes t' = nodes t ++ [Node.mk 0] ∧
    internal t' 4 ∧
    edges t' = <[(4, c') := Edge.mk 2 5 4 1]>
                 (<[(0, "a"%char) := Edge.mk 0 1 0 4]>
                    (delete (0, "a"%char) (edges t))) ∧
    edges t' !! (0, "a"%char) = Some (Edge.mk 0 1 0 4) ∧
    edges t' !! (4, c') = Some (Edge.mk 2 5 4 1) ∧
    (∀ key', key' ≠ (0, "a"%char) → key' ≠ (4, c') →
             edges t' !! key' = edges t !! key') ∧
    size (edges t') = S (size (edges t)) ∧
    label t' (Edge.mk 0 1 0 4) = take 2 (label t edge) ∧
    length (label t' (Edge.mk 0 1 0 4)) = 2%nat ∧
    label t' (Edge.mk 2 5 4 1) = drop 2 (label t edge) ∧
    _remove_edge (append_node t) edge = Ok t1 ∧
    edges t1 !! (0, "a"%char) = None ∧ keyed t1 ∧
    _insert_edge t1 (Edge.mk 0 1 0 4) = Ok t2 ∧
    edges t2 !! (4, c') = None ∧ keyed t2 ∧
    keyed t'.
Proof.
  split; [vm_compute; reflexivity|].
  apply (split_edge_replaces (tree_after "abcabx" 5) (Edge.mk 0 5 0 1)
           (Suffix.mk 0 3 4) "a"%char).
  - vm_compute. discriminate.
  - apply (bool_decide_unpack _). vm_compute. exact I.
  - apply (bool_decide_unpack _). vm_compute. exact I.
  - vm_compute. reflexivity.
  - vm_compute. reflexivity.
  - reflexivity.
  - vm_compute. discriminate.
  - vm_compute. reflexivity.
  - vm_compute. split; [discriminate|reflexivity].
Defined.

(** ** The invariant of the table and the registry under each update *)

Section Structure.
Context {A : Type} `{Countable A}.
Implicit Types (t : @tree A _ _) (d : Z → Z) (e edge : Edge.t) (n v J : Z).

Lemma suffix_link_valid t n :
  0 ≤ n → suffix_link t n ≠ -1 → n < py_len (nodes t).
Proof.
  intros Hn Hl. unfold suffix_link in Hl.
  destruct (nodes t !! Z.to_nat n) eqn:E; [|done].
  apply lookup_lt_Some in E. unfold py_len. lia.
Qed.

Lemma is_branch_root t : 1 ≤ py_len (nodes t) → is_branch t 0.
Proof. intros Hn. split; [lia|by left]. Qed.

Lemma is_branch_nonneg t n : is_branch t n → 0 ≤ n.
Proof. by intros [[? _] _]. Qed.

Lemma is_branch_link t n : is_branch t n → n ≠ 0 → suffix_link t n ≠ -1.
Proof. intros [_ [?|?]]; done. Qed.

Lemma suffix_link_append t v n :
  0 ≤ n →
  suffix_link (set_nodes t (nodes t ++ [Node.mk v])) n
  = if decide (n = py_len (nodes t)) then v else suffix_link t n.
Proof.
  intros Hn0. unfold suffix_link. simpl. unfold py_len.
  case_decide as Hn.
  - subst n. rewrite Nat2Z.id. by rewrite list_lookup_middle.
  - destruct (decide (Z.to_nat n < length (nodes t))%nat) as [Hlt|Hge].
    + by rewrite lookup_app_l.
    + rewrite (lookup_ge_None_2 (nodes t)) by lia.
      rewrite lookup_ge_None_2; [done|]. rewrite length_app. simpl.
      assert (Z.to_nat n ≠ length (nodes t)) by lia. lia.
Qed.

Lemma is_branch_append t v n :
  is_branch t n → is_branch (set_nodes t (nodes t ++ [Node.mk v])) n.
Proof.
  intros [Hn Hl]. split.
  - simpl. rewrite py_len_app_one. lia.
  - destruct Hl as [?|Hl]; [by left|right].
    rewrite suffix_link_append by lia. by rewrite decide_False by lia.
Qed.

Lemma is_branch_append_inv t n :
  1 ≤ py_len (nodes t) →
  is_branch (set_nodes t (nodes t ++ [Node.new])) n → is_branch t n.
Proof.
  intros Hlen [Hn Hl]. simpl in Hn. rewrite py_len_app_one in Hn.
  destruct Hl as [->|Hl]; [by apply is_branch_root|].
  change Node.new with (Node.mk (-1)) in Hl.
  rewrite suffix_link_append in Hl by lia. case_decide; [done|].
  split; [lia|by right].
Qed.

Lemma suffix_link_insert t n m v :
  0 ≤ n < py_len (nodes t) → 0 ≤ m →
  suffix_link (set_nodes t (<[Z.to_nat n := Node.mk v]> (nodes t))) m
  = if decide (m = n) then v else suffix_link t m.
Proof.
  intros Hn Hm. unfold suffix_link, py_len in *. simpl. case_decide.
  - subst m. by rewrite list_lookup_insert_eq by lia.
  - by rewrite list_lookup_insert_ne by lia.
Qed.

Lemma is_branch_insert t n v m :
  0 ≤ n < py_len (nodes t) → v ≠ -1 →
  is_branch t m → is_branch (set_nodes t (<[Z.to_nat n := Node.mk v]> (nodes t))) m.
Proof.
  intros Hn Hv [Hm Hl]. split.
  - simpl. unfold py_len in *. by rewrite length_insert.
  - destruct Hl as [?|Hl]; [by left|right].
    rewrite suffix_link_insert by lia. by case_decide.
Qed.

Lemma is_branch_insert_inv t n v m :
  0 ≤ n < py_len (nodes t) →
  is_branch (set_nodes t (<[Z.to_nat n := Node.mk v]> (nodes t))) m →
  m = n ∨ is_branch t m.
Proof.
  intros Hn [Hm Hl]. simpl in Hm. unfold py_len in Hm.
  rewrite length_insert in Hm.
  destruct (decide (m = n)) as [?|Hne]; [by left|right].
  split; [done|]. destruct Hl as [?|Hl]; [by left|right].
  rewrite suffix_link_insert in Hl by lia. by rewrite decide_False in Hl.
Qed.

(** Edges stay well formed when the registry only grows. *)
Lemma edge_ok_mono d J J' t t' (key : Z * A) e :
  seq t' = seq t → N t' = N t → py_len (nodes t) ≤ py_len (nodes t') →
  (∀ n, is_branch t n → is_branch t' n) → J ≤ J' →
  edge_ok d J t key e → edge_ok d J' t' key e.
Proof.
  intros Hseq HN Hlen Hbr HJ [].
  constructor; rewrite ?Hseq, ?HN; try done; try lia.
  - by apply Hbr.
  - destruct eo_leaf0 as [?|?]; [by left|right; by apply Hbr].
Qed.

Lemma tree_inv_set_active d J t a : tree_inv d J t → tree_inv d J (set_active t a).
Proof.
  intros []. constructor; try done.
  intros key e He. eapply edge_ok_mono; [..|by apply ti_edges0]; done.
Qed.

Lemma tree_inv_mono d J J' t : J ≤ J' → tree_inv d J t → tree_inv d J' t.
Proof.
  intros HJ []. constructor; try done.
  intros key e He. eapply edge_ok_mono; [..|by apply ti_edges0]; done.
Qed.

(** Only the depth of the nodes of the registry matters. *)
Lemma tree_inv_depth_ext d d' J t :
  (∀ n, 0 ≤ n < py_len (nodes t) → d' n = d n) →
  tree_inv d J t → tree_inv d' J t.
Proof.
  intros Hd []. constructor; try done.
  - rewrite Hd by lia. done.
  - intros key e He. destruct (ti_edges0 key e He).
    pose proof eo_branch0 as [? _].
    constructor; try done; rewrite !Hd by lia; done.
  - intros n Hn Hl. destruct (ti_links0 n Hn Hl) as [[Hv Hb] Hlt].
    pose proof (suffix_link_valid t n ltac:(lia) Hl).
    split; [done|]. rewrite !Hd by lia. done.
  - intros n Hb. pose proof Hb as [? _]. rewrite Hd by done. by apply ti_depth0.
Qed.

Lemma tree_inv_append d J t v :
  tree_inv d J t →
  (v ≠ -1 → is_branch t v ∧ d v < d (py_len (nodes t))) →
  tree_inv d J (set_nodes t (nodes t ++ [Node.mk v])).
Proof.
  intros [] Hv. constructor; try done.
  - simpl. rewrite py_len_app_one. lia.
  - intros key e He. eapply edge_ok_mono; [..|by apply ti_edges0]; try done.
    + simpl. rewrite py_len_app_one. lia.
    + intros n. apply is_branch_append.
  - intros n Hn. rewrite suffix_link_append by lia. case_decide as Hnew.
    + intros Hv'. destruct (Hv Hv') as [Hb Hlt]. subst n.
      split; [by apply is_branch_append|done].
    + intros Hl.
      destruct (ti_links0 n Hn Hl). split; [by apply is_branch_append|done].
  - intros n [Hn Hl]. simpl in Hn. rewrite py_len_app_one in Hn.
    destruct Hl as [->|Hl]; [lia|].
    rewrite suffix_link_append in Hl by lia. case_decide as Hnew.
    + subst n. destruct (Hv Hl) as [Hb Hlt]. apply ti_depth0 in Hb. lia.
    + apply ti_depth0. split; [lia|by right].
Qed.

Lemma tree_inv_insert d J t (key : Z * A) e :
  tree_inv d J t → edge_ok d J t key e →
  tree_inv d J (set_edges t (<[key := e]> (edges t))).
Proof.
  intros [] He. constructor; try done.
  intros key' e'. simpl. rewrite lookup_insert. case_decide.
  - intros [= <-]. subst key'. eapply edge_ok_mono; [..|exact He]; done.
  - intros He'. eapply edge_ok_mono; [..|by apply ti_edges0]; done.
Qed.

Lemma tree_inv_delete d J t (key : Z * A) :
  tree_inv d J t → tree_inv d J (set_edges t (delete key (edges t))).
Proof.
  intros []. constructor; try done.
  intros key' e'. simpl. intros He'%lookup_delete_Some.
  eapply edge_ok_mono; [..|by apply ti_edges0; apply He']; done.
Qed.

Lemma tree_inv_link d J t n v :
  tree_inv d J t → 0 < n < py_len (nodes t) → is_branch t v → d v < d n →
  tree_inv d J (set_nodes t (<[Z.to_nat n := Node.mk v]> (nodes t))).
Proof.
  intros [] Hn Hv Hlt.
  assert (v ≠ -1) as Hv1 by (apply is_branch_nonneg in Hv; lia).
  assert (∀ m, is_branch t m →
               is_branch (set_nodes t (<[Z.to_nat n := Node.mk v]> (nodes t))) m)
    as Hbr by (intros m; apply is_branch_insert; [lia|done]).
  constructor; try done.
  - simpl. unfold py_len in *. by rewrite length_insert.
  - intros key e He. eapply edge_ok_mono; [..|by apply ti_edges0]; try done.
    simpl. unfold py_len. by rewrite length_insert.
  - intros m Hm. rewrite suffix_link_insert by lia. case_decide.
    + subst m. intros _. split; [by apply Hbr|done].
    + intros Hl. destruct (ti_links0 m Hm Hl). split; [by apply Hbr|done].
  - intros m Hm. apply is_branch_insert_inv in Hm as [->|Hm];
      [|by apply ti_depth0|lia].
    apply ti_depth0 in Hv. lia.
Qed.
End Structure.

(** ** Canonization *)

Section Canonize.
Context {A : Type} `{Countable A}.
Implicit Types (t : @tree A _ _) (d : Z → Z) (e edge : Edge.t) (n v J : Z).

Lemma explicit_true (s : Suffix.t) :
  Suffix.explicit s = true ↔ Suffix.last_obj_index s < Suffix.first_obj_index s.
Proof. unfold Suffix.explicit. apply Z.ltb_lt. Qed.

Lemma explicit_false (s : Suffix.t) :
  Suffix.explicit s = false ↔ Suffix.first_obj_index s ≤ Suffix.last_obj_index s.
Proof. unfold Suffix.explicit. rewrite Z.ltb_ge. done. Qed.

(** An edge that ends at the end of the sequence is longer than the window
    of the active point that selects it: its label starts before the
    window does. *)
Lemma leaf_edge_longer d J t c e :
  active_inv d J t →
  edges t !! (Suffix.source_node_index (active t), c) = Some e →
  Edge.last_obj_index e = N t →
  Suffix.length (active t) < Edge.length e.
Proof.
  intros [Ht HJ Hsrc Hlast] He HN.
  destruct (ti_edges _ _ _ Ht _ _ He) as [Hs _ _ _ _ _ _ _ _ Hhead].
  simpl in Hs. rewrite <- Hs in Hhead. unfold start in HJ.
  unfold Suffix.length, Edge.length. lia.
Qed.

Lemma canonize_spec d J fuel t t' :
  active_inv d J t → _canonize_suffix fuel t = Ok t' →
  active_inv d J t' ∧ canonical t' ∧
  nodes t' = nodes t ∧ edges t' = edges t ∧ seq t' = seq t ∧
  Suffix.last_obj_index (active t') = Suffix.last_obj_index (active t) ∧
  (Suffix.explicit (active t) = true → active t' = active t) ∧
  Suffix.first_obj_index (active t) ≤ Suffix.first_obj_index (active t') ∧
  (Suffix.explicit (active t) = false →
   Suffix.first_obj_index (active t') ≤ Suffix.last_obj_index (active t) + 1).
Proof.
  revert t. induction fuel as [|fuel IH]; intros t Hinv; simpl; [done|].
  destruct (Suffix.explicit (active t)) eqn:Hex; simpl.
  { intros [= <-]. split; [done|]. split; [by left|].
    repeat split; try done; lia. }
  intros Hc. apply bind_Ok in Hc as (c & Hsym & Hc).
  apply bind_Ok in Hc as (e & He%edge_at_Ok & Hc).
  apply explicit_false in Hex.
  destruct (Z.leb_spec (Edge.length e) (Suffix.length (active t))) as [Hle|Hgt].
  - pose proof Hinv as [Ht HJ Hsrc Hlast].
    destruct (ti_edges _ _ _ Ht _ _ He)
      as [Hs _ _ Hspan _ _ Hdest Hdepth Hleaf _].
    simpl in Hs.
    destruct Hleaf as [HN|Hbr].
    { pose proof (leaf_edge_longer _ _ _ _ _ Hinv He HN). lia. }
    unfold Suffix.length, Edge.length in *.
    apply IH in Hc as (Hinv' & Hcan & Hn & Hed & Hseq & Hl & Hsame & Hf & Hb).
    + simpl in *. split; [done|]. split; [done|].
      repeat split; try done; try lia.
      intros _. destruct (Suffix.explicit
        (Suffix.mk (Edge.dest_node_index e)
           (Suffix.first_obj_index (active t)
            + (Edge.last_obj_index e - Edge.first_obj_index e + 1))
           (Suffix.last_obj_index (active t)))) eqn:Hex'.
      * rewrite Hsame by done. simpl. lia.
      * by apply Hb.
    + constructor.
      * by apply tree_inv_set_active.
      * unfold start in *. simpl. rewrite Hdepth, <- Hs.
        unfold Edge.length. lia.
      * exact Hbr.
      * exact Hlast.
  - injection Hc as <-. split; [done|]. split; [right; by exists c, e|].
    repeat split; try done; lia.
Qed.
End Canonize.

(** ** One round of the loop of [_add_prefix] *)

Section Extension.
Context {A : Type} `{Countable A}.
Implicit Types (t : @tree A _ _) (d : Z → Z) (e edge : Edge.t) (n v J : Z).

Lemma map_size_insert_le (m : gmap (Z * A) Edge.t) key e :
  (size (<[key := e]> m) ≤ S (size m))%nat.
Proof. rewrite map_size_insert. destruct (m !! key); simpl; lia. Qed.

Lemma count_inv_set_active J k i t a :
  count_inv J k i t → count_inv J k i (set_active t a).
Proof. intros []. by constructor. Qed.

Lemma head_inv_depth_src d i lpn t :
  head_inv d i lpn t → 0 ≤ d (Suffix.source_node_index (active t)).
Proof.
  intros Hh. destruct (hi_active _ _ _ _ Hh) as [Ht _ Hsrc _].
  by apply (ti_depth _ _ _ Ht).
Qed.

(** The tree after [_split_edge], for the depth that gives the new node the
    depth of the active point. *)
Lemma split_tree_inv d J t e c c' :
  let s := Suffix.source_node_index (active t) in
  let k := Suffix.length (active t) in
  let new := py_len (nodes t) in
  let d' := λ n, if decide (n = new) then d s + k + 1 else d n in
  tree_inv d J t → is_branch t s →
  edges t !! (s, c) = Some e → 0 ≤ k < Edge.length e →
  py_index (seq t) (Edge.first_obj_index e + (k + 1)) = Ok c' →
  tree_inv d' J (split_result t e (active t) c c') ∧
  is_branch (split_result t e (active t) c c') new.
Proof.
  intros s k new d' Ht Hs He Hk Hc'.
  destruct (ti_edges _ _ _ Ht _ _ He)
    as [Hsrc Hsym Hfirst Hspan Hlast Hbr Hdest Hdepth Hleaf Hhead].
  simpl in Hsrc, Hsym. unfold Edge.length in Hk, Hdepth.
  pose proof Hs as [Hsv _].
  assert (∀ n, 0 ≤ n < py_len (nodes t) → d' n = d n) as Hd'.
  { intros n Hn. unfold d'. rewrite decide_False; [done|]. unfold new. lia. }
  assert (d' new = d s + k + 1) as Hdnew by (unfold d'; by rewrite decide_True).
  set (ta := set_nodes t (nodes t ++ [Node.mk s])).
  assert (tree_inv d' J ta) as Hta.
  { apply tree_inv_append; [by apply (tree_inv_depth_ext d)|].
    intros _. split; [done|]. fold new. rewrite Hdnew, Hd' by done. lia. }
  assert (is_branch ta new) as Hnew.
  { split; [simpl; rewrite py_len_app_one; unfold new, py_len; lia|right].
    unfold ta. rewrite suffix_link_append by (unfold new, py_len; lia).
    rewrite decide_True by done. lia. }
  assert (∀ n, is_branch t n → is_branch ta n) as Hmono
    by (intros n; apply is_branch_append).
  assert (py_len (nodes ta) = new + 1) as Hlen
    by (simpl; by rewrite py_len_app_one).
  split; [|exact Hnew].
  change (split_result t e (active t) c c') with
    (set_edges
       (set_edges (set_edges ta (delete (Edge.source_node_index e, c) (edges ta)))
          (<[(s, c) := Edge.mk (Edge.first_obj_index e)
                         (Edge.first_obj_index e + k) s new]>
             (delete (Edge.source_node_index e, c) (edges ta))))
       (<[(new, c') := Edge.mk (Edge.first_obj_index e + (k + 1))
                         (Edge.last_obj_index e) new (Edge.dest_node_index e)]>
          (<[(s, c) := Edge.mk (Edge.first_obj_index e)
                         (Edge.first_obj_index e + k) s new]>
             (delete (Edge.source_node_index e, c) (edges ta))))).
  apply (tree_inv_insert d' J
           (set_edges (set_edges ta _) _)).
  - apply (tree_inv_insert d' J (set_edges ta _)).
    + by apply tree_inv_delete.
    + pose proof (ti_nodes _ _ _ Ht) as Hn1. fold new in Hn1.
      constructor; simpl; rewrite ?py_len_app_one; fold new; try done; try lia.
      * exact (Hmono _ Hs).
      * rewrite Hdnew, Hd' by done. unfold Edge.length. simpl. lia.
      * right. exact Hnew.
      * rewrite Hd' by done. rewrite Hsrc. exact Hhead.
  - pose proof (ti_nodes _ _ _ Ht) as Hn1. fold new in Hn1.
    rewrite <- Hsrc in Hhead, Hdepth.
    constructor; simpl; rewrite ?py_len_app_one; fold new; try done; try lia.
    + rewrite Hdnew, (Hd' (Edge.dest_node_index e)) by (fold new; lia).
      rewrite Hdepth. unfold Edge.length. simpl. lia.
    + destruct Hleaf as [?|Hb]; [by left|right; exact (Hmono _ Hb)].
Qed.

Lemma py_index_inj {T : Type} (l : list T) (k : Z) (x y : T) :
  py_index l k = Ok x → py_index l k = Ok y → x = y.
Proof. congruence. Qed.

Lemma test_continue d i lpn t t1 p :
  head_inv d i lpn t → canonical t →
  _add_prefix_test t i = Ok (Some (t1, p)) →
  ∃ d', (∀ n, 0 ≤ n < py_len (nodes t) → d' n = d n) ∧
        test_post d' (start d t) i t t1 p.
Proof.
  intros Hh Hcan Htest. pose proof (head_inv_depth_src _ _ _ _ Hh) as Hds.
  destruct Hh as [[Ht _ Hsrc Hlast] Hi Hl Hf Hlpn Hcount].
  unfold _add_prefix_test in Htest.
  destruct (Suffix.explicit (active t)) eqn:Hex.
  - apply explicit_true in Hex.
    apply bind_Ok in Htest as (c & Hc & Htest).
    case_decide as Hin; [done|]. injection Htest as <- <-.
    assert (Suffix.first_obj_index (active t) = i) as Hfi.
    { destruct Hf as [?|(_ & Hs0 & _ & c' & Hc' & Hin')]; [lia|].
      rewrite Hs0 in Hin. rewrite (py_index_inj _ _ _ _ Hc Hc') in Hin. done. }
    exists d. split; [done|].
    constructor; try done; try lia.
    + unfold start. lia.
    + by destruct Hcount.
  - apply explicit_false in Hex.
    apply bind_Ok in Htest as (c & Hc & Htest).
    apply bind_Ok in Htest as (e & He%edge_at_Ok & Htest).
    apply bind_Ok in Htest as (c1 & Hc1 & Htest).
    apply bind_Ok in Htest as (c2 & Hc2 & Htest).
    case_decide as Hne; [done|].
    apply bind_Ok in Htest as ([t1' p'] & Hsplit & [= -> ->]).
    destruct Hcan as [Hcan|(c' & e' & Hc' & He' & Hlt)].
    { apply explicit_true in Hcan. lia. }
    rewrite <- (py_index_inj _ _ _ _ Hc Hc') in He'.
    assert (e' = e) as -> by congruence.
    apply split_edge_Ok in Hsplit as (c0 & c'' & Hc0 & Hin & Hc'' & -> & ->).
    destruct (ti_edges _ _ _ Ht _ _ He) as [Hes Hesym _ _ _ _ _ _ _ _].
    simpl in Hes, Hesym.
    rewrite (py_index_inj _ _ _ _ Hc0 Hesym) in *. clear Hc0.
    destruct (split_tree_inv d (start d t) t e c c'') as [Ht1 Hnew];
      try done.
    { unfold Suffix.length, Edge.length in *. lia. }
    eexists. split; [|constructor; [exact Ht1|..]]; try done.
    + intros n Hn. simpl. by rewrite decide_False by lia.
    + intros n. apply is_branch_append.
    + simpl. rewrite decide_True by done. unfold start, Suffix.length. lia.
    + lia.
    + simpl. rewrite py_len_app_one. lia.
    + intros Hex'%explicit_true. lia.
    + simpl. rewrite py_len_app_one.
      pose proof (map_size_insert_le
        (<[(Suffix.source_node_index (active t), c) :=
             Edge.mk (Edge.first_obj_index e)
               (Edge.first_obj_index e + Suffix.length (active t))
               (Suffix.source_node_index (active t)) (py_len (nodes t))]>
           (delete (Edge.source_node_index e, c) (edges t)))
        (py_len (nodes t), c'')
        (Edge.mk (Edge.first_obj_index e + (Suffix.length (active t) + 1))
           (Edge.last_obj_index e) (py_len (nodes t))
           (Edge.dest_node_index e))) as H1.
      pose proof (map_size_insert_le
        (delete (Edge.source_node_index e, c) (edges t))
        (Suffix.source_node_index (active t), c)
        (Edge.mk (Edge.first_obj_index e)
               (Edge.first_obj_index e + Suffix.length (active t))
               (Suffix.source_node_index (active t)) (py_len (nodes t)))) as H2.
      rewrite map_size_delete_Some in H2 by done.
      assert (size (edges t) ≠ 0%nat) as H3.
      { apply map_size_non_empty_iff. intros Hem. by rewrite Hem in He. }
      destruct Hcount. lia.
Qed.

(** The tree after the new leaf has been appended and its edge inserted. *)
Lemma leaf_tree_inv d J t i p c :
  let new := py_len (nodes t) in
  let d' := λ n, if decide (n = new) then d p + (N t - i) + 1 else d n in
  tree_inv d J t → is_branch t p → d p = i - J → 0 ≤ i ≤ N t →
  py_index (seq t) i = Ok c →
  tree_inv d' (J + 1)
    (set_edges (append_node t) (<[(p, c) := Edge.mk i (N t) p new]> (edges t))).
Proof.
  intros new d' Ht Hp Hdp Hi Hc.
  pose proof (ti_nodes _ _ _ Ht) as Hn1. fold new in Hn1.
  pose proof Hp as [Hpv _]. fold new in Hpv.
  assert (∀ n, 0 ≤ n < py_len (nodes t) → d' n = d n) as Hd'.
  { intros n Hn. unfold d'. rewrite decide_False; [done|]. unfold new. lia. }
  assert (d' new = d p + (N t - i) + 1) as Hdnew
    by (unfold d'; by rewrite decide_True).
  assert (tree_inv d' (J + 1) (append_node t)) as Hta.
  { apply (tree_inv_mono d' J); [lia|]. apply (tree_inv_append d' J t (-1)).
    - by apply (tree_inv_depth_ext d).
    - done. }
  apply (tree_inv_insert d' (J + 1) (append_node t)); [exact Hta|].
  constructor; simpl; rewrite ?py_len_app_one; fold new; try done; try lia.
  - apply (is_branch_append t (-1)). exact Hp.
  - rewrite Hdnew, Hd' by done. unfold Edge.length. simpl. lia.
  - rewrite Hd' by done. lia.
Qed.

Lemma link_last_parent_inv d J t lpn p t' :
  tree_inv d J t →
  (0 < lpn → lpn < py_len (nodes t) ∧ is_branch t p ∧ d p < d lpn) →
  link_last_parent t lpn p = Ok t' →
  tree_inv d J t' ∧ edges t' = edges t ∧ active t' = active t ∧
  seq t' = seq t ∧ N t' = N t ∧ py_len (nodes t') = py_len (nodes t) ∧
  (∀ n, is_branch t n → is_branch t' n).
Proof.
  intros Ht Hlpn. unfold link_last_parent.
  destruct (Z.ltb_spec 0 lpn) as [Hpos|Hneg].
  - destruct (Hlpn Hpos) as (Hlt & Hp & Hd).
    intros [_ ->]%set_suffix_node_Ok. rewrite py_norm_nonneg by lia.
    split; [by apply tree_inv_link|]. do 4 (split; [done|]). split.
    + simpl. unfold py_len. by rewrite length_insert.
    + intros m. apply is_branch_insert; [lia|].
      apply is_branch_nonneg in Hp. lia.
  - intros [= <-]. done.
Qed.

Lemma suffix_node_index t n nd :
  0 ≤ n → py_index (nodes t) n = Ok nd → Node.suffix_node nd = suffix_link t n.
Proof.
  intros Hn Hnd%py_index_Ok; [|done]. unfold suffix_link. by rewrite Hnd.
Qed.

Lemma extend_head d d' i lpn t t1 p t2 :
  head_inv d i lpn t →
  (∀ n, 0 ≤ n < py_len (nodes t) → d' n = d n) →
  test_post d' (start d t) i t t1 p →
  _add_prefix_extend t1 i lpn p = Ok t2 →
  ∃ d'', head_inv d'' i p t2 ∧ start d t < start d'' t2 ∧ seq t2 = seq t ∧
         (∀ n, 0 ≤ n < py_len (nodes t1) → d'' n = d' n).
Proof.
  intros Hh Hd' Hpost Hext.
  pose proof (head_inv_depth_src _ _ _ _ Hh) as Hds.
  destruct Hh as [[Ht _ Hsrc Hlast] Hi Hl Hf Hlpn Hcount].
  destruct Hpost as [Ht1 Hact Hseq Hmono Hp Hdp Hfi Hlen Hexp Hsize].
  set (J := start d t) in *.
  assert (N t1 = N t) as HN.
  { rewrite (ti_N _ _ _ Ht1), (ti_N _ _ _ Ht), Hseq. done. }
  pose proof Hsrc as [Hsv _]. pose proof Hp as [Hpv _].
  set (new := py_len (nodes t1)) in *.
  unfold _add_prefix_extend in Hext.
  apply bind_Ok in Hext as (ta & Hins & Hext).
  apply insert_edge_Ok in Hins as (c & Hc & ->). simpl in Hc.
  apply bind_Ok in Hext as (tb & Hlink & Hext).
  simpl in Hlink. rewrite py_len_app_one in Hlink.
  replace (py_len (nodes t1) + 1 - 1) with new in Hlink by (unfold new; lia).
  set (d'' := λ n, if decide (n = new) then d' p + (N t1 - i) + 1 else d' n).
  assert (∀ n, 0 ≤ n < new → d'' n = d' n) as Hd''.
  { intros n Hn. unfold d''. rewrite decide_False; [done|]. lia. }
  assert (tree_inv d'' (J + 1)
            (set_edges (append_node t1)
               (<[(p, c) := Edge.mk i (N t1) p new]> (edges t1)))) as Hta.
  { apply leaf_tree_inv; try done. rewrite HN. done. }
  apply (link_last_parent_inv d'' (J + 1)) in Hlink
    as (Htb & Hedges & Hactb & Hseqb & HNb & Hlenb & Hmonob); [|exact Hta|].
  2:{ intros Hpos. destruct Hlpn as [?|[?|(_ & Hbl & Hdl)]]; [lia..|].
      pose proof Hbl as [Hlv _]. simpl. rewrite py_len_app_one. fold new.
      split; [lia|]. split; [apply (is_branch_append t1 (-1)); exact Hp|].
      rewrite !Hd'' by lia. rewrite Hdp, (Hd' lpn) by lia. lia. }
  simpl in Hedges, Hactb, Hseqb, HNb, Hlenb.
  rewrite py_len_app_one in Hlenb. fold new in Hlenb.
  assert (∀ n, is_branch t n → is_branch tb n) as Hmono'.
  { intros n Hn. apply Hmonob. apply (is_branch_append t1 (-1)). by apply Hmono. }
  assert (is_branch tb p) as Hpb.
  { apply Hmonob. apply (is_branch_append t1 (-1)). exact Hp. }
  assert (d'' (Suffix.source_node_index (active t))
          = d (Suffix.source_node_index (active t))) as Hdsrc.
  { rewrite Hd'' by lia. by apply Hd'. }
  assert (Z.of_nat (size (edges tb)) + 1 ≤ py_len (nodes tb)) as Hsizeb.
  { rewrite Hedges, Hlenb.
    pose proof (map_size_insert_le (edges t1) (p, c) (Edge.mk i (N t1) p new)).
    fold new in Hsize. lia. }
  assert (∀ J', J < J' →
            count_inv J' i i tb) as Hcnt.
  { intros J' HJ'. destruct Hcount as [Hnn Hz Hpos Htop _].
    assert (J = 0 → py_len (nodes tb) = 2) as Hz'.
    { intros HJ0. destruct (Hz HJ0) as [Hi0 Hn1].
      assert (Suffix.explicit (active t) = true) as Hex.
      { apply explicit_true. unfold J, start in HJ0. lia. }
      destruct (Hexp Hex) as [Hnodes _]. rewrite Hlenb. unfold new.
      rewrite Hnodes. lia. }
    constructor.
    - lia.
    - lia.
    - intros _. destruct (decide (J = 0)) as [HJ0|HJ0].
      + rewrite Hz' by done. lia.
      + rewrite Hlenb. specialize (Hpos ltac:(lia)). lia.
    - intros Hi1 HJi. destruct (decide (J = i)) as [HJe|HJne].
      + assert (Suffix.explicit (active t) = true) as Hex.
        { apply explicit_true. unfold J, start in HJe. lia. }
        destruct (Hexp Hex) as [Hnodes _]. rewrite Hlenb. unfold new.
        rewrite Hnodes. specialize (Hpos ltac:(lia)). lia.
      + destruct (decide (J = 0)) as [HJ0|HJ0]; [destruct (Hz HJ0); lia|].
        rewrite Hlenb. specialize (Hpos ltac:(lia)). lia.
    - exact Hsizeb. }
  assert (∀ J', J < J' → 
            p = 0 ∨ (0 < p ∧ is_branch tb p ∧ i - J' < d'' p)) as Hlpn'.
  { intros J' HJ'. destruct (decide (p = 0)) as [?|?]; [by left|right].
    split; [lia|]. split; [done|]. rewrite Hd'' by lia. lia. }
  case_decide as Hs0.
  - (* the active point is at the root *)
    injection Hext as <-. rewrite Hactb, Hact in Hs0 |- *.
    exists d''.
    assert (start d'' (set_active tb
              (Suffix.mk (Suffix.source_node_index (active t))
                 (Suffix.first_obj_index (active t) + 1)
                 (Suffix.last_obj_index (active t)))) = J + 1) as Hst.
    { unfold start. simpl. rewrite Hdsrc. unfold J, start. lia. }
    split; [|split; [lia|split; [simpl; congruence|exact Hd'']]].
    constructor; rewrite ?Hst; simpl; try done.
    + constructor; simpl; try done.
      * by apply tree_inv_set_active.
      * rewrite Hs0. apply is_branch_root. simpl. rewrite Hlenb. unfold new. lia.
      * lia.
    + lia.
    + destruct (decide (Suffix.first_obj_index (active t) = i)) as [Hfe|Hfne];
        [right|left; lia].
      assert (Suffix.explicit (active t) = true) as Hex
        by (apply explicit_true; lia).
      destruct (Hexp Hex) as [_ Hps]. rewrite Hs0 in Hps.
      split; [lia|]. split; [done|]. split; [done|].
      exists c. rewrite Hseqb. split; [done|].
      rewrite Hedges, Hps. rewrite lookup_insert_eq. done.
    + destruct (Hlpn' (J + 1) ltac:(lia)) as [?|?]; [right; by left|].
      right. by right.
    + apply count_inv_set_active, (Hcnt (J + 1)). lia.
  - (* the active point follows the suffix link of its node *)
    apply bind_Ok in Hext as (nd & Hnd & [= <-]).
    rewrite Hactb, Hact in Hs0, Hnd |- *.
    apply suffix_node_index in Hnd; [|lia]. rewrite Hnd.
    assert (is_branch tb (Suffix.source_node_index (active t))) as Hsb
      by by apply Hmono'.
    pose proof (is_branch_link _ _ Hsb Hs0) as Hlk.
    destruct (ti_links _ _ _ Htb (Suffix.source_node_index (active t))
                ltac:(lia) Hlk) as [Hvb Hvd].
    rewrite Hdsrc in Hvd.
    exists d''.
    assert (J < start d'' (set_active tb
              (Suffix.mk (suffix_link tb (Suffix.source_node_index (active t)))
                 (Suffix.first_obj_index (active t))
                 (Suffix.last_obj_index (active t))))) as Hst.
    { unfold start. simpl. unfold J, start. lia. }
    split; [|split; [lia|split; [simpl; congruence|exact Hd'']]].
    constructor; simpl; try done.
    + constructor; simpl; try done.
      * apply tree_inv_set_active. eapply tree_inv_mono; [|exact Htb]. lia.
      * lia.
    + lia.
    + by left.
    + destruct (Hlpn' _ Hst) as [?|?]; [right; by left|].
      right. by right.
    + by apply count_inv_set_active, Hcnt.
Qed.
End Extension.

(** ** The phases of the construction *)

Section Phases.
Context {A : Type} `{Countable A}.
Implicit Types (t : @tree A _ _) (d : Z → Z) (e edge : Edge.t) (n v J : Z).

Lemma is_branch_nodes t t' n :
  nodes t' = nodes t → is_branch t n → is_branch t' n.
Proof. unfold is_branch, suffix_link. by intros ->. Qed.

Lemma count_inv_ext J k i t t' :
  nodes t' = nodes t → edges t' = edges t →
  count_inv J k i t → count_inv J k i t'.
Proof. intros Hn He []. constructor; rewrite ?Hn, ?He; done. Qed.

Lemma canonize_head d i lpn fuel t t' :
  head_inv d i lpn t → _canonize_suffix fuel t = Ok t' →
  head_inv d i lpn t' ∧ canonical t' ∧ start d t' = start d t ∧
  seq t' = seq t.
Proof.
  intros [Hact Hi Hl Hf Hlpn Hcount] Hc.
  pose proof (frame_canonize _ _ _ Hc) as ((_ & HN & _ & _) & _ & _).
  destruct (canonize_spec _ _ _ _ _ Hact Hc)
    as (Hact' & Hcan & Hn & He & Hseq & Hl' & Hsame & Hle & Hb).
  pose proof (ai_start _ _ _ Hact') as Hst.
  split; [|by rewrite <- Hst].
  constructor; rewrite <- ?Hst; try done.
  - by rewrite HN.
  - by rewrite Hl'.
  - destruct (Suffix.explicit (active t)) eqn:Hex.
    + rewrite Hsame, Hseq, He by done. exact Hf.
    + left. specialize (Hb eq_refl). lia.
  - destruct Hlpn as [?|[?|(? & Hbr & ?)]]; [by left|right; by left|].
    right; right. split; [done|]. split; [|done].
    by apply (is_branch_nodes t).
  - by apply (count_inv_ext _ _ _ t).
Qed.

Lemma test_break_nonempty t i :
  _add_prefix_test t i = Ok None → edges t ≠ ∅.
Proof.
  unfold _add_prefix_test. intros Htest Hem.
  destruct (Suffix.explicit (active t)).
  - apply bind_Ok in Htest as (c & _ & Htest).
    case_decide as Hin; [|done]. rewrite Hem in Hin.
    destruct Hin as [e He]. by rewrite lookup_empty in He.
  - apply bind_Ok in Htest as (c & _ & Htest).
    apply bind_Ok in Htest as (e & He%edge_at_Ok & _).
    rewrite Hem in He. by rewrite lookup_empty in He.
Qed.

Lemma finish_phase d i lpn cfuel t t' :
  head_inv d i lpn t → _add_prefix_test t i = Ok None →
  _add_prefix_finish cfuel t lpn (Suffix.source_node_index (active t)) = Ok t' →
  phase_inv d (i + 1) t' ∧ seq t' = seq t.
Proof.
  intros Hh Htest Hfin. pose proof (head_inv_depth_src _ _ _ _ Hh) as Hds.
  destruct Hh as [[Ht _ Hsrc Hlast] Hi Hl Hf Hlpn Hcount].
  set (J := start d t) in *.
  assert (1 ≤ J) as HJ.
  { destruct Hcount as [Hnn Hz _ _ Hsz].
    destruct (decide (J = 0)) as [HJ0|?]; [|lia].
    destruct (Hz HJ0) as [_ Hlen]. rewrite Hlen in Hsz.
    apply test_break_nonempty in Htest.
    apply map_size_non_empty_iff in Htest. lia. }
  unfold _add_prefix_finish in Hfin.
  apply bind_Ok in Hfin as (t1 & Hlink & Hc).
  apply (link_last_parent_inv d J) in Hlink
    as (Ht1 & He1 & Ha1 & Hs1 & HN1 & Hlen1 & Hmono); [|exact Ht|].
  2:{ intros Hpos. destruct Hlpn as [?|[?|(_ & Hbl & Hdl)]]; [lia..|].
      pose proof Hbl as [Hlv _]. split; [lia|]. split; [done|].
      destruct Hf as [?|(_ & _ & ? & _)]; [|lia].
      unfold J, start in Hdl. lia. }
  rewrite Ha1 in Hc.
  pose proof (frame_canonize _ _ _ Hc) as ((_ & HN & _ & _) & _ & _).
  simpl in HN.
  eapply (canonize_spec d J) in Hc
    as (Hact' & Hcan & Hn & He & Hseq & Hl' & Hsame & Hle & Hb).
  2:{ constructor; simpl.
      - by apply tree_inv_set_active.
      - done.
      - by apply Hmono.
      - rewrite HN1. lia. }
  simpl in *.
  pose proof (ai_start _ _ _ Hact') as Hst.
  split; [|congruence]. constructor; rewrite <- ?Hst; try done.
  - rewrite HN, HN1. lia.
  - rewrite Hl'. lia.
  - destruct (Suffix.explicit
      (Suffix.mk (Suffix.source_node_index (active t))
         (Suffix.first_obj_index (active t))
         (Suffix.last_obj_index (active t) + 1))) eqn:Hex.
    + rewrite Hsame by done. simpl. destruct Hf as [?|(? & _)]; lia.
    + specialize (Hb eq_refl). lia.
  - destruct Hcount as [Hnn Hz Hpos Htop Hsz].
    assert (py_len (nodes t') = py_len (nodes t)) as Hlen'
      by (rewrite Hn; exact Hlen1).
    constructor; rewrite ?Hlen'; try done; try lia.
    rewrite He, He1. done.
Qed.

Lemma phase_head d k t :
  phase_inv d k t → k ≤ N t → head_inv d k (-1) t.
Proof.
  intros [Hact Hcan Hk Hl Hf Hcount] HkN.
  destruct Hact as [Ht Hst Hsrc Hlast].
  pose proof (ti_depth _ _ _ Ht _ Hsrc) as Hds.
  constructor; try done; try lia.
  destruct Hcount as [Hnn Hz Hpos Htop Hsz]. constructor; try done.
  intros Hk1 HJ. unfold start in HJ. lia.
Qed.

Lemma loop_phase d cfuel fuel t i lpn t' :
  head_inv d i lpn t → canonical t →
  _add_prefix_loop cfuel fuel t i lpn = Ok t' →
  ∃ d', phase_inv d' (i + 1) t' ∧ seq t' = seq t.
Proof.
  revert d t lpn. induction fuel as [|fuel IH]; intros d t lpn Hh Hcan;
    simpl; [done|].
  intros Hl. apply bind_Ok in Hl as (r & Htest & Hl).
  destruct r as [[t1 p]|].
  - apply bind_Ok in Hl as (t2 & Hext & Hl).
    apply bind_Ok in Hl as (t3 & Hc & Hl).
    destruct (test_continue _ _ _ _ _ _ Hh Hcan Htest) as (d' & Hd' & Hpost).
    destruct (extend_head _ _ _ _ _ _ _ _ Hh Hd' Hpost Hext)
      as (d'' & Hh2 & _ & Hseq2 & _).
    destruct (canonize_head _ _ _ _ _ _ Hh2 Hc) as (Hh3 & Hcan3 & _ & Hseq3).
    destruct (IH _ _ _ Hh3 Hcan3 Hl) as (d3 & Hph & Hseq4).
    exists d3. split; [done|]. congruence.
  - exists d. by apply (finish_phase d i lpn cfuel).
Qed.

Lemma add_prefix_phase d fuel t k t' :
  phase_inv d k t → k ≤ N t → _add_prefix fuel t k = Ok t' →
  ∃ d', phase_inv d' (k + 1) t' ∧ seq t' = seq t.
Proof.
  intros Hp Hk. apply loop_phase with (d := d).
  - by apply phase_head.
  - by destruct Hp.
Qed.

Lemma init_phase_inv (s : list A) : phase_inv (λ _, 0) 0 (init s).
Proof.
  assert (∀ n, 0 < n → suffix_link (init s) n = -1) as Hlink.
  { intros n Hn. unfold suffix_link. simpl.
    destruct (Z.to_nat n) as [|m] eqn:E; [lia|done]. }
  constructor; simpl; try done.
  - constructor; simpl; try done.
    + constructor; simpl; try done.
      intros n Hn Hl. by rewrite Hlink in Hl.
    + by apply is_branch_root.
    + unfold py_len. lia.
  - by left.
  - unfold py_len. lia.
Qed.

Lemma for_each_phase fuel (n : nat) : ∀ d m t t',
  phase_inv d m t → m + Z.of_nat n ≤ N t + 1 →
  for_each (_add_prefix fuel) t (seqZ m (Z.of_nat n)) = Ok t' →
  ∃ d', phase_inv d' (m + Z.of_nat n) t' ∧ seq t' = seq t.
Proof.
  induction n as [|n IH]; intros d m t t' Hp Hm.
  - simpl. intros [= <-]. exists d. by rewrite Z.add_0_r.
  - rewrite seqZ_cons by lia. simpl. intros Hf.
    apply bind_Ok in Hf as (t1 & H1 & Hf).
    destruct (add_prefix_phase _ _ _ _ _ Hp ltac:(lia) H1) as (d1 & Hp1 & Hs1).
    replace (Z.pred (Z.of_nat (S n))) with (Z.of_nat n) in Hf by lia.
    assert (N t1 = N t) as HN.
    { destruct Hp1 as [[Ht1 _ _ _] _ _ _ _ _], Hp as [[Ht _ _ _] _ _ _ _ _].
      rewrite (ti_N _ _ _ Ht1), (ti_N _ _ _ Ht), Hs1. done. }
    destruct (IH d1 (Z.succ m) t1 t' Hp1 ltac:(lia) Hf) as (d' & Hp' & Hs').
    exists d'. replace (m + Z.of_nat (S n)) with (Z.succ m + Z.of_nat n) by lia.
    split; [done|congruence].
Qed.

Lemma take_range (k : nat) (n : Z) :
  take k (range n) = range (Z.min (Z.of_nat k) n).
Proof.
  unfold range. apply list_eq. intros i.
  destruct (decide (i < k)%nat) as [Hlt|Hge].
  - rewrite lookup_take_lt by done.
    destruct (decide (Z.of_nat i < n)) as [Hin|Hout].
    + by rewrite !lookup_seqZ_lt by lia.
    + by rewrite !lookup_seqZ_ge by lia.
  - rewrite lookup_take_ge by lia. by rewrite lookup_seqZ_ge by lia.
Qed.

(** After [k] phases (all of them, if [k] is more than the length). *)
Lemma phases_inv fuel (s : list A) (k : nat) t :
  phases fuel s k = Ok t →
  ∃ d, phase_inv d (Z.min (Z.of_nat k) (py_len s)) t ∧ seq t = s.
Proof.
  unfold phases. rewrite take_range. intros Hf.
  set (m := Z.min (Z.of_nat k) (py_len s)) in *.
  assert (0 ≤ m) as Hm by (unfold m, py_len; lia).
  replace m with (Z.of_nat (Z.to_nat m)) in Hf by lia.
  apply (for_each_phase fuel _ (λ _, 0) 0) in Hf as (d & Hp & Hs).
  - exists d. replace (0 + Z.of_nat (Z.to_nat m)) with m in Hp by lia. done.
  - apply init_phase_inv.
  - simpl. unfold m. lia.
Qed.

Lemma SuffixTree_phases fuel (s : list A) :
  SuffixTree fuel s = phases fuel s (length s).
Proof.
  unfold SuffixTree, phases. f_equal. rewrite take_range. f_equal.
  unfold py_len. lia.
Qed.
End Phases.

(** ** The finished tree and the calls of [_canonize_suffix] *)

Section Construction.
Context {A : Type} `{Countable A}.
Implicit Types (t : @tree A _ _) (d : Z → Z) (e edge : Edge.t) (n v J : Z).

Lemma phase_inv_internal d k t n :
  phase_inv d k t → internal t n → is_branch t n ∧ suffix_link t n ≠ -1.
Proof.
  intros [[Ht _ _ _] _ _ _ _ _] (Hn & key & e & He & <-).
  destruct (ti_edges _ _ _ Ht _ _ He). split; [done|].
  by apply is_branch_link.
Qed.

(** C7: after every phase that [_add_prefix] completes, every internal node
    of the tree has its suffix link set: the node is in the registry, its
    [suffix_node] is not [-1] and is the handle of a node of the registry.
    This holds of the internal node made last as well, to which
    [_split_edge] gives a link at once, so no node needs to be excepted. *)
Theorem internal_nodes_linked fuel (s : list A) (k : nat) t n :
  phases fuel s k = Ok t → internal t n →
  ∃ nd, py_index (nodes t) n = Ok nd ∧
        Node.suffix_node nd ≠ -1 ∧
        0 ≤ Node.suffix_node nd < py_len (nodes t).
Proof.
  intros Hph Hint. destruct (phases_inv _ _ _ _ Hph) as (d & Hp & _).
  destruct (phase_inv_internal _ _ _ _ Hp Hint) as [Hbr Hl].
  pose proof Hbr as [Hn _].
  destruct (py_index_lt (nodes t) n Hn) as (nd & Hnd & Hlook).
  exists nd. split; [done|].
  rewrite (suffix_node_index t n nd) by (done || lia).
  split; [done|].
  destruct Hp as [[Ht _ _ _] _ _ _ _ _].
  destruct Hint as [Hn0 _].
  destruct (ti_links _ _ _ Ht n ltac:(lia) Hl) as [[Hv _] _]. done.
Qed.

(** C8, as amended: in the finished tree of a sequence of length [L ≥ 1]
    the number of edges is less than [2 * L] and the number of nodes is at
    most [2 * L], and less than [2 * L] when [L ≥ 2]. *)
Theorem node_edge_bound fuel (s : list A) t :
  SuffixTree fuel s = Ok t → 1 ≤ py_len s →
  Z.of_nat (size (edges t)) < 2 * py_len s ∧
  py_len (nodes t) ≤ 2 * py_len s ∧
  (2 ≤ py_len s → py_len (nodes t) < 2 * py_len s).
Proof.
  rewrite SuffixTree_phases. intros Hph HL.
  destruct (phases_inv _ _ _ _ Hph) as (d & Hp & _).
  replace (Z.min (Z.of_nat (length s)) (py_len s)) with (py_len s) in Hp
    by (unfold py_len; lia).
  destruct Hp as [[Ht _ Hsrc _] _ _ _ Hf [Hnn Hz Hpos Htop Hsz]].
  pose proof (ti_depth _ _ _ Ht _ Hsrc) as Hds.
  set (J := start d t) in *.
  assert (J ≤ py_len s) as HJ by (unfold J, start; lia).
  assert (1 ≤ J) as HJ1.
  { destruct (decide (J = 0)) as [HJ0|?]; [|lia]. destruct (Hz HJ0). lia. }
  specialize (Hpos HJ1).
  split; [lia|]. split; [lia|]. intros HL2.
  destruct (decide (J = py_len s)) as [HJe|?]; [|lia].
  specialize (Htop ltac:(lia) ltac:(lia)). lia.
Qed.

Lemma at_head_inv fuel (s : list A) i lpn t :
  at_head fuel s i lpn t → ∃ d, head_inv d i lpn t ∧ canonical t ∧ seq t = s.
Proof.
  induction 1 as [k t Hk Hph|i lpn t t1 p t2 t3 _ IH Htest Hext Hc].
  - destruct (phases_inv _ _ _ _ Hph) as (d & Hp & Hs).
    replace (Z.min (Z.of_nat k) (py_len s)) with (Z.of_nat k) in Hp
      by (unfold py_len; lia).
    exists d. split; [|split; [by destruct Hp|done]].
    apply phase_head; [done|].
    destruct Hp as [[Ht _ _ _] _ _ _ _ _].
    rewrite (ti_N _ _ _ Ht), Hs. unfold py_len. lia.
  - destruct IH as (d & Hh & Hcan & Hs).
    destruct (test_continue _ _ _ _ _ _ Hh Hcan Htest) as (d' & Hd' & Hpost).
    destruct (extend_head _ _ _ _ _ _ _ _ Hh Hd' Hpost Hext)
      as (d'' & Hh2 & _ & Hseq2 & _).
    destruct (canonize_head _ _ _ _ _ _ Hh2 Hc) as (Hh3 & Hcan3 & _ & Hseq3).
    exists d''. split; [done|]. split; [done|]. congruence.
Qed.

Lemma finish_active_inv d i lpn t t1 :
  head_inv d i lpn t →
  link_last_parent t lpn (Suffix.source_node_index (active t)) = Ok t1 →
  active_inv d (start d t)
    (set_active t1
       (Suffix.mk (Suffix.source_node_index (active t1))
                  (Suffix.first_obj_index (active t1))
                  (Suffix.last_obj_index (active t1) + 1))).
Proof.
  intros Hh Hlink. pose proof (head_inv_depth_src _ _ _ _ Hh) as Hds.
  destruct Hh as [[Ht _ Hsrc Hlast] Hi Hl Hf Hlpn Hcount].
  apply (link_last_parent_inv d (start d t)) in Hlink
    as (Ht1 & He1 & Ha1 & Hs1 & HN1 & Hlen1 & Hmono); [|exact Ht|].
  2:{ intros Hpos. destruct Hlpn as [?|[?|(_ & Hbl & Hdl)]]; [lia..|].
      pose proof Hbl as [Hlv _]. split; [lia|]. split; [done|].
      destruct Hf as [?|(_ & _ & ? & _)]; [|lia].
      unfold start in Hdl. lia. }
  rewrite Ha1. constructor; simpl.
  - by apply tree_inv_set_active.
  - done.
  - by apply Hmono.
  - rewrite HN1. lia.
Qed.

Lemma canonize_call_inv fuel (s : list A) t :
  canonize_call fuel s t → ∃ d J, active_inv d J t ∧ 0 ≤ J.
Proof.
  intros [i lpn t0 t1 p t2 Hat Htest Hext|i lpn t0 t1 Hat Htest Hlink].
  - destruct (at_head_inv _ _ _ _ _ Hat) as (d & Hh & Hcan & Hs).
    destruct (test_continue _ _ _ _ _ _ Hh Hcan Htest) as (d' & Hd' & Hpost).
    destruct (extend_head _ _ _ _ _ _ _ _ Hh Hd' Hpost Hext)
      as (d'' & Hh2 & _ & _ & _).
    exists d'', (start d'' t2). destruct Hh2 as [? _ _ _ _ [? _ _ _ _]]. done.
  - destruct (at_head_inv _ _ _ _ _ Hat) as (d & Hh & Hcan & Hs).
    exists d, (start d t0). split; [by apply (finish_active_inv d i lpn)|].
    by destruct Hh as [_ _ _ _ _ [? _ _ _ _]].
Qed.

(** A descent keeps the invariant of the active point and takes at least
    one symbol off its window. *)
Lemma descend_inv d J t c e :
  active_inv d J t →
  Suffix.explicit (active t) = false →
  edges t !! (Suffix.source_node_index (active t), c) = Some e →
  Edge.length e ≤ Suffix.length (active t) →
  let t' := set_active t
              (Suffix.mk (Edge.dest_node_index e)
                 (Suffix.first_obj_index (active t) + (Edge.length e + 1))
                 (Suffix.last_obj_index (active t))) in
  active_inv d J t' ∧ window t' = window t - (Edge.length e + 1) ∧
  0 ≤ Edge.length e.
Proof.
  intros Hinv Hex%explicit_false He Hle t'.
  pose proof Hinv as [Ht HJ Hsrc Hlast].
  destruct (ti_edges _ _ _ Ht _ _ He)
    as [Hs _ _ Hspan _ _ Hdest Hdepth Hleaf _].
  simpl in Hs.
  destruct Hleaf as [HN|Hbr].
  { pose proof (leaf_edge_longer _ _ _ _ _ Hinv He HN). lia. }
  unfold window, t', Suffix.length, Edge.length in *. simpl.
  split; [|lia]. constructor; simpl; try done.
  - by apply tree_inv_set_active.
  - unfold start in *. simpl. rewrite Hdepth, <- Hs. unfold Edge.length. lia.
Qed.

Lemma active_inv_first d J t :
  active_inv d J t → 0 ≤ J → 0 ≤ Suffix.first_obj_index (active t).
Proof.
  intros [Ht HJ Hsrc _] HJ0. pose proof (ti_depth _ _ _ Ht _ Hsrc).
  unfold start in HJ. lia.
Qed.

Lemma canonize_fuel_enough d J t (n : nat) :
  active_inv d J t → 0 ≤ J → (Z.to_nat (window t) < n)%nat →
  (∃ t', _canonize_suffix n t = Ok t') ∨
  _canonize_suffix n t = Raise KeyError.
Proof.
  revert t. induction n as [|n IH]; intros t Hinv HJ Hn; [lia|]. simpl.
  destruct (Suffix.explicit (active t)) eqn:Hex; simpl; [left; by eexists|].
  pose proof (active_inv_first _ _ _ Hinv HJ) as Hf0.
  pose proof Hex as Hex'%explicit_false.
  destruct (py_index_lt (seq t) (Suffix.first_obj_index (active t)))
    as (c & Hc & _).
  { destruct Hinv as [Ht _ _ Hlast]. rewrite (ti_N _ _ _ Ht) in Hlast. lia. }
  rewrite Hc. simpl. unfold edge_at.
  destruct (edges t !! (Suffix.source_node_index (active t), c)) as [e|] eqn:He;
    simpl; [|by right].
  destruct (Z.leb_spec (Edge.length e) (Suffix.length (active t))) as [Hle|Hgt];
    [|left; by eexists].
  destruct (descend_inv _ _ _ _ _ Hinv Hex He Hle) as (Hinv' & Hw & He0).
  apply IH; [done|done|]. rewrite Hw.
  unfold window, Suffix.length in *. lia.
Qed.

Lemma canonize_fuel_mono (n m : nat) t :
  (n ≤ m)%nat → _canonize_suffix n t ≠ OutOfFuel →
  _canonize_suffix m t = _canonize_suffix n t.
Proof.
  revert m t. induction n as [|n IH]; intros m t Hnm; simpl; [done|].
  destruct m as [|m]; [lia|]. simpl.
  destruct (negb _); [|done].
  destruct (py_index _ _) as [c| |]; simpl; [|done..].
  destruct (edge_at _ _) as [e| |]; simpl; [|done..].
  destruct (_ <=? _); [|done]. apply IH. lia.
Qed.

(** C10: on every tree on which [_canonize_suffix] is called during the
    construction, the call ends within [window t + 1] nested calls, that
    is after at most as many descents as the window of the active point has
    symbols, each descent taking the whole span of an edge, at least one
    symbol, off the front of the window; more fuel changes nothing. No index
    is out of range; when the call returns, the active point is canonical
    (explicit, or on an edge longer than its window), and the registry and
    the table are untouched. *)
Theorem canonize_terminates fuel (s : list A) t :
  canonize_call fuel s t →
  let n := S (Z.to_nat (window t)) in
  ((∃ t', _canonize_suffix n t = Ok t' ∧ canonical t' ∧
          nodes t' = nodes t ∧ edges t' = edges t) ∨
   _canonize_suffix n t = Raise KeyError) ∧
  (∀ m, (n ≤ m)%nat → _canonize_suffix m t = _canonize_suffix n t) ∧
  (map_Forall (λ _ e, 1 ≤ Edge.length e + 1) (edges t)).
Proof.
  intros Hcall n.
  destruct (canonize_call_inv _ _ _ Hcall) as (d & J & Hinv & HJ).
  destruct (canonize_fuel_enough d J t n Hinv HJ ltac:(lia)) as [[t' Ht']|Hr].
  - split; [left; exists t'|split].
    + destruct (canonize_spec _ _ _ _ _ Hinv Ht') as (_ & Hcan & Hn & He & _).
      done.
    + intros m Hm. apply canonize_fuel_mono; [done|]. by rewrite Ht'.
    + intros key e He. destruct Hinv as [Ht _ _ _].
      destruct (ti_edges _ _ _ Ht _ _ He). unfold Edge.length. lia.
  - split; [by right|split].
    + intros m Hm. apply canonize_fuel_mono; [done|]. by rewrite Hr.
    + intros key e He. destruct Hinv as [Ht _ _ _].
      destruct (ti_edges _ _ _ Ht _ _ He). unfold Edge.length. lia.
Qed.
End Construction.

(** C7, on the tree of "abcabx" after all six phases: node 4, made by the
    split of the edge "abcabx" after "ab", is internal. *)
Lemma internal_nodes_linked_witness :
  phases 7 (chars "abcabx") 6 = Ok (tree_after "abcabx" 6) ∧
  internal (tree_after "abcabx" 6) 4 ∧
  ∃ nd, py_index (nodes (tree_after "abcabx" 6)) 4 = Ok nd ∧
        Node.suffix_node nd ≠ -1 ∧
        0 ≤ Node.suffix_node nd < py_len (nodes (tree_after "abcabx" 6)).
Proof.
  assert (phases 7 (chars "abcabx") 6 = Ok (tree_after "abcabx" 6)) as Hph
    by (vm_compute; reflexivity).
  assert (internal (tree_after "abcabx" 6) 4) as Hint.
  { split; [discriminate|].
    exists (4, "c"%char), (Edge.mk 2 5 4 1). split; vm_compute; reflexivity. }
  split; [exact Hph|]. split; [exact Hint|].
  exact (internal_nodes_linked 7 (chars "abcabx") 6 _ 4 Hph Hint).
Defined.

(** C8, on "aaaa$". *)
Lemma node_edge_bound_witness :
  SuffixTree 6 (chars "aaaa$") = Ok (tree_of "aaaa$") ∧
  1 ≤ py_len (chars "aaaa$") ∧
  Z.of_nat (size (edges (tree_of "aaaa$"))) < 2 * py_len (chars "aaaa$") ∧
  py_len (nodes (tree_of "aaaa$")) ≤ 2 * py_len (chars "aaaa$") ∧
  (2 ≤ py_len (chars "aaaa$") →
   py_len (nodes (tree_of "aaaa$")) < 2 * py_len (chars "aaaa$")).
Proof.
  assert (SuffixTree 6 (chars "aaaa$") = Ok (tree_of "aaaa$")) as Hb
    by (vm_compute; reflexivity).
  assert (1 ≤ py_len (chars "aaaa$")) as HL by (vm_compute; discriminate).
  split; [exact Hb|]. split; [exact HL|].
  exact (node_edge_bound 6 (chars "aaaa$") _ Hb HL).
Defined.

(** C8 as stated fails for a sequence of one symbol: the tree of "a" has
    two nodes, the root and one leaf, and [2] is not less than [2 * 1]. *)
Lemma one_symbol_two_nodes :
  SuffixTree 2 (chars "a") = Ok (tree_of "a") ∧
  py_len (chars "a") = 1 ∧
  py_len (nodes (tree_of "a")) = 2 ∧
  ¬ (py_len (nodes (tree_of "a")) < 2 * py_len (chars "a")).
Proof.
  split; [vm_compute; reflexivity|]. split; [vm_compute; reflexivity|].
  split; [vm_compute; reflexivity|]. vm_compute. intros Hlt. discriminate Hlt.
Qed.

(** C10, on the call that ends the phase of position 4 of "abcabx": the
    active point has just become [(0, 3, 4)], with a window of two symbols
    on the edge "abcabx". *)
Lemma canonize_terminates_witness :
  let t := tree_after "abcabx" 4 in
  let t' := set_active t
              (Suffix.mk (Suffix.source_node_index (active t))
                 (Suffix.first_obj_index (active t))
                 (Suffix.last_obj_index (active t) + 1)) in
  let n := S (Z.to_nat (window t')) in
  canonize_call 7 (chars "abcabx") t' ∧
  ((∃ t'', _canonize_suffix n t' = Ok t'' ∧ canonical t'' ∧
           nodes t'' = nodes t' ∧ edges t'' = edges t') ∨
   _canonize_suffix n t' = Raise KeyError) ∧
  (∀ m, (n ≤ m)%nat → _canonize_suffix m t' = _canonize_suffix n t') ∧
  (map_Forall (λ _ e, 1 ≤ Edge.length e + 1) (edges t')).
Proof.
  intros t t' n.
  assert (canonize_call 7 (chars "abcabx") t') as Hcall.
  { apply (call_after_loop 7 (chars "abcabx") 4 (-1) t t).
    - apply (head_enter 7 (chars "abcabx") 4 t).
      + vm_compute. lia.
      + vm_compute. reflexivity.
    - vm_compute. reflexivity.
    - vm_compute. reflexivity. }
  split; [exact Hcall|].
  exact (canonize_terminates 7 (chars "abcabx") t' Hcall).
Defined.

(** ** What can be read in a tree *)
Section ReadingFacts.
Context {A : Type} `{Countable A}.
Implicit Types (t : @tree A _ _) (d : Z → Z) (e edge : Edge.t) (n v J : Z)
  (s : list A).

Lemma agree_refl s a n : agree s a a n.
Proof. by intros m Hm. Qed.

Lemma agree_sym s a b n : agree s a b n → agree s b a n.
Proof. intros Hab m Hm. symmetry. by apply Hab. Qed.

Lemma agree_trans s a b c n : agree s a b n → agree s b c n → agree s a c n.
Proof. intros Hab Hbc m Hm. rewrite Hab by done. by apply Hbc. Qed.

Lemma agree_le s a b n n' : n' ≤ n → agree s a b n → agree s a b n'.
Proof. intros Hn Hab m Hm. apply Hab. lia. Qed.

Lemma agree_shift s a b n k :
  0 ≤ k → agree s a b n → agree s (a + k) (b + k) (n - k).
Proof.
  intros Hk Hab m Hm. replace (a + k + m) with (a + (k + m)) by lia.
  replace (b + k + m) with (b + (k + m)) by lia. apply Hab. lia.
Qed.

Lemma agree_app s a b n n' :
  0 ≤ n → agree s a b n → agree s (a + n) (b + n) n' → agree s a b (n + n').
Proof.
  intros Hn H1 H2 m Hm. destruct (decide (m < n)) as [?|?]; [apply H1; lia|].
  replace (a + m) with (a + n + (m - n)) by lia.
  replace (b + m) with (b + n + (m - n)) by lia. apply H2. lia.
Qed.

Lemma agree_index s a b n c :
  0 ≤ a → 0 ≤ b → 0 < n → agree s a b n →
  py_index s a = Ok c → py_index s b = Ok c.
Proof.
  intros Ha Hb Hn Hab Hc. apply py_index_Ok in Hc; [|done].
  apply py_index_Ok; [done|]. specialize (Hab 0 ltac:(lia)).
  rewrite !Z.add_0_r in Hab. by rewrite <- Hab.
Qed.

(** Reading depends on the edges and the sequence only. *)
Lemma reads_ext t t' n a b :
  seq t' = seq t → edges t' = edges t → reads t n a b → reads t' n a b.
Proof.
  intros Hs He. induction 1 as [n a b Hlt|n a b c e Hle Hc Hin Hlen Hag
                               |n a b c e Hc Hin Hlen Hag _ IH].
  - by apply reads_nil.
  - eapply reads_in; rewrite ?Hs, ?He; done.
  - eapply reads_through; rewrite ?Hs, ?He; done.
Qed.

Lemma walk_ext t t' n a b n' :
  seq t' = seq t → edges t' = edges t → walk t n a b n' → walk t' n a b n'.
Proof.
  intros Hs He. induction 1 as [|n a b c e n' Hc Hin Hlen Hag _ IH].
  - apply walk_nil.
  - eapply walk_edge; rewrite ?Hs, ?He; done.
Qed.

(** More edges: everything that could be read still can. *)
Lemma reads_subseteq t t' n a b :
  seq t' = seq t → edges t ⊆ edges t' → reads t n a b → reads t' n a b.
Proof.
  intros Hs He. induction 1 as [n a b Hlt|n a b c e Hle Hc Hin Hlen Hag
                               |n a b c e Hc Hin Hlen Hag _ IH].
  - by apply reads_nil.
  - eapply reads_in; rewrite ?Hs; try done.
    by eapply lookup_weaken.
  - eapply reads_through; rewrite ?Hs; try done.
    by eapply lookup_weaken.
Qed.

Lemma walk_subseteq t t' n a b n' :
  seq t' = seq t → edges t ⊆ edges t' → walk t n a b n' → walk t' n a b n'.
Proof.
  intros Hs He. induction 1 as [|n a b c e n' Hc Hin Hlen Hag _ IH].
  - apply walk_nil.
  - eapply walk_edge; rewrite ?Hs; try done. by eapply lookup_weaken.
Qed.

(** A prefix of a word that can be read can be read. *)
Lemma reads_prefix t n a b b' :
  b' ≤ b → reads t n a b → reads t n a b'.
Proof.
  intros Hb Hr. revert b' Hb.
  induction Hr as [n a b Hlt|n a b c e Hle Hc Hin Hlen Hag
                  |n a b c e Hc Hin Hlen Hag _ IH]; intros b' Hb.
  - apply reads_nil. lia.
  - destruct (decide (b' < a)) as [?|?]; [by apply reads_nil|].
    eapply reads_in; try done; try lia. eapply agree_le; [|done]. lia.
  - destruct (decide (b' < a)) as [?|?]; [by apply reads_nil|].
    destruct (decide (b' - a ≤ Edge.length e)) as [?|?].
    + eapply reads_in; try done; try lia. eapply agree_le; [|done]. lia.
    + eapply reads_through; try done; try lia. apply IH. lia.
Qed.

(** Reading is about the word, not about where it stands in the sequence. *)
Lemma reads_agree t n a b a' :
  0 ≤ a → 0 ≤ a' → agree (seq t) a a' (b - a + 1) →
  reads t n a b → reads t n a' (a' + (b - a)).
Proof.
  intros Ha Ha' Hag Hr. revert a' Ha Ha' Hag.
  induction Hr as [n a b Hlt|n a b c e Hle Hc Hin Hlen Hag'
                  |n a b c e Hc Hin Hlen Hag' _ IH]; intros a' Ha Ha' Hag.
  - apply reads_nil. lia.
  - eapply reads_in; try done; try lia.
    + eapply agree_index; [..|exact Hc]; try done; try lia.
    + replace (a' + (b - a) - a' + 1) with (b - a + 1) by lia.
      eapply agree_trans; [apply agree_sym; exact Hag|done].
  - eapply reads_through; try done; try lia.
    + eapply agree_index; [..|exact Hc]; try done; try lia.
    + eapply agree_trans; [apply agree_sym; eapply agree_le; [|exact Hag]|done].
      lia.
    + replace (a' + (b - a)) with
        (a' + Edge.length e + 1 + (b - (a + Edge.length e + 1))) by lia.
      apply IH; try lia.
      replace (b - (a + Edge.length e + 1) + 1)
        with (b - a + 1 - (Edge.length e + 1)) by lia.
      replace (a + Edge.length e + 1) with (a + (Edge.length e + 1)) by lia.
      replace (a' + Edge.length e + 1) with (a' + (Edge.length e + 1)) by lia.
      apply agree_shift; [lia|done].
Qed.

Lemma walk_agree t n a b a' n' :
  0 ≤ a → 0 ≤ a' → agree (seq t) a a' (b - a + 1) →
  walk t n a b n' → walk t n a' (a' + (b - a)) n'.
Proof.
  intros Ha Ha' Hag Hw. revert a' Ha Ha' Hag.
  induction Hw as [n a|n a b c e n' Hc Hin Hlen Hag' _ IH];
    intros a' Ha Ha' Hag.
  - replace (a' + (a - 1 - a)) with (a' - 1) by lia. apply walk_nil.
  - eapply walk_edge; try done; try lia.
    + eapply agree_index; [..|exact Hc]; try done; try lia.
    + eapply agree_trans; [apply agree_sym; eapply agree_le; [|exact Hag]|done].
      lia.
    + replace (a' + (b - a)) with
        (a' + Edge.length e + 1 + (b - (a + Edge.length e + 1))) by lia.
      apply IH; try lia.
      replace (b - (a + Edge.length e + 1) + 1)
        with (b - a + 1 - (Edge.length e + 1)) by lia.
      replace (a + Edge.length e + 1) with (a + (Edge.length e + 1)) by lia.
      replace (a' + Edge.length e + 1) with (a' + (Edge.length e + 1)) by lia.
      apply agree_shift; [lia|done].
Qed.

Lemma walk_empty t n a b n' : walk t n a b n' → b < a → n' = n.
Proof. destruct 1; [done|lia]. Qed.

Lemma walk_bounds t n a b n' : walk t n a b n' → a - 1 ≤ b.
Proof. induction 1; lia. Qed.

Lemma walk_app t n a m n1 b n2 :
  walk t n a m n1 → walk t n1 (m + 1) b n2 → walk t n a b n2.
Proof.
  intros Hw. revert b n2.
  induction Hw as [n a|n a m c e n1 Hc Hin Hlen Hag _ IH]; intros b n2 Hw2.
  - by replace (a - 1 + 1) with a in Hw2 by lia.
  - pose proof (walk_bounds _ _ _ _ _ Hw2).
    eapply walk_edge; try done; [lia|]. by apply IH.
Qed.

(** Reading is deterministic: what is read from [n] and passes through [n']
    goes on from [n']. *)
Lemma walk_reads t n a m n' b :
  walk t n a m n' → m ≤ b → reads t n a b → reads t n' (m + 1) b.
Proof.
  intros Hw. revert b.
  induction Hw as [n a|n a m c e n' Hc Hin Hlen Hag Hw IH]; intros b Hb Hr.
  - by replace (a - 1 + 1) with a by lia.
  - inversion Hr as [? ? ? Hlt|? ? ? c' e' Hle Hc' Hin' Hlen' Hag'
                    |? ? ? c' e' Hc' Hin' Hlen' Hag' Hr']; subst.
    + lia.
    + rewrite Hc in Hc'. injection Hc' as <-. rewrite Hin in Hin'.
      injection Hin' as <-.
      assert (m < a + Edge.length e + 1) as Hm by lia.
      apply (walk_empty _ _ _ _ _ Hw) in Hm as ->. apply reads_nil. lia.
    + rewrite Hc in Hc'. injection Hc' as <-. rewrite Hin in Hin'.
      injection Hin' as <-. by apply IH.
Qed.

Lemma walk_walk t n a m n' b n'' :
  walk t n a m n' → m ≤ b → walk t n a b n'' → walk t n' (m + 1) b n''.
Proof.
  intros Hw. revert b.
  induction Hw as [n a|n a m c e n' Hc Hin Hlen Hag Hw IH]; intros b Hb Hr.
  - by replace (a - 1 + 1) with a by lia.
  - inversion Hr as [|? ? ? c' e' ? Hc' Hin' Hlen' Hag' Hr']; subst; [lia|].
    rewrite Hc in Hc'. injection Hc' as <-. rewrite Hin in Hin'.
    injection Hin' as <-. by apply IH.
Qed.
End ReadingFacts.

(** ** Reading across a split *)
Section SplitReading.
Context {A : Type} `{Countable A}.
Implicit Types (t : @tree A _ _) (d : Z → Z) (e edge : Edge.t) (n v J : Z)
  (s : list A).

Lemma walk_reads_app t n a m n1 b :
  walk t n a m n1 → reads t n1 (m + 1) b → reads t n a b.
Proof.
  intros Hw. revert b.
  induction Hw as [n a|n a m c e n1 Hc Hin Hlen Hag Hw IH]; intros b Hr.
  - by replace (a - 1 + 1) with a in Hr by lia.
  - destruct (decide (b < a)) as [?|?]; [by apply reads_nil|].
    destruct (decide (b - a ≤ Edge.length e)) as [Hle|Hgt].
    + eapply reads_in; try done; try lia. eapply agree_le; [|done]. lia.
    + eapply reads_through; try done; [lia|]. by apply IH.
Qed.

Section Split.
Variables (t : @tree A _ _) (e0 : Edge.t) (sfx : Suffix.t) (c0 c'' : A).
Let k := Suffix.length sfx.
Let src := Suffix.source_node_index sfx.
Let new := py_len (nodes t).
Let t' := split_result t e0 sfx c0 c''.
Let upper := Edge.mk (Edge.first_obj_index e0) (Edge.first_obj_index e0 + k)
               src new.
Let lower := Edge.mk (Edge.first_obj_index e0 + (k + 1))
               (Edge.last_obj_index e0) new (Edge.dest_node_index e0).
Hypothesis Hin0 : edges t !! (src, c0) = Some e0.
Hypothesis Hsrc0 : Edge.source_node_index e0 = src.
Hypothesis Hk : 0 ≤ k < Edge.length e0.
Hypothesis Hc'' :
  py_index (seq t) (Edge.first_obj_index e0 + (k + 1)) = Ok c''.
Hypothesis Hfirst0 : 0 ≤ Edge.first_obj_index e0.
Hypothesis Hfresh : ∀ c, edges t !! (new, c) = None.

Lemma split_lookup_upper : edges t' !! (src, c0) = Some upper.
Proof.
  unfold t', split_result. simpl. rewrite lookup_insert_ne.
  - by rewrite lookup_insert_eq.
  - intros [= Hn _]. fold new src in Hn.
    specialize (Hfresh c0). rewrite Hn, Hin0 in Hfresh. done.
Qed.

Lemma split_lookup_lower : edges t' !! (new, c'') = Some lower.
Proof. unfold t', split_result. simpl. by rewrite lookup_insert_eq. Qed.

Lemma split_lookup_other key :
  key ≠ (src, c0) → key.1 ≠ new → edges t' !! key = edges t !! key.
Proof.
  intros H1 H2. unfold t', split_result. simpl. fold new src.
  rewrite lookup_insert_ne by (intros <-; done).
  rewrite lookup_insert_ne by done. rewrite Hsrc0.
  by rewrite lookup_delete_ne.
Qed.

Lemma split_index_after a :
  0 ≤ a → agree (seq t) a (Edge.first_obj_index e0) (k + 2) →
  py_index (seq t) (a + (k + 1)) = Ok c''.
Proof.
  intros Ha Hag. apply py_index_Ok; [lia|].
  rewrite (Hag (k + 1)) by lia. apply py_index_Ok; [lia|done].
Qed.

Lemma reads_split n a b : 0 ≤ a → reads t n a b → reads t' n a b.
Proof.
  intros Ha Hr.
  induction Hr as [n a b Hlt|n a b c e Hle Hc Hin Hlen Hag
                  |n a b c e Hc Hin Hlen Hag _ IH].
  - by apply reads_nil.
  - destruct (decide ((n, c) = (src, c0))) as [[= -> ->]|Hne].
    + rewrite Hin0 in Hin. injection Hin as <-.
      destruct (decide (b - a ≤ k)) as [Hbk|Hbk].
      * eapply reads_in; [done|exact Hc|apply split_lookup_upper|..].
        -- unfold Edge.length in *. simpl. lia.
        -- exact Hag.
      * eapply reads_through; [exact Hc|apply split_lookup_upper|..].
        -- unfold Edge.length in *. simpl. lia.
        -- simpl. eapply agree_le; [|exact Hag]. unfold Edge.length in *. simpl. lia.
        -- simpl. unfold Edge.length at 1. simpl.
           replace (Edge.first_obj_index e0 + k - Edge.first_obj_index e0)
             with k by lia.
           eapply reads_in; [lia| |apply split_lookup_lower|..].
           ++ replace (a + k + 1) with (a + (k + 1)) by lia.
              apply split_index_after; [done|]. eapply agree_le; [|exact Hag]. lia.
           ++ unfold Edge.length in *. simpl. lia.
           ++ simpl. replace (a + k + 1) with (a + (k + 1)) by lia.
              replace (b - (a + (k + 1)) + 1) with (b - a + 1 - (k + 1)) by lia.
              apply agree_shift; [lia|exact Hag].
    + eapply reads_in; [done|exact Hc| |done|done].
      rewrite split_lookup_other; [done|done|]. simpl. intros ->.
      by rewrite Hfresh in Hin.
  - assert (0 ≤ a + Edge.length e + 1) as Ha' by lia.
    specialize (IH Ha').
    destruct (decide ((n, c) = (src, c0))) as [[= -> ->]|Hne].
    + rewrite Hin0 in Hin. injection Hin as <-.
      eapply reads_through; [exact Hc|apply split_lookup_upper|..].
      * unfold Edge.length in *. simpl. lia.
      * simpl. eapply agree_le; [|exact Hag]. unfold Edge.length in *. simpl. lia.
      * simpl. unfold Edge.length at 1. simpl.
        replace (Edge.first_obj_index e0 + k - Edge.first_obj_index e0)
          with k by lia.
        eapply reads_through; [|apply split_lookup_lower|..].
        -- replace (a + k + 1) with (a + (k + 1)) by lia.
           apply split_index_after; [done|]. eapply agree_le; [|exact Hag].
           unfold Edge.length in *. lia.
        -- unfold Edge.length in *. simpl. lia.
        -- simpl. unfold Edge.length at 1. simpl.
           replace (a + k + 1) with (a + (k + 1)) by lia.
           replace (Edge.last_obj_index e0
                    - (Edge.first_obj_index e0 + (k + 1)) + 1)
             with (Edge.length e0 + 1 - (k + 1)) by (unfold Edge.length; lia).
           apply agree_shift; [lia|exact Hag].
        -- simpl. unfold Edge.length at 1. simpl.
           replace (a + k + 1 + (Edge.last_obj_index e0
                    - (Edge.first_obj_index e0 + (k + 1))) + 1)
             with (a + Edge.length e0 + 1) by (unfold Edge.length; lia).
           exact IH.
    + eapply reads_through; [exact Hc| |done|done|done].
      rewrite split_lookup_other; [done|done|]. simpl. intros ->.
      by rewrite Hfresh in Hin.
Qed.

Lemma walk_split n a b n' : 0 ≤ a → walk t n a b n' → walk t' n a b n'.
Proof.
  intros Ha Hw.
  induction Hw as [n a|n a b c e n' Hc Hin Hlen Hag _ IH].
  - apply walk_nil.
  - assert (0 ≤ a + Edge.length e + 1) as Ha' by lia.
    specialize (IH Ha').
    destruct (decide ((n, c) = (src, c0))) as [[= -> ->]|Hne].
    + rewrite Hin0 in Hin. injection Hin as <-.
      eapply walk_edge; [exact Hc|apply split_lookup_upper|..].
      * unfold Edge.length in *. simpl. lia.
      * simpl. eapply agree_le; [|exact Hag]. unfold Edge.length in *. simpl. lia.
      * simpl. unfold Edge.length at 1. simpl.
        replace (Edge.first_obj_index e0 + k - Edge.first_obj_index e0)
          with k by lia.
        eapply walk_edge; [|apply split_lookup_lower|..].
        -- replace (a + k + 1) with (a + (k + 1)) by lia.
           apply split_index_after; [done|]. eapply agree_le; [|exact Hag].
           unfold Edge.length in *. lia.
        -- unfold Edge.length in *. simpl. lia.
        -- simpl. unfold Edge.length at 1. simpl.
           replace (a + k + 1) with (a + (k + 1)) by lia.
           replace (Edge.last_obj_index e0
                    - (Edge.first_obj_index e0 + (k + 1)) + 1)
             with (Edge.length e0 + 1 - (k + 1)) by (unfold Edge.length; lia).
           apply agree_shift; [lia|exact Hag].
        -- simpl. unfold Edge.length at 1. simpl.
           replace (a + k + 1 + (Edge.last_obj_index e0
                    - (Edge.first_obj_index e0 + (k + 1))) + 1)
             with (a + Edge.length e0 + 1) by (unfold Edge.length; lia).
           exact IH.
    + eapply walk_edge; [exact Hc| |done|done|done].
      rewrite split_lookup_other; [done|done|]. simpl. intros ->.
      by rewrite Hfresh in Hin.
Qed.

(** The new node sits where the upper half of the old edge ends. *)
Lemma walk_split_new a :
  0 ≤ a → py_index (seq t) a = Ok c0 →
  agree (seq t) a (Edge.first_obj_index e0) (k + 1) →
  walk t' src a (a + k) new.
Proof.
  intros Ha Hc Hag.
  eapply walk_edge; [exact Hc|apply split_lookup_upper|..].
  - unfold Edge.length in *. simpl. lia.
  - simpl. unfold Edge.length. simpl.
    replace (Edge.first_obj_index e0 + k - Edge.first_obj_index e0 + 1)
      with (k + 1) by lia. exact Hag.
  - simpl. unfold Edge.length. simpl.
    replace (a + (Edge.first_obj_index e0 + k - Edge.first_obj_index e0) + 1)
      with (a + k + 1) by lia.
    replace (a + k) with (a + k + 1 - 1) at 2 by lia. apply walk_nil.
Qed.
End Split.
End SplitReading.

(** ** The active point on its way down *)
Section DeepCanonize.
Context {A : Type} `{Countable A}.
Implicit Types (t : @tree A _ _) (d pos : Z → Z) (e edge : Edge.t) (n v J : Z).

Lemma sem_inv_ext d pos c J t t' :
  seq t' = seq t → edges t' = edges t → N t' = N t →
  (∀ n, is_branch t' n → is_branch t n) →
  sem_inv d pos c J t → sem_inv d pos c J t'.
Proof.
  intros Hs He HN Hb [si_root0 si_edges0 si_loc0 si_complete0 si_leaves0].
  constructor; rewrite ?Hs, ?He, ?HN; try done.
  - intros n Hn%Hb. destruct (si_loc0 n Hn). split; [done|].
    by apply (walk_ext t).
  - intros a b Ha Hc. by apply (reads_ext t), si_complete0.
  - intros j Hj. by apply (reads_ext t), si_leaves0.
Qed.

Lemma sem_inv_set_active d pos c J t a :
  sem_inv d pos c J t → sem_inv d pos c J (set_active t a).
Proof. by apply sem_inv_ext. Qed.

Lemma links_ok_nodes d pos t t' (P : Z → Prop) :
  seq t' = seq t → nodes t' = nodes t →
  links_ok d pos t P → links_ok d pos t' P.
Proof.
  intros Hs Hn Hl n Hn0 Hb HP. unfold suffix_link. rewrite Hs, Hn.
  apply Hl; try done. by apply (is_branch_nodes t').
Qed.

(** The first symbol of a window that can be read selects an edge, and the
    window agrees with its label. *)
Lemma reads_first t n a b :
  a ≤ b → reads t n a b →
  ∃ c e, py_index (seq t) a = Ok c ∧ edges t !! (n, c) = Some e ∧
         agree (seq t) a (Edge.first_obj_index e)
           (Z.min (b - a) (Edge.length e) + 1) ∧
         (Edge.length e < b - a →
          reads t (Edge.dest_node_index e) (a + Edge.length e + 1) b).
Proof.
  intros Hab Hr.
  inversion Hr as [? ? ? Hlt|? ? ? c e Hle Hc Hin Hlen Hag
                  |? ? ? c e Hc Hin Hlen Hag Hr']; subst.
  - lia.
  - exists c, e. split; [done|]. split; [done|]. split; [|lia].
    by rewrite Z.min_l by lia.
  - exists c, e. split; [done|]. split; [done|]. split; [|done].
    by rewrite Z.min_r by lia.
Qed.

Lemma descend_act_ok d pos c J t cc e :
  active_inv d J t → sem_inv d pos c J t → act_ok d pos t →
  Suffix.explicit (active t) = false →
  edges t !! (Suffix.source_node_index (active t), cc) = Some e →
  py_index (seq t) (Suffix.first_obj_index (active t)) = Ok cc →
  Edge.length e ≤ Suffix.length (active t) →
  act_ok d pos
    (set_active t
       (Suffix.mk (Edge.dest_node_index e)
          (Suffix.first_obj_index (active t) + (Edge.length e + 1))
          (Suffix.last_obj_index (active t)))).
Proof.
  intros Hinv Hsem [Hpath Hreads] Hex%explicit_false He Hcc Hle.
  pose proof Hinv as [Ht HJ Hsrc Hlast].
  destruct (ti_edges _ _ _ Ht _ _ He)
    as [Hs _ _ Hspan _ _ Hdest Hdepth _ _]. simpl in Hs.
  destruct (si_edges _ _ _ _ _ Hsem _ _ He) as (Hpos & Hpos0 & Hag).
  rewrite <- Hs in Hpos, Hag, Hdepth.
  destruct (reads_first _ _ _ _ Hex Hreads) as (c' & e' & Hc' & He' & Hag' & Hr').
  rewrite Hcc in Hc'. injection Hc' as <-. rewrite He in He'.
  injection He' as <-. unfold Suffix.length in Hle.
  rewrite Z.min_r in Hag' by lia.
  constructor; unfold start in *; simpl.
  - rewrite Hdepth, Hpos.
    replace (Suffix.first_obj_index (active t) + (Edge.length e + 1)
             - (d (Suffix.source_node_index (active t)) + Edge.length e + 1))
      with (Suffix.first_obj_index (active t)
            - d (Suffix.source_node_index (active t))) by lia.
    replace (d (Suffix.source_node_index (active t)) + Edge.length e + 1)
      with (d (Suffix.source_node_index (active t)) + (Edge.length e + 1))
      by lia.
    pose proof (ti_depth _ _ _ Ht _ Hsrc) as Hds.
    apply agree_app; [done| |].
    + eapply agree_trans; [exact Hpath|]. apply agree_sym.
      rewrite <- Hpos. exact Hag.
    + replace (Suffix.first_obj_index (active t)
               - d (Suffix.source_node_index (active t))
               + d (Suffix.source_node_index (active t)))
        with (Suffix.first_obj_index (active t)) by lia.
      replace (Edge.first_obj_index e
               - d (Suffix.source_node_index (active t))
               + d (Suffix.source_node_index (active t)))
        with (Edge.first_obj_index e) by lia.
      exact Hag'.
  - destruct (decide (Edge.length e
                      < Suffix.last_obj_index (active t)
                        - Suffix.first_obj_index (active t))) as [Hlt|Hge].
    + apply (reads_ext t); [done..|].
      replace (Suffix.first_obj_index (active t) + (Edge.length e + 1))
        with (Suffix.first_obj_index (active t) + Edge.length e + 1) by lia.
      by apply Hr'.
    + apply reads_nil. lia.
Qed.

Lemma deep_canonize d pos c J t (n : nat) :
  active_inv d J t → 0 ≤ J → sem_inv d pos c J t → act_ok d pos t →
  (Z.to_nat (window t) < n)%nat →
  ∃ t', _canonize_suffix n t = Ok t' ∧ act_ok d pos t'.
Proof.
  revert t. induction n as [|n IH]; intros t Hinv HJ Hsem Hact Hn; [lia|].
  simpl.
  destruct (Suffix.explicit (active t)) eqn:Hex; simpl; [by eexists|].
  pose proof Hex as Hex'%explicit_false.
  destruct (reads_first _ _ _ _ Hex' (ao_reads _ _ _ Hact))
    as (cc & e & Hcc & He & _ & _).
  rewrite Hcc. simpl. unfold edge_at. rewrite He. simpl.
  destruct (Z.leb_spec (Edge.length e) (Suffix.length (active t))) as [Hle|Hgt];
    [|by eexists].
  destruct (descend_inv _ _ _ _ _ Hinv Hex He Hle) as (Hinv' & Hw & He0).
  apply IH; try done.
  - by apply sem_inv_set_active.
  - by apply (descend_act_ok d pos c J t cc e).
  - rewrite Hw. unfold window, Suffix.length in *. lia.
Qed.
End DeepCanonize.

(** ** The test at the head of the loop *)
Section DeepTest.
Context {A : Type} `{Countable A}.
Implicit Types (t : @tree A _ _) (d pos : Z → Z) (e edge : Edge.t) (n v J : Z).

Lemma head_inv_index d i lpn t :
  head_inv d i lpn t → ∃ c, py_index (seq t) i = Ok c.
Proof.
  intros [[Ht _ _ _] Hi _ _ _ _]. rewrite (ti_N _ _ _ Ht) in Hi.
  destruct (py_index_lt (seq t) i) as (c & Hc & _); [lia|]. by exists c.
Qed.

(** The test never raises, and answers as the case it is in says. *)
Lemma test_progress d i lpn t :
  head_inv d i lpn t → canonical t →
  ∃ r, _add_prefix_test t i = Ok r ∧ test_case t i r.
Proof.
  intros Hh Hcan. destruct (head_inv_index _ _ _ _ Hh) as (ci & Hci).
  destruct Hh as [[Ht _ Hsrc Hlast] Hi Hl Hf Hlpn Hcount].
  unfold _add_prefix_test.
  destruct (Suffix.explicit (active t)) eqn:Hex.
  - rewrite Hci. simpl. case_decide as Hin.
    + destruct Hin as [e He]. eexists. split; [done|].
      by eapply test_explicit_found.
    + eexists. split; [done|]. eapply test_explicit_new; try done.
      by apply eq_None_not_Some.
  - destruct Hcan as [Hcan|(c0 & e & Hc0 & He & Hlt)]; [congruence|].
    apply explicit_false in Hex as Hex'.
    rewrite Hc0. simpl. unfold edge_at. rewrite He. simpl.
    destruct (ti_edges _ _ _ Ht _ _ He)
      as [Hes Hesym Hefirst Hespan Helast _ _ _ _ _]. simpl in Hes, Hesym.
    unfold Suffix.length, Edge.length in Hlt.
    destruct (py_index_lt (seq t)
                (Edge.first_obj_index e + (Suffix.length (active t) + 1)))
      as (c1 & Hc1 & _).
    { rewrite (ti_N _ _ _ Ht) in Helast. unfold Suffix.length. lia. }
    replace (Edge.first_obj_index e + Suffix.length (active t) + 1)
      with (Edge.first_obj_index e + (Suffix.length (active t) + 1)) by lia.
    rewrite Hc1, Hci. simpl. case_decide as Heq.
    + subst ci. eexists. split; [done|].
      eapply test_implicit_found; try done.
    + rewrite (split_edge_eq t e (active t) c0 c1); try done.
      * simpl. eexists. split; [done|].
        eapply test_implicit_split; try done.
      * rewrite <- Hes. by exists e.
Qed.
End DeepTest.

(** ** What leaving the loop shows *)
Section DeepBreak.
Context {A : Type} `{Countable A}.
Implicit Types (t : @tree A _ _) (d pos : Z → Z) (e edge : Edge.t) (n v J : Z).

Lemma index_lookup (s : list A) a c :
  0 ≤ a → py_index s a = Ok c → s !! Z.to_nat a = Some c.
Proof. intros Ha Hc. by apply py_index_Ok. Qed.

Lemma agree_one (s : list A) a b c :
  0 ≤ a → 0 ≤ b → py_index s a = Ok c → py_index s b = Ok c →
  agree s a b 1.
Proof.
  intros Ha Hb Hca Hcb m Hm. replace m with 0 by lia. rewrite !Z.add_0_r.
  by rewrite (index_lookup _ _ _ Ha Hca), (index_lookup _ _ _ Hb Hcb).
Qed.

(** The word of the node of the active point, as it stands before the
    label of an edge [e] that leaves the node. *)
Lemma path_before_edge d pos c i lpn t key e :
  head_inv d i lpn t → sem_inv d pos c (start d t) t → act_ok d pos t →
  edges t !! key = Some e →
  Edge.source_node_index e = Suffix.source_node_index (active t) →
  let h := Edge.first_obj_index e - d (Suffix.source_node_index (active t)) in
  0 ≤ h ∧ Edge.first_obj_index e < Suffix.first_obj_index (active t) ∧
  agree (seq t) (start d t) h (d (Suffix.source_node_index (active t))).
Proof.
  intros Hh Hsem [Hpath _] He Hsrc h.
  destruct Hh as [[Ht _ _ _] _ _ _ _ _].
  destruct (ti_edges _ _ _ Ht _ _ He) as [_ _ _ _ _ _ _ _ _ Hhead].
  destruct (si_edges _ _ _ _ _ Hsem _ _ He) as (Hpos & Hpos0 & Hag).
  rewrite Hsrc in *. unfold h. rewrite <- Hpos.
  split; [done|]. split; [unfold start in Hhead; lia|].
  eapply agree_trans; [exact Hpath|by apply agree_sym].
Qed.

Lemma break_facts d pos i lpn t :
  deep_head d pos i lpn t → test_case t i None →
  (0 < lpn → Suffix.first_obj_index (active t) = i) ∧
  reads t (Suffix.source_node_index (active t))
    (Suffix.first_obj_index (active t)) i ∧
  ∃ h, 0 ≤ h ∧ h + (i - start d t) < i ∧
       agree (seq t) (start d t) h (i - start d t + 1).
Proof.
  intros [Hh Hcan Hsem Hlinks Hact Hpend] Hcase.
  pose proof (head_inv_depth_src _ _ _ _ Hh) as Hds.
  pose proof Hh as [[Ht _ Hsrc Hlast] Hi Hl Hf Hlpn Hcount].
  set (J := start d t) in *. set (s := Suffix.source_node_index (active t)) in *.
  assert (Suffix.first_obj_index (active t) = J + d s) as HfJ
    by (unfold J, start; fold s; lia).
  inversion Hcase as [|c e Hex Hc He| |c0 e c Hex Hc0 He Hlt Hc1 Hci]; subst.
  - (* explicit *)
    fold s in He. apply explicit_true in Hex.
    destruct (ti_edges _ _ _ Ht _ _ He)
      as [Hes Hesym Hefirst Hespan _ _ _ _ _ _]. simpl in Hes, Hesym.
    destruct (path_before_edge d pos i i lpn t _ e Hh Hsem Hact He)
      as (Hh0 & Hlt & Hag); [done|]. fold s J in Hh0, Hag.
    split; [|split].
    + intros Hpos. destruct Hf as [?|(_ & _ & ? & _)]; lia.
    + destruct (decide (Suffix.first_obj_index (active t) = i)) as [Hfi|Hfi].
      * rewrite Hfi. eapply reads_in; try done; try lia.
        -- unfold Edge.length. lia.
        -- replace (i - i + 1) with 1 by lia. eapply agree_one; try done. lia.
      * apply reads_nil. lia.
    + destruct (decide (Suffix.first_obj_index (active t) = i)) as [Hfi|Hfi].
      * exists (Edge.first_obj_index e - d s). split; [done|]. split; [lia|].
        replace (i - J + 1) with (d s + 1) by lia.
        apply agree_app; [done|done|].
        replace (J + d s) with i by lia.
        replace (Edge.first_obj_index e - d s + d s)
          with (Edge.first_obj_index e) by lia.
        eapply agree_one; try done. lia.
      * assert (J = i + 1) as HJi.
        { destruct Hf as [?|(Hf1 & Hs0 & _)]; [lia|].
          fold s in Hs0. pose proof (ti_root _ _ _ Ht) as Hr0.
          rewrite Hs0 in HfJ. lia. }
        exists 0. split; [done|]. split; [lia|].
        intros m Hm. lia.
  - (* implicit *)
    fold s in He. apply explicit_false in Hex. unfold Suffix.length, Edge.length in *.
    set (k := Suffix.last_obj_index (active t)
              - Suffix.first_obj_index (active t)) in *.
    destruct (ti_edges _ _ _ Ht _ _ He)
      as [Hes Hesym Hefirst Hespan _ _ _ _ _ _]. simpl in Hes, Hesym.
    destruct (path_before_edge d pos i i lpn t _ e Hh Hsem Hact He)
      as (Hh0 & Hlt' & Hag); [done|]. fold s J in Hh0, Hag.
    destruct (reads_first _ _ _ _ Hex (ao_reads _ _ _ Hact))
      as (c' & e' & Hc' & He' & Hagw & _). fold s in He'.
    rewrite Hc0 in Hc'. injection Hc' as <-. rewrite He in He'.
    injection He' as <-. unfold Edge.length in Hagw. fold k in Hagw.
    rewrite Z.min_l in Hagw by lia.
    assert (agree (seq t) (Suffix.first_obj_index (active t))
              (Edge.first_obj_index e) (k + 2)) as Hagw'.
    { replace (k + 2) with (k + 1 + 1) by lia.
      apply agree_app; [lia|done|].
      replace (Suffix.first_obj_index (active t) + (k + 1)) with i by lia.
      eapply agree_one; try done; lia. }
    split; [|split].
    + intros Hpos. exfalso.
      destruct (Hpend Hpos) as (Hdl & Hagl & [Hge|(x & Hx0 & Hxi & Hne & Hagx)]);
        [lia|]. fold J in Hdl, Hagl, Hagx.
      set (q := x - d lpn + 1) in *.
      assert (agree (seq t) q J (d lpn - 1)) as Hq.
      { replace J with (J - 1 + 1) at 1 by lia. unfold q.
        apply agree_shift; [lia|done]. }
      assert (reads t 0 q x) as Hr0
        by (apply (si_complete _ _ _ _ _ Hsem); unfold q; lia).
      destruct (si_loc _ _ _ _ _ Hsem s Hsrc) as [Hps Hw].
      apply (walk_agree _ _ _ _ q) in Hw; [|done|unfold q; lia|].
      2:{ replace (pos s + d s - 1 - pos s + 1) with (d s) by lia.
          eapply agree_trans; [apply agree_sym; exact (ao_path _ _ _ Hact)|].
          fold J. apply agree_sym. eapply agree_le; [|exact Hq]. lia. }
      replace (q + (pos s + d s - 1 - pos s)) with (q + d s - 1) in Hw by lia.
      apply (walk_reads _ _ _ _ _ x) in Hw; [|unfold q; lia|done].
      replace (q + d s - 1 + 1) with (q + d s) in Hw by lia.
      assert (q + d s ≤ x) as Hqx by (unfold q, k in *; lia).
      destruct (reads_first _ _ _ _ Hqx Hw)
        as (c' & e' & Hc' & He' & Hagx' & _).
      assert (py_index (seq t) (q + d s) = Ok c0) as Hc0'.
      { apply py_index_Ok; [unfold q; lia|].
        rewrite (Hq (d s)) by lia.
        replace (J + d s) with (Suffix.first_obj_index (active t)) by lia.
        apply index_lookup; [lia|done]. }
      rewrite Hc0' in Hc'. injection Hc' as <-. rewrite He in He'.
      injection He' as <-. unfold Edge.length in Hagx'.
      replace (x - (q + d s)) with (k + 1) in Hagx' by (unfold q; lia).
      rewrite Z.min_l in Hagx' by lia.
      specialize (Hagx' (k + 1) ltac:(lia)).
      replace (q + d s + (k + 1)) with x in Hagx' by (unfold q; lia).
      apply Hne. rewrite Hagx'.
      rewrite (index_lookup (seq t) (Edge.first_obj_index e + (k + 1)) c)
        by (lia || exact Hc1).
      symmetry. apply index_lookup; [lia|done].
    + eapply reads_in; [lia|exact Hc0|exact He|unfold Edge.length; lia|].
      replace (i - Suffix.first_obj_index (active t) + 1) with (k + 2)
        by (unfold k; lia). done.
    + exists (Edge.first_obj_index e - d s). split; [done|]. split; [lia|].
      replace (i - J + 1) with (d s + (k + 2)) by (unfold k; lia).
      apply agree_app; [done|done|].
      replace (J + d s) with (Suffix.first_obj_index (active t)) by lia.
      replace (Edge.first_obj_index e - d s + d s)
        with (Edge.first_obj_index e) by lia.
      done.
Qed.
End DeepBreak.

(** ** The end of a phase *)
Section DeepFinish.
Context {A : Type} `{Countable A}.
Implicit Types (t : @tree A _ _) (d pos : Z → Z) (e edge : Edge.t) (n v J : Z).

(** Once the word [seq[J .. i]] is known to stand somewhere before position
    [i], every word of [seq[0 .. i]] can be read from the root. *)
Lemma complete_step d pos i J t :
  sem_inv d pos i J t → 0 ≤ J → i ≤ N t →
  (∃ h, 0 ≤ h ∧ h + (i - J) < i ∧ agree (seq t) J h (i - J + 1)) →
  sem_inv d pos (i + 1) J t.
Proof.
  intros [Hroot Hedges Hloc si_complete0 si_leaves0] HJ Hi (h & Hh0 & Hhi & Hag).
  constructor; try done.
  intros a b Ha Hb.
  destruct (decide (b < i)) as [?|?]; [by apply si_complete0|].
  assert (b = i) as -> by lia.
  destruct (decide (i < a)) as [?|?]; [by apply reads_nil|].
  destruct (decide (a < J)) as [?|?].
  - apply (reads_prefix _ _ _ (N t)); [done|]. apply si_leaves0. lia.
  - replace i with (a + (h + (i - J) - (h + (a - J)))) at 1 by lia.
    apply reads_agree; [lia|done| |apply si_complete0; lia].
    replace (h + (i - J) - (h + (a - J)) + 1)
      with (i - J + 1 - (a - J)) by lia.
    replace a with (J + (a - J)) at 2 by lia.
    apply agree_sym. apply agree_shift; [lia|done].
Qed.

Lemma link_last_parent_Ok t lpn p :
  (0 < lpn → lpn < py_len (nodes t)) →
  link_last_parent t lpn p
  = Ok (if 0 <? lpn
        then set_nodes t (<[Z.to_nat lpn := Node.mk p]> (nodes t))
        else t).
Proof.
  intros Hl. unfold link_last_parent.
  destruct (Z.ltb_spec 0 lpn) as [Hpos|Hneg]; [|done].
  unfold set_suffix_node.
  destruct (py_index_lt (nodes t) lpn) as (nd & Hnd & _); [by auto with lia|].
  rewrite Hnd. simpl. by rewrite py_norm_nonneg by lia.
Qed.

Lemma head_inv_lpn_valid d i lpn t :
  head_inv d i lpn t → 0 < lpn → is_branch t lpn ∧ lpn < py_len (nodes t).
Proof.
  intros [_ _ _ _ Hlpn _] Hpos.
  destruct Hlpn as [?|[?|(_ & Hb & _)]]; [lia..|].
  split; [done|]. by destruct Hb as [[_ ?] _].
Qed.

(** Setting the link of a node that is a branch already. *)
Lemma relink_branch t lpn p n :
  is_branch t lpn → 0 < lpn →
  is_branch (set_nodes t (<[Z.to_nat lpn := Node.mk p]> (nodes t))) n →
  is_branch t n.
Proof.
  intros Hb Hpos Hn. pose proof Hb as [[_ Hlt] _].
  apply is_branch_insert_inv in Hn as [->|?]; [done|done|lia].
Qed.

Lemma deep_finish d pos i lpn (cfuel : nat) t :
  deep_head d pos i lpn t → _add_prefix_test t i = Ok None →
  test_case t i None → (Z.to_nat (N t + 1) < cfuel)%nat →
  ∃ t', _add_prefix_finish cfuel t lpn
          (Suffix.source_node_index (active t)) = Ok t' ∧
        deep_phase d pos (i + 1) t' ∧ seq t' = seq t.
Proof.
  intros Hdeep Htest Hcase Hfuel.
  destruct (break_facts _ _ _ _ _ Hdeep Hcase) as (Hfirst & Hreads & Hocc).
  destruct Hdeep as [Hh Hcan Hsem Hlinks Hact Hpend].
  pose proof (head_inv_depth_src _ _ _ _ Hh) as Hds.
  pose proof Hh as [[Ht _ Hsrc Hlast] Hi Hl Hf Hlpn Hcount].
  set (J := start d t) in *. set (s := Suffix.source_node_index (active t)) in *.
  assert (0 ≤ J) as HJ by by destruct Hcount.
  assert (Suffix.first_obj_index (active t) = J + d s) as HfJ
    by (unfold J, start; fold s; lia).
  set (t1 := if 0 <? lpn
             then set_nodes t (<[Z.to_nat lpn := Node.mk s]> (nodes t))
             else t).
  assert (link_last_parent t lpn s = Ok t1) as Hlink.
  { apply link_last_parent_Ok. intros Hpos.
    by destruct (head_inv_lpn_valid _ _ _ _ Hh Hpos). }
  assert (seq t1 = seq t ∧ edges t1 = edges t ∧ active t1 = active t ∧
          N t1 = N t) as (Hs1 & He1 & Ha1 & HN1).
  { unfold t1. by destruct (0 <? lpn). }
  assert (∀ n, is_branch t1 n → is_branch t n) as Hb1.
  { unfold t1. destruct (Z.ltb_spec 0 lpn) as [Hpos|Hneg]; [|done].
    intros n. destruct (head_inv_lpn_valid _ _ _ _ Hh Hpos) as [Hbl _].
    by apply relink_branch. }
  set (ta := set_active t1
               (Suffix.mk (Suffix.source_node_index (active t1))
                  (Suffix.first_obj_index (active t1))
                  (Suffix.last_obj_index (active t1) + 1))).
  pose proof (finish_active_inv d i lpn t t1 Hh Hlink) as Hinva.
  fold ta in Hinva. fold J in Hinva.
  assert (sem_inv d pos (i + 1) J ta) as Hsema.
  { apply sem_inv_set_active. apply (sem_inv_ext d pos (i + 1) J t); try done.
    apply complete_step; try done. lia. }
  assert (act_ok d pos ta) as Hacta.
  { destruct Hact as [Hpath _]. unfold ta.
    constructor; unfold start; simpl; rewrite ?Ha1, ?Hs1.
    - exact Hpath.
    - apply (reads_ext t); [exact Hs1|exact He1|]. rewrite Hl.
      replace (i - 1 + 1) with i by lia. exact Hreads. }
  destruct (deep_canonize d pos (i + 1) J ta cfuel Hinva HJ Hsema Hacta)
    as (t' & Hc & Hact').
  { unfold window, ta, Suffix.length. simpl. rewrite Ha1. lia. }
  exists t'.
  assert (_add_prefix_finish cfuel t lpn s = Ok t') as Hfin.
  { unfold _add_prefix_finish. rewrite Hlink. simpl. exact Hc. }
  split; [exact Hfin|].
  destruct (finish_phase d i lpn cfuel t t' Hh Htest Hfin) as [Hph Hseq].
  destruct (frame_canonize _ _ _ Hc) as ((_ & HN' & _ & _) & Hn' & He').
  destruct (canonize_spec _ _ _ _ _ Hinva Hc) as (Hinv' & _ & _ & _ & Hs' & _).
  pose proof (ai_start _ _ _ Hinv') as Hst'.
  split; [|done]. constructor; rewrite <- ?Hst'; try done.
  - apply (sem_inv_ext d pos (i + 1) J ta); try done.
    intros n. by apply is_branch_nodes.
  - apply (links_ok_nodes d pos ta); [done|done|].
    apply (links_ok_nodes d pos t1); [done|done|].
    intros n Hn0 Hbn _. rewrite Hs1.
    unfold t1 in *. destruct (Z.ltb_spec 0 lpn) as [Hpos|Hneg].
    + destruct (head_inv_lpn_valid _ _ _ _ Hh Hpos) as [Hbl Hlt].
      rewrite suffix_link_insert by lia. case_decide as Hnl.
      * subst n. destruct (Hpend Hpos) as (Hdl & Hagl & _).
        fold J in Hdl, Hagl. specialize (Hfirst Hpos).
        split; [lia|].
        eapply agree_trans;
          [apply agree_sym; eapply agree_le; [|exact (ao_path _ _ _ Hact)]|].
        { fold s. lia. }
        fold J. apply agree_sym. replace J with (J - 1 + 1) at 1 by lia.
        apply agree_shift; [lia|done].
      * apply Hlinks; try done. by apply Hb1.
    + apply Hlinks; try done. lia.
Qed.
End DeepFinish.

(** ** Between the test and the new leaf *)
Section DeepMid.
Context {A : Type} `{Countable A}.
Implicit Types (t : @tree A _ _) (d pos : Z → Z) (e edge : Edge.t) (n v J : Z).

Lemma is_branch_append_cases t v n :
  1 ≤ py_len (nodes t) →
  is_branch (set_nodes t (nodes t ++ [Node.mk v])) n →
  n = py_len (nodes t) ∨ is_branch t n.
Proof.
  intros Hlen [Hn Hl]. simpl in Hn. rewrite py_len_app_one in Hn.
  destruct (decide (n = py_len (nodes t))) as [?|Hne]; [by left|right].
  destruct Hl as [->|Hl]; [by apply is_branch_root|].
  rewrite suffix_link_append in Hl by lia. rewrite decide_False in Hl by done.
  split; [lia|by right].
Qed.

Lemma tree_inv_fresh d J t (c : A) :
  tree_inv d J t → edges t !! (py_len (nodes t), c) = None.
Proof.
  intros Ht. destruct (edges t !! (py_len (nodes t), c)) as [e|] eqn:He;
    [|done].
  destruct (ti_edges _ _ _ Ht _ _ He) as [Hs _ _ _ _ [[_ Hlt] _] _ _ _ _].
  simpl in Hs. lia.
Qed.

Lemma tree_inv_edge_valid d J t key e :
  tree_inv d J t → edges t !! key = Some e →
  0 ≤ Edge.source_node_index e < py_len (nodes t) ∧
  0 ≤ Edge.dest_node_index e < py_len (nodes t).
Proof.
  intros Ht He.
  destruct (ti_edges _ _ _ Ht _ _ He) as [_ _ _ _ _ [Hs _] Hd _ _ _].
  split; [done|lia].
Qed.

Lemma deep_mid_explicit d pos i lpn t c :
  deep_head d pos i lpn t →
  Suffix.explicit (active t) = true →
  py_index (seq t) i = Ok c →
  edges t !! (Suffix.source_node_index (active t), c) = None →
  _add_prefix_test t i = Ok (Some (t, Suffix.source_node_index (active t))) →
  deep_mid d pos d pos i lpn t t (Suffix.source_node_index (active t)).
Proof.
  intros [Hh Hcan Hsem Hlinks Hact Hpend] Hex Hc Hnone Htest.
  destruct (test_continue _ _ _ _ _ _ Hh Hcan Htest) as (d' & Hd' & Hpost).
  pose proof Hh as [[Ht _ Hsrc Hlast] Hi Hl Hf Hlpn Hcount].
  assert (Suffix.first_obj_index (active t) = i) as Hfi.
  { apply explicit_true in Hex. pose proof (tp_first _ _ _ _ _ _ Hpost). lia. }
  constructor; try done.
  - destruct Hpost as [Ht1 Hact1 Hseq Hmono Hp Hdp Hfi' Hlen Hexp Hsize].
    pose proof Hsrc as [Hsv _].
    constructor; try done. rewrite <- (Hd' _ Hsv). done.
  - intros n Hn Hb [Hnl _]. by apply Hlinks.
  - pose proof (ao_path _ _ _ Hact) as Hp. done.
  - intros c' Hc'. rewrite Hc in Hc'. by injection Hc' as <-.
  - intros n Hn. by right.
  - intros _. left. lia.
Qed.

Lemma deep_mid_split d pos i lpn t c0 e c1 c2 :
  deep_head d pos i lpn t →
  Suffix.explicit (active t) = false →
  py_index (seq t) (Suffix.first_obj_index (active t)) = Ok c0 →
  edges t !! (Suffix.source_node_index (active t), c0) = Some e →
  Suffix.length (active t) < Edge.length e →
  py_index (seq t)
    (Edge.first_obj_index e + (Suffix.length (active t) + 1)) = Ok c1 →
  py_index (seq t) i = Ok c2 → c1 ≠ c2 →
  _add_prefix_test t i
  = Ok (Some (split_result t e (active t) c0 c1, py_len (nodes t))) →
  ∃ d' pos',
    deep_mid d pos d' pos' i lpn t
      (split_result t e (active t) c0 c1) (py_len (nodes t)).
Proof.
  intros [Hh Hcan Hsem Hlinks Hact Hpend] Hex Hc0 He Hlt Hc1 Hc2 Hne Htest.
  destruct (test_continue _ _ _ _ _ _ Hh Hcan Htest) as (d' & Hd' & Hpost).
  pose proof (head_inv_depth_src _ _ _ _ Hh) as Hds.
  pose proof Hh as [[Ht _ Hsrc Hlast] Hi Hl Hf Hlpn Hcount].
  apply explicit_false in Hex.
  set (J := start d t) in *. set (s := Suffix.source_node_index (active t)) in *.
  set (k := Suffix.length (active t)) in *.
  set (new := py_len (nodes t)) in *.
  set (t1 := split_result t e (active t) c0 c1) in *.
  assert (Suffix.first_obj_index (active t) = J + d s) as HfJ
    by (unfold J, start; fold s; lia).
  assert (k = i - 1 - Suffix.first_obj_index (active t)) as Hk
    by (unfold k, Suffix.length; lia).
  destruct (ti_edges _ _ _ Ht _ _ He)
    as [Hes Hesym Hefirst Hespan Helast _ Hedest Hedepth _ Hehead].
  simpl in Hes, Hesym.
  destruct (path_before_edge d pos i i lpn t _ e Hh Hsem Hact He)
    as (Hh0 & Hlt' & Hag); [done|]. fold s J in Hh0, Hag.
  set (h := Edge.first_obj_index e - d s) in *.
  destruct (reads_first _ _ _ _ Hex (ao_reads _ _ _ Hact))
    as (c' & e' & Hc' & He' & Hagw & _). fold s in He'.
  rewrite Hc0 in Hc'. injection Hc' as <-. rewrite He in He'.
  injection He' as <-.
  replace (Suffix.last_obj_index (active t)
           - Suffix.first_obj_index (active t)) with k in Hagw
    by (unfold k, Suffix.length; lia).
  rewrite Z.min_l in Hagw by lia.
  pose proof Hsrc as [Hsv _]. fold s new in Hsv.
  pose proof (ti_nodes _ _ _ Ht) as Hn1. fold new in Hn1.
  destruct Hpost as [Ht1 Hact1 Hseq Hmono Hp Hdp Hfi' Hlen Hexp Hsize].
  fold J in Ht1, Hdp.
  set (pos' := λ n, if decide (n = new) then h else pos n).
  assert (∀ n, 0 ≤ n < new → pos' n = pos n) as Hpos'.
  { intros n Hn. unfold pos'. rewrite decide_False; [done|lia]. }
  assert (pos' new = h) as Hposnew by (unfold pos'; by rewrite decide_True).
  assert (d' new = d s + k + 1) as Hdnew by lia.
  assert (∀ c, edges t !! (new, c) = None) as Hfresh
    by (intros c; by eapply tree_inv_fresh).
  assert (agree (seq t) J h (d s + (k + 1))) as Hpath.
  { apply agree_app; [done|done|].
    replace (J + d s) with (Suffix.first_obj_index (active t)) by lia.
    replace (h + d s) with (Edge.first_obj_index e) by (unfold h; lia).
    exact Hagw. }
  assert (∀ n a b, 0 ≤ a → reads t n a b → reads t1 n a b) as Hreads.
  { intros n a b Ha. apply (reads_split t e (active t) c0 c1); try done.
    fold k. unfold Edge.length in *. lia. }
  assert (∀ n a b n', 0 ≤ a → walk t n a b n' → walk t1 n a b n') as Hwalk.
  { intros n a b n' Ha. apply (walk_split t e (active t) c0 c1); try done.
    fold k. unfold Edge.length in *. lia. }
  exists d', pos'. constructor.
  - intros n Hn. split; [by apply Hd'|by apply Hpos'].
  - by constructor.
  - (* what the tree holds *)
    destruct Hsem as [Hroot Hedges Hloc Hcomp Hleaves]. constructor.
    + rewrite Hpos' by lia. done.
    + intros key e1. unfold t1, split_result. simpl. fold new s k.
      rewrite lookup_insert. case_decide as Hk1.
      { intros [= <-]. simpl. rewrite Hposnew.
        destruct (Hedges _ _ He) as (Hpd & Hpd0 & _). rewrite <- Hes in Hpd.
        fold s h in Hpd. rewrite Hpos' by lia. rewrite Hpd.
        split; [lia|]. split; [done|]. apply agree_refl. }
      rewrite lookup_insert. case_decide as Hk2.
      { intros [= <-]. simpl. rewrite Hposnew, !Hd', Hpos' by done.
        split; [done|]. split; [done|].
        destruct (Hedges _ _ He) as (Hpd & _ & Hage). rewrite <- Hes in Hpd, Hage.
        fold s h in Hpd. rewrite Hpd in Hage. exact Hage. }
      intros He1%lookup_delete_Some. destruct He1 as [_ He1].
      destruct (tree_inv_edge_valid _ _ _ _ _ Ht He1) as [Hv1 Hv2].
      fold new in Hv1, Hv2. rewrite !Hpos', !Hd' by done.
      exact (Hedges _ _ He1).
    + intros n Hn.
      apply is_branch_append_cases in Hn as [->|Hn]; [| |exact Hn1].
      * fold new. rewrite Hposnew. split; [done|].
        destruct (Hloc s Hsrc) as [Hps Hw].
        apply (walk_agree _ _ _ _ h) in Hw; [|done|done|].
        2:{ replace (pos s + d s - 1 - pos s + 1) with (d s) by lia.
            eapply agree_trans; [apply agree_sym; exact (ao_path _ _ _ Hact)|].
            fold J. eapply agree_le; [|exact Hpath]. lia. }
        apply Hwalk in Hw; [|done].
        eapply walk_app; [exact Hw|].
        replace (h + (pos s + d s - 1 - pos s) + 1)
          with (Edge.first_obj_index e) by (unfold h; lia).
        replace (h + d' new - 1) with (Edge.first_obj_index e + k)
          by (unfold h; lia).
        apply (walk_split_new t e (active t) c0 c1); try done.
        fold k. unfold Edge.length in *. lia.
      * pose proof Hn as [Hnv _]. fold new in Hnv.
        rewrite Hpos', Hd' by done. destruct (Hloc n Hn) as [Hpn Hw].
        split; [done|]. by apply Hwalk.
    + intros a b Ha Hb. apply Hreads; [done|]. by apply Hcomp.
    + intros j Hj. apply Hreads; [lia|]. by apply Hleaves.
  - (* links *)
    intros n Hn0 Hbn [Hnl Hnold].
    apply is_branch_append_cases in Hbn as [->|Hbn]; [lia| |exact Hn1].
    unfold t1, split_result, suffix_link. simpl.
    rewrite lookup_app_l by (unfold py_len in Hnold; lia).
    change (match nodes t !! Z.to_nat n with
            | Some nd => Node.suffix_node nd | None => -1 end)
      with (suffix_link t n).
    destruct (Hlinks n Hn0 Hbn Hnl) as [Hdl Hagl].
    destruct (ti_links _ _ _ Ht n Hn0 (is_branch_link _ _ Hbn ltac:(lia)))
      as [[Hv _] _]. fold new in Hv, Hnold.
    rewrite !Hd', !Hpos' by lia. done.
  - rewrite Hposnew, Hdnew.
    replace (d s + k + 1) with (d s + (k + 1)) by lia. exact Hpath.
  - intros c Hc. rewrite Hc2 in Hc. injection Hc as <-.
    unfold t1, split_result. simpl. fold new s.
    rewrite lookup_insert_ne by (intros [= ?]; done).
    rewrite lookup_insert_ne by (intros [= ? _]; lia).
    rewrite lookup_delete_ne by (intros [= ? _]; lia). apply Hfresh.
  - intros n Hn.
    apply is_branch_append_cases in Hn as [->|Hn]; [by left|by right|exact Hn1].
  - intros _. right. exists (Edge.first_obj_index e + (k + 1)).
    rewrite Hdnew. replace (Edge.first_obj_index e + (k + 1) - (d s + k + 1))
      with h by (unfold h; lia).
    split; [done|]. split; [lia|]. split.
    + rewrite (index_lookup (seq t) (Edge.first_obj_index e + (k + 1)) c1)
        by (lia || exact Hc1).
      rewrite (index_lookup (seq t) i c2) by (lia || exact Hc2). congruence.
    + apply agree_sym. replace (d s + k + 1) with (d s + (k + 1)) by lia.
      exact Hpath.
Qed.
End DeepMid.

(** ** The new leaf and the move to the next suffix *)
Section DeepExtend.
Context {A : Type} `{Countable A}.
Implicit Types (t : @tree A _ _) (d pos : Z → Z) (e edge : Edge.t) (n v J : Z).

Lemma result_bind_Ok {T U : Type} (x : T) (k : T → result U) :
  Ok x ≫= k = k x.
Proof. done. Qed.

Lemma relinked_frame t lpn p :
  seq (relinked t lpn p) = seq t ∧ edges (relinked t lpn p) = edges t ∧
  active (relinked t lpn p) = active t ∧ N (relinked t lpn p) = N t ∧
  py_len (nodes (relinked t lpn p)) = py_len (nodes t).
Proof.
  unfold relinked. destruct (0 <? lpn); [|done]. simpl.
  repeat split. unfold py_len. by rewrite length_insert.
Qed.

Lemma relinked_link t lpn p n :
  0 ≤ n → (0 < lpn → lpn < py_len (nodes t)) →
  suffix_link (relinked t lpn p) n
  = if decide (0 < lpn ∧ n = lpn) then p else suffix_link t n.
Proof.
  intros Hn Hl. unfold relinked.
  destruct (Z.ltb_spec 0 lpn) as [Hpos|Hneg].
  - rewrite suffix_link_insert by auto with lia.
    repeat case_decide; try done; lia.
  - rewrite decide_False by lia. done.
Qed.

Lemma relinked_branch t lpn p n :
  (0 < lpn → is_branch t lpn) →
  is_branch (relinked t lpn p) n → is_branch t n.
Proof.
  intros Hl. unfold relinked. destruct (Z.ltb_spec 0 lpn) as [Hpos|Hneg];
    [|done].
  by apply relink_branch; [apply Hl|].
Qed.

Lemma extend_eq t1 i lpn p c :
  py_index (seq t1) i = Ok c →
  (0 < lpn → lpn < py_len (nodes t1)) →
  0 ≤ Suffix.source_node_index (active t1) < py_len (nodes t1) →
  let tb := relinked (with_leaf t1 i p c) lpn p in
  _add_prefix_extend t1 i lpn p = Ok (set_active tb (next_active tb)).
Proof.
  intros Hc Hl Hs tb. unfold _add_prefix_extend.
  rewrite (insert_edge_eq _ _ c) by done. simpl.
  rewrite py_len_app_one.
  replace (py_len (nodes t1) + 1 - 1) with (py_len (nodes t1)) by lia.
  change (set_edges (append_node t1)
            (<[(p, c) := Edge.mk i (N t1) p (py_len (nodes t1))]> (edges t1)))
    with (with_leaf t1 i p c).
  rewrite link_last_parent_Ok.
  2:{ intros Hpos. simpl. rewrite py_len_app_one. specialize (Hl Hpos). lia. }
  fold (relinked (with_leaf t1 i p c) lpn p). fold tb.
  rewrite result_bind_Ok.
  destruct (relinked_frame (with_leaf t1 i p c) lpn p)
    as (_ & _ & Ha & _ & Hlen). fold tb in Ha, Hlen. simpl in Ha, Hlen.
  rewrite py_len_app_one in Hlen.
  unfold next_active. case_decide as Hs0; [done|].
  destruct (py_index_lt (nodes tb) (Suffix.source_node_index (active tb)))
    as (nd & Hnd & Hlook); [rewrite Ha, Hlen; lia|].
  rewrite Hnd, result_bind_Ok. unfold suffix_link. rewrite Hlook. done.
Qed.
End DeepExtend.

Section DeepExtend2.
Context {A : Type} `{Countable A}.
Implicit Types (t : @tree A _ _) (d pos : Z → Z) (e edge : Edge.t) (n v J : Z).

Lemma with_leaf_link t i p c n :
  0 ≤ n < py_len (nodes t) →
  suffix_link (with_leaf t i p c) n = suffix_link t n.
Proof.
  intros Hn. unfold suffix_link, with_leaf. simpl.
  rewrite lookup_app_l by (unfold py_len in Hn; lia). done.
Qed.

Lemma with_leaf_branch t i p c n :
  1 ≤ py_len (nodes t) → is_branch (with_leaf t i p c) n → is_branch t n.
Proof. intros Hlen Hb. by apply is_branch_append_inv. Qed.

Lemma with_leaf_branch_mono t i p c n :
  is_branch t n → is_branch (with_leaf t i p c) n.
Proof. intros Hb. by apply (is_branch_append t (-1)). Qed.

Lemma next_active_cases t :
  (Suffix.source_node_index (active t) = 0 ∧
   next_active t = Suffix.mk 0 (Suffix.first_obj_index (active t) + 1)
                     (Suffix.last_obj_index (active t))) ∨
  (Suffix.source_node_index (active t) ≠ 0 ∧
   next_active t = Suffix.mk (suffix_link t (Suffix.source_node_index (active t)))
                     (Suffix.first_obj_index (active t))
                     (Suffix.last_obj_index (active t))).
Proof.
  unfold next_active. case_decide as Hs0; [left|right]; split; try done.
  by rewrite Hs0.
Qed.

Lemma deep_extend d pos d' pos' i lpn t t1 p :
  deep_head d pos i lpn t → deep_mid d pos d' pos' i lpn t t1 p →
  ∃ t2 d'' pos'',
    _add_prefix_extend t1 i lpn p = Ok t2 ∧
    head_inv d'' i p t2 ∧ start d'' t2 = start d t + 1 ∧ seq t2 = seq t ∧
    sem_inv d'' pos'' i (start d'' t2) t2 ∧
    links_ok d'' pos'' t2 (λ n, n ≠ p) ∧
    act_ok d'' pos'' t2 ∧ pend_ok d'' pos'' i p t2.
Proof.
  intros [Hh Hcan Hsem Hlinks Hact Hpend]
         [Hold Hpost Hsem1 Hlinks1 Hpath Hfree Hbranch Hpend1].
  pose proof (head_inv_depth_src _ _ _ _ Hh) as Hds.
  destruct (head_inv_index _ _ _ _ Hh) as (ci & Hci).
  pose proof Hh as [[Ht _ Hsrc Hlast] Hi Hl Hf Hlpn Hcount].
  pose proof Hpost as [Ht1 Hact1 Hseq Hmono Hp Hdp Hfi Hlen Hexp Hsize].
  set (J := start d t) in *. set (s := Suffix.source_node_index (active t)) in *.
  assert (Suffix.first_obj_index (active t) = J + d s) as HfJ
    by (unfold J, start; fold s; lia).
  assert (0 ≤ J) as HJ by by destruct Hcount.
  set (newl := py_len (nodes t1)) in *.
  pose proof Hsrc as [Hsv _]. fold s in Hsv.
  pose proof Hp as [Hpv _]. fold newl in Hpv.
  pose proof (ti_nodes _ _ _ Ht1) as Hn1. fold newl in Hn1.
  assert (N t1 = N t) as HN.
  { rewrite (ti_N _ _ _ Ht1), (ti_N _ _ _ Ht), Hseq. done. }
  assert (0 < lpn → is_branch t lpn ∧ lpn < py_len (nodes t) ∧
                    d lpn = i - J + 1 ∧
                    agree (seq t) (pos lpn) (J - 1) (d lpn)) as Hlpn'.
  { intros Hpos. destruct (head_inv_lpn_valid _ _ _ _ Hh Hpos) as [? ?].
    destruct (Hpend Hpos) as (? & ? & _). done. }
  set (ta := with_leaf t1 i p ci).
  set (tb := relinked ta lpn p).
  set (t2 := set_active tb (next_active tb)).
  assert (_add_prefix_extend t1 i lpn p = Ok t2) as Heq.
  { apply extend_eq.
    - by rewrite Hseq.
    - intros Hpos. destruct (Hlpn' Hpos) as (_ & ? & _). lia.
    - rewrite Hact1. fold s. lia. }
  destruct (extend_head d d' i lpn t t1 p t2 Hh) as (d'' & Hh2 & _ & Hseq2 & Hd'');
    [intros n Hn; by apply Hold|done|done|]. fold newl in Hd''.
  destruct (relinked_frame ta lpn p) as (Hsb & Heb & Hab & HNb & Hlenb).
  fold tb in Hsb, Heb, Hab, HNb, Hlenb. simpl in Hsb, Heb, Hab, HNb, Hlenb.
  rewrite py_len_app_one in Hlenb. fold newl in Hlenb.
  assert (∀ n, is_branch tb n → is_branch t1 n) as Hb1.
  { intros n Hn. apply (with_leaf_branch t1 i p ci); [done|].
    apply (relinked_branch ta lpn p); [|done].
    intros Hpos. apply with_leaf_branch_mono, Hmono.
    by destruct (Hlpn' Hpos). }
  assert (∀ n, 0 ≤ n < newl →
            suffix_link tb n
            = if decide (0 < lpn ∧ n = lpn) then p else suffix_link t1 n)
    as Hlinkb.
  { intros n Hn. unfold tb. rewrite relinked_link.
    - unfold ta. by rewrite with_leaf_link.
    - lia.
    - intros Hpos. simpl. rewrite py_len_app_one. fold newl.
      destruct (Hlpn' Hpos) as (_ & ? & _). lia. }
  assert (edges t1 ⊆ edges tb) as Hsub.
  { rewrite Heb. apply insert_subseteq. apply Hfree. done. }
  set (pos'' := λ n, if decide (n = newl) then J else pos' n).
  assert (∀ n, 0 ≤ n < newl → pos'' n = pos' n) as Hpos''.
  { intros n Hn. unfold pos''. rewrite decide_False; [done|lia]. }
  assert (pos'' newl = J) as Hposl by (unfold pos''; by rewrite decide_True).
  assert (d'' s = d s ∧ pos'' s = pos s) as [Hds'' Hps''].
  { rewrite Hd'', Hpos'' by lia. by apply Hold. }
  assert (d'' p = i - J ∧ pos'' p = pos' p) as [Hdp'' Hpp''].
  { rewrite Hd'', Hpos'' by lia. done. }
  assert (d'' 0 = 0) as Hd0.
  { destruct Hh2 as [[Ht2 _ _ _] _ _ _ _ _]. exact (ti_root _ _ _ Ht2). }
  (* the suffix link that the active point follows *)
  assert (s ≠ 0 →
          let v := suffix_link tb s in
          is_branch t1 v ∧ d'' v = d s - 1 ∧
          agree (seq t) (pos'' v) (pos s + 1) (d s - 1)) as Hfollow.
  { intros Hs0 v.
    assert (¬ (0 < lpn ∧ s = lpn)) as Hsl.
    { intros [Hpos ->]. destruct (Hlpn' Hpos) as (_ & _ & ? & _). lia. }
    assert (v = suffix_link t1 s) as Hv.
    { unfold v. rewrite Hlinkb by lia. by rewrite decide_False. }
    destruct (Hlinks1 s ltac:(lia) (Hmono _ Hsrc)) as [Hdl Hagl].
    { split; [|lia]. intros ->. apply Hsl. split; [lia|done]. }
    rewrite <- Hv in Hdl, Hagl.
    destruct (ti_links _ _ _ Ht1 s ltac:(lia)) as [Hbv _].
    { apply is_branch_link; [by apply Hmono|done]. }
    rewrite <- Hv in Hbv. pose proof Hbv as [Hvv _]. fold newl in Hvv.
    destruct (Hold s Hsv) as [Hds1 Hps1].
    split; [done|]. rewrite Hd'', Hpos'' by done.
    rewrite Hds1, Hps1 in *. rewrite <- Hseq. done. }
  assert ((s = 0 ∧
           active t2 = Suffix.mk 0 (Suffix.first_obj_index (active t) + 1)
                         (Suffix.last_obj_index (active t))) ∨
          (s ≠ 0 ∧
           active t2 = Suffix.mk (suffix_link tb s)
                         (Suffix.first_obj_index (active t))
                         (Suffix.last_obj_index (active t)))) as Hna.
  { change (active t2) with (next_active tb).
    destruct (next_active_cases tb) as [[H0 ->]|[H0 ->]];
      rewrite Hab in *; simpl in *; rewrite Hact1 in *; fold s in H0;
      [by left|by right]. }
  assert (start d'' t2 = J + 1) as Hst2.
  { unfold start. destruct Hna as [[Hs0 ->]|[Hs0 ->]]; simpl.
    - rewrite Hs0 in *. rewrite Hd0. lia.
    - destruct (Hfollow Hs0) as (_ & Hdv & _). rewrite Hdv. lia. }
  exists t2, d'', pos''. split; [done|]. split; [done|]. split; [done|].
  split; [done|]. rewrite Hst2.
  assert (sem_inv d'' pos'' i (J + 1) tb) as Hsemb.
  { destruct Hsem1 as [Hroot Hedges Hloc Hcomp Hleaves]. constructor.
    - rewrite Hpos'' by lia. done.
    - intros key e He. rewrite Heb in He. rewrite Hsb.
      apply lookup_insert_Some in He as [[<- <-]|[Hne He]].
      + simpl. fold newl. rewrite Hposl, Hdp'', Hpp''.
        split; [lia|]. split; [done|]. rewrite Hseq, <- Hdp. done.
      + destruct (tree_inv_edge_valid _ _ _ _ _ Ht1 He) as [Hv1 Hv2].
        fold newl in Hv1, Hv2. rewrite !Hpos'', !Hd'' by done.
        exact (Hedges _ _ He).
    - intros n Hn%Hb1. pose proof Hn as [Hnv _]. fold newl in Hnv.
      rewrite Hpos'', Hd'' by done. destruct (Hloc n Hn) as [Hpn Hw].
      split; [done|]. by apply (walk_subseteq t1).
    - intros a b Ha Hb. apply (reads_subseteq t1); [done|done|].
      by apply Hcomp.
    - intros j Hj. rewrite HNb. simpl.
      destruct (decide (j < J)) as [HjJ|HjJ].
      + apply (reads_subseteq t1); [done|done|]. apply Hleaves. lia.
      + assert (j = J) as -> by lia.
        destruct (Hloc p Hp) as [Hpp0 Hw].
        apply (walk_agree _ _ _ _ J) in Hw; [|done|done|].
        2:{ replace (pos' p + d' p - 1 - pos' p + 1) with (d' p) by lia.
            apply agree_sym. rewrite Hseq. done. }
        apply (walk_subseteq t1 tb) in Hw; [|done|done].
        eapply walk_reads_app; [exact Hw|].
        replace (J + (pos' p + d' p - 1 - pos' p) + 1) with i by lia.
        eapply reads_in.
        * lia.
        * rewrite Hsb, Hseq. exact Hci.
        * rewrite Heb. apply lookup_insert_eq.
        * unfold Edge.length. simpl. lia.
        * apply agree_refl. }
  split; [by apply sem_inv_set_active|].
  split.
  { (* links *)
    intros n Hn0 Hbn Hnp.
    assert (is_branch t1 n) as Hbn1 by by apply Hb1.
    pose proof Hbn1 as [Hnv _]. fold newl in Hnv.
    destruct (Hbranch n Hbn1) as [?|Hbt]; [done|].
    pose proof Hbt as [Hnt _].
    change (suffix_link t2 n) with (suffix_link tb n).
    change (seq t2) with (seq tb). rewrite Hsb, Hseq.
    rewrite Hlinkb by lia.
    destruct (decide (0 < lpn ∧ n = lpn)) as [Hnl|Hnl].
    - destruct Hnl as [Hpos ->].
      destruct (Hlpn' Hpos) as (_ & Hlt & Hdl & Hagl).
      destruct (Hold lpn ltac:(lia)) as [Hdo Hpo].
      rewrite Hdp'', Hpp'', (Hd'' lpn), (Hpos'' lpn), Hdo, Hpo by lia.
      split; [lia|]. replace (d lpn - 1) with (i - J) by lia.
      eapply agree_trans; [apply agree_sym; rewrite <- Hdp; exact Hpath|].
      apply agree_sym. replace J with (J - 1 + 1) at 1 by lia.
      replace (i - J) with (d lpn - 1) by lia.
      apply agree_shift; [lia|done].
    - destruct (Hlinks1 n Hn0 Hbn1) as [Hdl Hagl].
      { split; [|lia]. intros ->. apply Hnl. split; [lia|done]. }
      destruct (ti_links _ _ _ Ht1 n Hn0 (is_branch_link _ _ Hbn1 ltac:(lia)))
        as [[Hv _] _]. fold newl in Hv.
      rewrite !Hd'', !Hpos'' by lia. rewrite <- Hseq. done. }
  split.
  { (* the active point *)
    constructor.
    - rewrite Hst2. change (seq t2) with (seq tb). rewrite Hsb, Hseq.
      destruct Hna as [[Hs0 ->]|[Hs0 ->]]; simpl.
      + rewrite Hd0. intros m Hm. lia.
      + destruct (Hfollow Hs0) as (_ & Hdv & Hagv). rewrite Hdv.
        eapply agree_trans; [|apply agree_sym; exact Hagv].
        replace (J + 1) with (J + 1) by lia.
        apply agree_shift; [lia|]. exact (ao_path _ _ _ Hact).
    - apply (reads_ext tb); [done|done|].
      destruct Hh2 as [[_ _ Hsrc2 _] _ _ _ _ _].
      destruct Hna as [[Hs0 Hna]|[Hs0 Hna]]; rewrite Hna in *; simpl in *.
      + apply (si_complete _ _ _ _ _ Hsemb); lia.
      + destruct (Hfollow Hs0) as (Hbv & Hdv & Hagv).
        assert (is_branch tb (suffix_link tb s)) as Hbvb by exact Hsrc2.
        destruct (si_loc _ _ _ _ _ Hsemb _ Hbvb) as [Hpv0 Hw].
        apply (walk_agree _ _ _ _ (J + 1)) in Hw; [|done|lia|].
        2:{ rewrite Hsb, Hseq.
            replace (pos'' (suffix_link tb s) + d'' (suffix_link tb s) - 1
                     - pos'' (suffix_link tb s) + 1) with (d s - 1) by lia.
            eapply agree_trans; [exact Hagv|]. apply agree_sym.
            apply agree_shift; [lia|]. exact (ao_path _ _ _ Hact). }
        apply (walk_reads _ _ _ _ _ (Suffix.last_obj_index (active t))) in Hw.
        * replace (J + 1 + (pos'' (suffix_link tb s)
                            + d'' (suffix_link tb s) - 1
                            - pos'' (suffix_link tb s)) + 1)
            with (Suffix.first_obj_index (active t)) in Hw by lia.
          exact Hw.
        * lia.
        * apply (si_complete _ _ _ _ _ Hsemb); lia. }
  (* the parent of the new leaf *)
  intros Hp0. rewrite Hst2. change (seq t2) with (seq tb). rewrite Hsb, Hseq.
  rewrite Hdp'', Hpp''. split; [lia|]. split.
  - replace (J + 1 - 1) with J by lia. apply agree_sym. rewrite <- Hdp. done.
  - replace (J + 1 - 1) with J by lia.
    assert (Suffix.first_obj_index (active t)
            ≤ Suffix.first_obj_index (active t2)) as Hfle.
    { destruct Hna as [[_ ->]|[_ ->]]; simpl; lia. }
    destruct (Hpend1 Hp0) as [?|(x & Hx)]; [left; lia|right].
    exists x. rewrite <- Hdp. done.
Qed.
End DeepExtend2.

(** ** One edge for every node but the root *)
Section ShapeSteps.
Context {A : Type} `{Countable A}.
Implicit Types (t : @tree A _ _) (d pos : Z → Z) (e edge : Edge.t) (n v J : Z).

Lemma link_last_parent_shape t lpn p t' :
  link_last_parent t lpn p = Ok t' →
  edges t' = edges t ∧ py_len (nodes t') = py_len (nodes t) ∧
  active t' = active t.
Proof.
  unfold link_last_parent. destruct (0 <? lpn).
  - intros [_ ->]%set_suffix_node_Ok. simpl. unfold py_len.
    by rewrite length_insert.
  - by intros [= <-].
Qed.

Lemma test_shape d i lpn t t1 p :
  head_inv d i lpn t → test_case t i (Some (t1, p)) →
  tree_shape t → tree_shape t1.
Proof.
  intros Hh Hcase Hshape.
  inversion Hcase as [c Hex Hc Hnone| |c0 e c1 c2 Hex Hc0 He Hlt Hc1 Hc2 Hne|];
    subst; [done|].
  destruct Hh as [[Ht _ Hsrc _] _ _ _ _ _].
  destruct (ti_edges _ _ _ Ht _ _ He) as [Hs _ _ _ _ _ _ _ _ _]. simpl in Hs.
  unfold tree_shape, split_result in *. simpl. rewrite py_len_app_one, <- Hs.
  rewrite map_size_insert_None.
  2:{ rewrite lookup_insert_ne by (intros [= E]; destruct Hsrc as [? _]; lia).
      rewrite lookup_delete_ne by (intros [= E]; destruct Hsrc as [? _]; lia).
      by eapply tree_inv_fresh. }
  rewrite map_size_insert_None by apply lookup_delete_eq.
  rewrite map_size_delete_Some by done.
  assert (size (edges t) ≠ 0%nat) as Hne0; [|lia].
  apply map_size_non_empty_iff. intros Hem. by rewrite Hem in He.
Qed.

Lemma extend_shape t1 i lpn p t2 :
  (∀ c, py_index (seq t1) i = Ok c → edges t1 !! (p, c) = None) →
  _add_prefix_extend t1 i lpn p = Ok t2 →
  tree_shape t1 → tree_shape t2.
Proof.
  intros Hfree Hext Hshape. unfold _add_prefix_extend in Hext.
  apply bind_Ok in Hext as (ta & Ha & Hext).
  apply bind_Ok in Hext as (tb & Hb & Hext).
  apply insert_edge_Ok in Ha as (c & Hc & ->). simpl in Hc.
  apply link_last_parent_shape in Hb as (He & Hn & _). simpl in He, Hn.
  rewrite py_len_app_one in Hn.
  assert (tree_shape tb) as Hsb.
  { unfold tree_shape in *. rewrite He, Hn.
    rewrite map_size_insert_None by by apply Hfree. lia. }
  case_decide.
  - by injection Hext as <-.
  - apply bind_Ok in Hext as (nd & _ & [= <-]). done.
Qed.

Lemma canonize_shape (fuel : nat) t t' :
  _canonize_suffix fuel t = Ok t' → tree_shape t → tree_shape t'.
Proof.
  intros (_ & Hn & He)%frame_canonize. unfold tree_shape. by rewrite Hn, He.
Qed.

Lemma finish_shape (cfuel : nat) t lpn p t' :
  _add_prefix_finish cfuel t lpn p = Ok t' → tree_shape t → tree_shape t'.
Proof.
  unfold _add_prefix_finish. intros Hf Hshape.
  apply bind_Ok in Hf as (t1 & H1 & Hf).
  apply link_last_parent_shape in H1 as (He & Hn & _).
  apply canonize_shape in Hf; [done|].
  unfold tree_shape in *. simpl. by rewrite He, Hn.
Qed.
End ShapeSteps.

(** ** All phases: the construction returns *)
Section DeepLoop.
Context {A : Type} `{Countable A}.
Implicit Types (t : @tree A _ _) (d pos : Z → Z) (e edge : Edge.t) (n v J : Z).

Lemma deep_after_canonize d pos i lpn t (fuel : nat) :
  head_inv d i lpn t → sem_inv d pos i (start d t) t →
  links_ok d pos t (λ n, n ≠ lpn) → act_ok d pos t → pend_ok d pos i lpn t →
  (Z.to_nat (N t + 1) < fuel)%nat →
  ∃ t', _canonize_suffix fuel t = Ok t' ∧ deep_head d pos i lpn t' ∧
        start d t' = start d t ∧ seq t' = seq t.
Proof.
  intros Hh Hsem Hlinks Hact Hpend Hfuel.
  pose proof Hh as [Hinv Hi Hl Hf Hlpn Hcount].
  assert (0 ≤ start d t) as HJ by by destruct Hcount.
  pose proof (active_inv_first _ _ _ Hinv HJ) as Hf0.
  destruct (deep_canonize d pos i (start d t) t fuel Hinv HJ Hsem Hact)
    as (t' & Hc & Hact').
  { unfold window, Suffix.length. lia. }
  exists t'. split; [done|].
  destruct (canonize_head _ _ _ _ _ _ Hh Hc) as (Hh' & Hcan' & Hst & Hseq).
  destruct (frame_canonize _ _ _ Hc) as ((_ & HN & _ & _) & Hn & He).
  destruct (canonize_spec _ _ _ _ _ Hinv Hc)
    as (_ & _ & _ & _ & _ & _ & _ & Hle & _).
  split; [|done]. constructor; try done.
  - rewrite Hst. apply (sem_inv_ext d pos i (start d t) t); try done.
    intros n. by apply is_branch_nodes.
  - by apply (links_ok_nodes d pos t).
  - intros Hpos. destruct (Hpend Hpos) as (Hd & Hag & Hx).
    rewrite Hst, Hseq. split; [done|]. split; [done|].
    destruct Hx as [?|?]; [left; lia|by right].
Qed.

Lemma deep_loop (cfuel : nat) i : ∀ (fuel : nat) d pos lpn t,
  deep_head d pos i lpn t → tree_shape t →
  (Z.to_nat (i + 1 - start d t) < fuel)%nat →
  (Z.to_nat (N t + 1) < cfuel)%nat →
  ∃ t' d' pos', _add_prefix_loop cfuel fuel t i lpn = Ok t' ∧
                deep_phase d' pos' (i + 1) t' ∧ seq t' = seq t ∧
                tree_shape t'.
Proof.
  induction fuel as [|fuel IH]; intros d pos lpn t Hdeep Hshape Hfuel Hcfuel;
    [lia|].
  pose proof Hdeep as [Hh Hcan Hsem Hlinks Hact Hpend].
  destruct (test_progress _ _ _ _ Hh Hcan) as (r & Htest & Hcase).
  simpl. rewrite Htest, result_bind_Ok.
  destruct r as [[t1 p]|].
  - assert (∃ d' pos', deep_mid d pos d' pos' i lpn t t1 p) as (d' & pos' & Hmid).
    { inversion Hcase as [c Hex Hc Hnone| |c0 e c1 c2 Hex Hc0 He Hlt Hc1 Hc2 Hne|];
        subst.
      - exists d, pos. by eapply deep_mid_explicit.
      - by eapply deep_mid_split. }
    destruct (deep_extend _ _ _ _ _ _ _ _ _ Hdeep Hmid)
      as (t2 & d'' & pos'' & Hext & Hh2 & Hst2 & Hseq2 & Hsem2 & Hlinks2
          & Hact2 & Hpend2).
    rewrite Hext, result_bind_Ok.
    assert (N t2 = N t) as HN2.
    { destruct Hh2 as [[Ht2 _ _ _] _ _ _ _ _], Hh as [[Ht _ _ _] _ _ _ _ _].
      rewrite (ti_N _ _ _ Ht2), (ti_N _ _ _ Ht), Hseq2. done. }
    destruct (deep_after_canonize d'' pos'' i p t2 cfuel)
      as (t3 & Hc3 & Hdeep3 & Hst3 & Hseq3); try done.
    { rewrite HN2. done. }
    rewrite Hc3, result_bind_Ok.
    assert (tree_shape t3) as Hshape3.
    { apply (canonize_shape _ _ _ Hc3).
      apply (extend_shape _ _ _ _ _ (λ c Hc, dm_free _ _ _ _ _ _ _ _ _ Hmid c
               (eq_ind _ (λ s, py_index s i = Ok c) Hc _
                  (tp_seq _ _ _ _ _ _ (dm_post _ _ _ _ _ _ _ _ _ Hmid)))) Hext).
      by apply (test_shape d i lpn t t1 p). }
    destruct (IH d'' pos'' p t3 Hdeep3 Hshape3)
      as (t' & d3 & pos3 & Hl & Hph & Hseq' & Hshape').
    + pose proof (tp_first _ _ _ _ _ _ (dm_post _ _ _ _ _ _ _ _ _ Hmid)) as Hfi.
      pose proof (head_inv_depth_src _ _ _ _ Hh) as Hds.
      rewrite Hst3, Hst2. unfold start in *. lia.
    + destruct Hdeep3 as [[[Ht3 _ _ _] _ _ _ _ _] _ _ _ _ _].
      destruct Hh as [[Ht _ _ _] _ _ _ _ _].
      rewrite (ti_N _ _ _ Ht3), Hseq3, Hseq2, <- (ti_N _ _ _ Ht). done.
    + exists t', d3, pos3. split; [done|]. split; [done|].
      split; [congruence|done].
  - destruct (deep_finish d pos i lpn cfuel t Hdeep Htest Hcase Hcfuel)
      as (t' & Hfin & Hph & Hseq).
    exists t', d, pos. split; [done|]. split; [done|]. split; [done|].
    by apply (finish_shape _ _ _ _ _ Hfin).
Qed.

Lemma deep_phase_head d pos k t :
  deep_phase d pos k t → k ≤ N t → deep_head d pos k (-1) t.
Proof.
  intros [Hph Hsem Hlinks Hact] Hk. constructor; try done.
  all: try (by apply phase_head).
  all: try (by destruct Hph).
  all: try (intros n Hn Hb _; by apply Hlinks).
Qed.

Lemma deep_add_prefix d pos (fuel : nat) k t :
  deep_phase d pos k t → tree_shape t → k ≤ N t →
  (Z.to_nat (N t + 1) < fuel)%nat →
  ∃ t' d' pos', _add_prefix fuel t k = Ok t' ∧
                deep_phase d' pos' (k + 1) t' ∧ seq t' = seq t ∧
                tree_shape t'.
Proof.
  intros Hph Hshape Hk Hfuel.
  apply (deep_loop fuel k fuel d pos (-1) t); try done.
  - by apply deep_phase_head.
  - destruct Hph as [[_ _ _ _ _ [HJ _ _ _ _]] _ _ _]. lia.
Qed.

Lemma deep_init (s : list A) : deep_phase (λ _, 0) (λ _, 0) 0 (init s).
Proof.
  assert (∀ n, is_branch (init s) n → n = 0) as Hroot.
  { intros n [Hn _]. simpl in Hn. unfold py_len in Hn. simpl in Hn. lia. }
  constructor.
  - apply init_phase_inv.
  - constructor; try done.
    + intros n ->%Hroot. split; [done|]. apply (walk_nil (init s) 0 0).
    + intros a b Ha Hb. apply reads_nil. lia.
    + intros j Hj. unfold start in Hj. simpl in Hj. lia.
  - intros n Hn ->%Hroot. lia.
  - constructor.
    + intros m Hm. simpl in Hm. lia.
    + apply reads_nil. simpl. lia.
Qed.

Lemma deep_for_each (fuel : nat) (n : nat) : ∀ d pos m t,
  deep_phase d pos m t → tree_shape t → m + Z.of_nat n ≤ N t + 1 →
  (Z.to_nat (N t + 1) < fuel)%nat →
  ∃ t' d' pos',
    for_each (_add_prefix fuel) t (seqZ m (Z.of_nat n)) = Ok t' ∧
    deep_phase d' pos' (m + Z.of_nat n) t' ∧ seq t' = seq t ∧
    tree_shape t'.
Proof.
  induction n as [|n IH]; intros d pos m t Hp Hshape Hm Hfuel.
  - simpl. exists t, d, pos. by rewrite Z.add_0_r.
  - rewrite seqZ_cons by lia. simpl.
    destruct (deep_add_prefix d pos fuel m t Hp Hshape ltac:(lia) Hfuel)
      as (t1 & d1 & pos1 & H1 & Hp1 & Hs1 & Hshape1).
    rewrite H1, result_bind_Ok.
    replace (Z.pred (Z.of_nat (S n))) with (Z.of_nat n) by lia.
    assert (N t1 = N t) as HN.
    { destruct Hp1 as [[[Ht1 _ _ _] _ _ _ _ _] _ _ _].
      destruct Hp as [[[Ht _ _ _] _ _ _ _ _] _ _ _].
      rewrite (ti_N _ _ _ Ht1), (ti_N _ _ _ Ht), Hs1. done. }
    destruct (IH d1 pos1 (Z.succ m) t1 Hp1 Hshape1)
      as (t' & d' & pos' & Hf & Hp' & Hs' & Hshape'); [lia|by rewrite HN|].
    exists t', d', pos'.
    replace (m + Z.of_nat (S n)) with (Z.succ m + Z.of_nat n) by lia.
    split; [done|]. split; [done|]. split; [congruence|done].
Qed.

(** With more fuel than the sequence is long, the first [k] phases return a
    tree. *)
Lemma deep_phases (fuel : nat) (s : list A) (k : nat) :
  (length s < fuel)%nat →
  ∃ t d pos, phases fuel s k = Ok t ∧
             deep_phase d pos (Z.min (Z.of_nat k) (py_len s)) t ∧ seq t = s ∧
             tree_shape t.
Proof.
  intros Hfuel. unfold phases. rewrite take_range.
  set (m := Z.min (Z.of_nat k) (py_len s)).
  assert (0 ≤ m ≤ py_len s) as Hm by (unfold m, py_len; lia).
  destruct (deep_for_each fuel (Z.to_nat m) (λ _, 0) (λ _, 0) 0 (init s))
    as (t & d & pos & Hf & Hp & Hs & Hshape).
  - apply deep_init.
  - done.
  - simpl. lia.
  - simpl. unfold py_len. lia.
  - exists t, d, pos. unfold range.
    replace (Z.of_nat (Z.to_nat m)) with m in Hf, Hp by lia.
    replace (0 + m) with m in Hp by lia. done.
Qed.
End DeepLoop.

(** ** The walk of [find_substring] *)
Section Find.
Context {A : Type} `{Countable A}.
Variable lower : list A → list A.
Implicit Types (t : @tree A _ _) (d pos : Z → Z) (e edge : Edge.t) (n v J : Z).

Lemma slice_eq_iff (p s : list A) (i f ln : Z) :
  0 ≤ i → 0 ≤ f → 0 ≤ ln → i + ln ≤ py_len p → f + ln ≤ py_len s →
  py_slice p i (i + ln) = py_slice s f (f + ln) ↔
  ∀ j, 0 ≤ j < ln → p !! Z.to_nat (i + j) = s !! Z.to_nat (f + j).
Proof.
  intros Hi Hf Hln Hp Hs.
  rewrite !py_slice_range by lia.
  replace (i + ln - i) with ln by lia. replace (f + ln - f) with ln by lia.
  split.
  - intros Heq j Hj.
    assert (take (Z.to_nat ln) (drop (Z.to_nat i) p) !! Z.to_nat j
            = take (Z.to_nat ln) (drop (Z.to_nat f) s) !! Z.to_nat j) as E
      by by rewrite Heq.
    rewrite !lookup_take_lt, !lookup_drop in E by lia.
    replace (Z.to_nat (i + j)) with (Z.to_nat i + Z.to_nat j)%nat by lia.
    replace (Z.to_nat (f + j)) with (Z.to_nat f + Z.to_nat j)%nat by lia.
    done.
  - intros Hall. apply list_eq. intros k.
    destruct (decide (k < Z.to_nat ln)%nat) as [Hk|Hk].
    + rewrite !lookup_take_lt, !lookup_drop by lia.
      specialize (Hall (Z.of_nat k) ltac:(lia)).
      replace (Z.to_nat (i + Z.of_nat k)) with (Z.to_nat i + k)%nat in Hall
        by lia.
      replace (Z.to_nat (f + Z.of_nat k)) with (Z.to_nat f + k)%nat in Hall
        by lia.
      done.
    + rewrite !lookup_take_ge by lia. done.
Qed.

Lemma occurs_at_lookup (s p : list A) (r : Z) :
  0 ≤ r →
  (∀ m, 0 ≤ m < py_len p → p !! Z.to_nat m = s !! Z.to_nat (r + m)) →
  occurs_at s p r.
Proof.
  intros Hr Hall. split; [done|]. apply list_eq. intros k.
  destruct (decide (k < length p)%nat) as [Hk|Hk].
  - rewrite lookup_take_lt, lookup_drop by lia.
    specialize (Hall (Z.of_nat k) ltac:(unfold py_len; lia)).
    rewrite Nat2Z.id in Hall.
    replace (Z.to_nat (r + Z.of_nat k)) with (Z.to_nat r + k)%nat in Hall
      by lia.
    done.
  - rewrite lookup_take_ge by lia. symmetry. apply lookup_ge_None. lia.
Qed.

Lemma infix_lookup (s p l1 l2 : list A) m :
  s = l1 ++ p ++ l2 → 0 ≤ m < py_len p →
  p !! Z.to_nat m = s !! Z.to_nat (py_len l1 + m).
Proof.
  intros -> Hm. unfold py_len in *.
  replace (Z.to_nat (Z.of_nat (length l1) + m))
    with (length l1 + Z.to_nat m)%nat by lia.
  rewrite lookup_app_r by lia.
  replace (length l1 + Z.to_nat m - length l1)%nat with (Z.to_nat m) by lia.
  rewrite lookup_app_l by lia. done.
Qed.

Section Loop.
Variables (t : @tree A _ _) (d pos : Z → Z) (c0 J0 : Z) (p : list A)
  (ci : bool).
Hypothesis Htree : tree_inv d J0 t.
Hypothesis Hsem : sem_inv d pos c0 J0 t.

Let t' := with_attributes t ci (seq t).

(** Where the walk of [find_substring] stands: node [n] after [i] symbols
    of the pattern, which are an occurrence of the word of [n]. *)
Let at_node (i n : Z) : Prop :=
  d n = i ∧ 0 ≤ pos n ∧
  ∀ m, 0 ≤ m < i → p !! Z.to_nat m = seq t !! Z.to_nat (pos n + m).

Lemma at_node_step i n c e ln :
  at_node i n → 0 ≤ i → edges t !! (n, c) = Some e → 0 ≤ ln →
  (∀ j, 0 ≤ j < ln →
     p !! Z.to_nat (i + j) = seq t !! Z.to_nat (Edge.first_obj_index e + j)) →
  Edge.first_obj_index e - i = pos (Edge.dest_node_index e) ∧
  0 ≤ pos (Edge.dest_node_index e) ∧
  ∀ m, 0 ≤ m < i + ln →
    p !! Z.to_nat m = seq t !! Z.to_nat (pos (Edge.dest_node_index e) + m).
Proof.
  intros (Hd & Hpos & Hpre) Hi He Hln Hedge.
  destruct (si_edges _ _ _ _ _ Hsem _ _ He) as (Hpd & Hpd0 & Hag).
  destruct (ti_edges _ _ _ Htree _ _ He) as [Hs _ _ _ _ _ _ _ _ _].
  simpl in Hs. rewrite <- Hs, Hd in Hpd, Hag.
  split; [lia|]. split; [done|]. intros m Hm.
  destruct (decide (m < i)) as [Hlt|Hge].
  - rewrite Hpre by lia. symmetry. apply Hag. lia.
  - specialize (Hedge (m - i) ltac:(lia)).
    replace (i + (m - i)) with m in Hedge by lia.
    rewrite Hedge. f_equal. lia.
Qed.

Lemma find_loop_spec : ∀ (fuel : nat) i n last,
  string t' = Some (seq t) →
  0 ≤ i < py_len p → at_node i n →
  (Z.to_nat (py_len p - i) < fuel)%nat →
  ∃ r, find_substring_loop fuel t' p i n last = Ok r ∧
       (r = -1 ∨ occurs_at (seq t) p r).
Proof.
  induction fuel as [|fuel IH]; intros i n last Hstr Hi Hat Hfuel; [lia|].
  simpl. destruct (Z.ltb_spec i (py_len p)) as [_|]; [|lia].
  destruct (py_index_lt p i) as (c & Hc & Hpc); [lia|].
  rewrite Hc, result_bind_Ok.
  destruct (edges t !! (n, c)) as [e|] eqn:He; [|exists (-1); by split; [|left]].
  destruct (ti_edges _ _ _ Htree _ _ He) as [_ _ Hf0 Hspan Hlast _ _ Hdep _ _].
  pose proof (ti_N _ _ _ Htree) as HN. unfold Edge.length in *.
  set (ln := Z.min (Edge.last_obj_index e - Edge.first_obj_index e + 1)
                   (py_len p - i)).
  case_decide as Hsl; [exists (-1); by split; [|left]|].
  assert (∀ j, 0 ≤ j < ln →
    p !! Z.to_nat (i + j) = seq t !! Z.to_nat (Edge.first_obj_index e + j))
    as Hedge.
  { apply slice_eq_iff; [lia..|done]. }
  destruct (at_node_step i n c e ln Hat ltac:(lia) He ltac:(lia) Hedge)
    as (Hr & Hr0 & Hocc).
  destruct (decide (i + (Edge.last_obj_index e - Edge.first_obj_index e + 1)
                    < py_len p)) as [Hmore|Hdone].
  - apply IH; [done|lia| |lia].
    split; [|split].
    + destruct Hat as (Hd & _). rewrite Hdep.
      destruct (ti_edges _ _ _ Htree _ _ He) as [Hs _ _ _ _ _ _ _ _ _].
      simpl in Hs. rewrite <- Hs, Hd. unfold Edge.length. lia.
    + done.
    + intros m Hm. apply Hocc. lia.
  - destruct fuel as [|fuel]; [lia|]. simpl.
    destruct (Z.ltb_spec
      (i + (Edge.last_obj_index e - Edge.first_obj_index e + 1)) (py_len p))
      as [|_]; [lia|].
    exists (Edge.first_obj_index e - py_len p + ln). split; [done|]. right.
    replace (Edge.first_obj_index e - py_len p + ln)
      with (pos (Edge.dest_node_index e)) by lia.
    apply occurs_at_lookup; [done|]. intros m Hm. apply Hocc. lia.
Qed.

Lemma find_loop_complete n a b :
  reads t n a b → ∀ (fuel : nat) i last r,
  0 ≤ a → 0 ≤ i < py_len p → b - a + 1 = py_len p - i → at_node i n →
  (∀ m, i ≤ m < py_len p → p !! Z.to_nat m = seq t !! Z.to_nat (a + (m - i))) →
  find_substring_loop fuel t' p i n last = Ok r → r ≠ -1.
Proof.
  induction 1 as [n a b Hlt|n a b c e Hab Hc He Hlen Hag
                  |n a b c e Hc He Hlen Hag Hrest IH];
    intros fuel i last r Ha Hi Hb Hat Hp Hloop; [lia| |].
  - destruct fuel as [|fuel]; [done|]. simpl in Hloop.
    destruct (Z.ltb_spec i (py_len p)) as [_|]; [|lia].
    destruct (py_index_lt p i) as (c' & Hc' & Hpc); [lia|].
    assert (c' = c) as ->.
    { apply py_index_Ok in Hc; [|done]. specialize (Hp i ltac:(lia)).
      replace (a + (i - i)) with a in Hp by lia. congruence. }
    rewrite Hc', result_bind_Ok in Hloop.
    change (edges t' !! (n, c)) with (edges t !! (n, c)) in Hloop.
    rewrite He in Hloop. simpl in Hloop.
    destruct (ti_edges _ _ _ Htree _ _ He)
      as [_ _ Hf0 Hspan Hlast _ _ Hdep _ _].
    pose proof (ti_N _ _ _ Htree) as HN. unfold Edge.length in *.
    assert (∀ j, 0 ≤ j < py_len p - i →
      p !! Z.to_nat (i + j) = seq t !! Z.to_nat (Edge.first_obj_index e + j))
      as Hedge.
    { intros j Hj. rewrite Hp by lia. replace (i + j - i) with j by lia.
      apply Hag. lia. }
    rewrite Z.min_r in Hloop by lia.
    case_decide as Hsl.
    { exfalso. apply Hsl. apply slice_eq_iff; [lia..|done]. }
    destruct fuel as [|fuel]; [done|]. simpl in Hloop.
    destruct (Z.ltb_spec
      (i + (Edge.last_obj_index e - Edge.first_obj_index e + 1)) (py_len p))
      as [|_]; [lia|].
    injection Hloop as <-.
    destruct (at_node_step i n c e (py_len p - i) Hat ltac:(lia) He
                ltac:(lia) Hedge) as (Hr & Hr0 & _).
    lia.
  - destruct fuel as [|fuel]; [done|]. simpl in Hloop.
    destruct (Z.ltb_spec i (py_len p)) as [_|]; [|lia].
    destruct (py_index_lt p i) as (c' & Hc' & Hpc); [lia|].
    assert (c' = c) as ->.
    { apply py_index_Ok in Hc; [|done]. specialize (Hp i ltac:(lia)).
      replace (a + (i - i)) with a in Hp by lia. congruence. }
    rewrite Hc', result_bind_Ok in Hloop.
    change (edges t' !! (n, c)) with (edges t !! (n, c)) in Hloop.
    rewrite He in Hloop. simpl in Hloop.
    destruct (ti_edges _ _ _ Htree _ _ He)
      as [Hs _ Hf0 Hspan Hlast _ _ Hdep _ _]. simpl in Hs.
    pose proof (ti_N _ _ _ Htree) as HN. unfold Edge.length in *.
    assert (∀ j, 0 ≤ j < Edge.last_obj_index e - Edge.first_obj_index e + 1 →
      p !! Z.to_nat (i + j) = seq t !! Z.to_nat (Edge.first_obj_index e + j))
      as Hedge.
    { intros j Hj. rewrite Hp by lia. replace (i + j - i) with j by lia.
      apply Hag. lia. }
    rewrite Z.min_l in Hloop by lia.
    case_decide as Hsl.
    { exfalso. apply Hsl. apply slice_eq_iff; [lia..|done]. }
    destruct (at_node_step i n c e
                (Edge.last_obj_index e - Edge.first_obj_index e + 1)
                Hat ltac:(lia) He ltac:(lia) Hedge) as (Hr & Hr0 & Hocc).
    apply (IH fuel _ _ r) in Hloop; [done|lia|lia|lia| |].
    + split; [|split; [done|]].
      * destruct Hat as (Hd & _). rewrite Hdep, <- Hs, Hd.
        unfold Edge.length. lia.
      * intros m Hm. apply Hocc. lia.
    + intros m Hm. rewrite Hp by lia. f_equal. lia.
Qed.
End Loop.
End Find.

(** ** The tree the constructor returns *)
Section Built.
Context {A : Type} `{Countable A}.
Variable lower : list A → list A.
Implicit Types (t : @tree A _ _) (d pos : Z → Z) (e edge : Edge.t) (n v J : Z)
  (s p substring : list A).

Lemma SuffixTree_deep (fuel : nat) s :
  (length s < fuel)%nat →
  ∃ t d pos, SuffixTree fuel s = Ok t ∧ deep_phase d pos (py_len s) t ∧
             seq t = s ∧ tree_shape t.
Proof.
  intros Hfuel. rewrite SuffixTree_phases.
  destruct (deep_phases fuel s (length s) Hfuel)
    as (t & d & pos & Hph & Hdeep & Hseq & Hshape).
  replace (Z.min (Z.of_nat (length s)) (py_len s)) with (py_len s) in Hdeep
    by (unfold py_len; lia).
  by exists t, d, pos.
Qed.

Lemma built_deep (fuel : nat) s t :
  (length s < fuel)%nat → SuffixTree fuel s = Ok t →
  ∃ d pos, deep_phase d pos (py_len s) t ∧ seq t = s ∧ tree_shape t.
Proof.
  intros Hfuel Hb.
  destruct (SuffixTree_deep fuel s Hfuel) as (t' & d & pos & Hb' & Hrest).
  rewrite Hb in Hb'. injection Hb' as <-. by exists d, pos.
Qed.


(** X2: every substring of the sequence can be read in the finished tree
    from the root: [seq[a .. b]] is spelled by a path of edges that starts
    at node 0, each edge found in the table under the next symbol. *)
Theorem SuffixTree_reads_substrings (fuel : nat) s t a b :
  (length s < fuel)%nat → SuffixTree fuel s = Ok t →
  0 ≤ a → b < py_len s → reads t 0 a b.
Proof.
  intros Hfuel Hb Ha Hbl.
  destruct (built_deep fuel s t Hfuel Hb) as (d & pos & [_ Hsem _ _] & _).
  by apply (si_complete _ _ _ _ _ Hsem).
Qed.

(** X3: every entry of the edge table of a finished tree is well formed. It
    sits under the key of its edge, source node and first symbol; its
    indices are in the sequence, first not after last; its two ends are
    nodes of the registry, the destination not the root and not the source;
    and it ends at the last position of the sequence unless its destination
    is a node with a suffix link. *)
Theorem SuffixTree_edges_well_formed (fuel : nat) s t key e :
  SuffixTree fuel s = Ok t → edges t !! key = Some e →
  key.1 = Edge.source_node_index e ∧
  py_index s (Edge.first_obj_index e) = Ok key.2 ∧
  0 ≤ Edge.first_obj_index e ≤ Edge.last_obj_index e ∧
  Edge.last_obj_index e ≤ py_len s - 1 ∧
  0 ≤ Edge.source_node_index e < py_len (nodes t) ∧
  1 ≤ Edge.dest_node_index e < py_len (nodes t) ∧
  Edge.dest_node_index e ≠ Edge.source_node_index e ∧
  (Edge.last_obj_index e = py_len s - 1 ∨
   suffix_link t (Edge.dest_node_index e) ≠ -1).
Proof.
  rewrite SuffixTree_phases. intros Hph He.
  destruct (phases_inv _ _ _ _ Hph) as (d & [[Ht _ _ _] _ _ _ _ _] & Hseq).
  destruct (ti_edges _ _ _ Ht _ _ He)
    as [Hs Hsym Hf Hspan Hlast [Hsrc _] Hdest Hdep Hleaf _].
  pose proof (ti_N _ _ _ Ht) as HN. rewrite Hseq in HN, Hsym.
  unfold Edge.length in Hdep.
  repeat (split; [done || lia|]). split.
  - intros E. rewrite E in Hdep. lia.
  - destruct Hleaf as [Hl|[_ [H0|Hl]]]; [left; lia|lia|by right].
Qed.

(** X4: the finished tree has the shape of a tree: its table holds exactly
    one edge for every node of the registry other than the root. *)
Theorem SuffixTree_edge_count (fuel : nat) s t :
  (length s < fuel)%nat → SuffixTree fuel s = Ok t →
  Z.of_nat (size (edges t)) = py_len (nodes t) - 1.
Proof.
  intros Hfuel Hb.
  destruct (built_deep fuel s t Hfuel Hb) as (d & pos & _ & _ & Hshape).
  unfold tree_shape in Hshape. lia.
Qed.

(** X5: a suffix link leads to the node of the word without its first
    symbol. In the finished tree, if node [n] has a suffix link, then [n]
    is where some word [seq[a .. a+k-1]] of [k ≥ 1] symbols ends when read
    from the root, and the node its link names is where [seq[a+1 .. a+k-1]]
    ends. *)
Theorem suffix_link_drops_first (fuel : nat) s t n :
  (length s < fuel)%nat → SuffixTree fuel s = Ok t →
  0 < n → suffix_link t n ≠ -1 →
  ∃ a k, 0 ≤ a ∧ 1 ≤ k ∧
         walk t 0 a (a + k - 1) n ∧
         walk t 0 (a + 1) (a + k - 1) (suffix_link t n).
Proof.
  intros Hfuel Hb Hn Hl.
  destruct (built_deep fuel s t Hfuel Hb)
    as (d & pos & [[[Ht _ _ _] _ _ _ _ _] Hsem Hlinks _] & _).
  assert (is_branch t n) as Hbr.
  { split; [|by right]. split; [lia|]. apply suffix_link_valid; [lia|done]. }
  destruct (Hlinks n Hn Hbr I) as (Hd & Hag).
  destruct (ti_links _ _ _ Ht n Hn Hl) as (Hbl & Hlt).
  pose proof (ti_depth _ _ _ Ht _ Hbl) as Hd0.
  destruct (si_loc _ _ _ _ _ Hsem n Hbr) as (Hp & Hw).
  destruct (si_loc _ _ _ _ _ Hsem _ Hbl) as (Hpl & Hwl).
  exists (pos n), (d n). split; [done|]. split; [lia|]. split; [done|].
  apply (walk_agree _ _ _ _ (pos n + 1)) in Hwl; [|done|lia|].
  - replace (pos n + 1 + (pos (suffix_link t n) + d (suffix_link t n) - 1
                          - pos (suffix_link t n)))
      with (pos n + d n - 1) in Hwl by lia.
    done.
  - replace (pos (suffix_link t n) + d (suffix_link t n) - 1
             - pos (suffix_link t n) + 1) with (d n - 1) by lia.
    done.
Qed.

(** The walk of [find_substring] from the root of the finished tree, with
    the attribute [string] assigned: it returns [-1] if the pattern occurs
    nowhere, and otherwise the index of an occurrence. *)
Lemma find_walk_spec (fuel fuel' : nat) s t (ci : bool) p :
  (length s < fuel)%nat → SuffixTree fuel s = Ok t →
  p ≠ [] → (length p < fuel')%nat →
  ∃ r, find_substring_loop fuel' (with_attributes t ci s) p 0 0 None = Ok r ∧
       ((r = -1 ∧ ∀ l1 l2, s ≠ l1 ++ p ++ l2) ∨ occurs_at s p r).
Proof.
  intros Hfuel Hb Hp Hfuel'.
  destruct (built_deep fuel s t Hfuel Hb)
    as (d & pos & [[[Ht _ Hsrc _] _ _ _ _ _] Hsem _ _] & Hseq & _).
  assert (0 < py_len p) as Hlen.
  { unfold py_len. destruct p; [done|]. simpl. lia. }
  destruct (find_loop_spec t d pos _ _ p ci Ht Hsem fuel' 0 0 None)
    as (r & Hloop & Hr).
  - by rewrite Hseq.
  - lia.
  - split; [apply (ti_root _ _ _ Ht)|]. split; [|intros; lia].
    by rewrite (si_root _ _ _ _ _ Hsem).
  - unfold py_len. lia.
  - rewrite Hseq in Hloop, Hr. exists r. split; [done|].
    destruct Hr as [->|Hocc]; [|by right].
    left. split; [done|]. intros l1 l2 Hs.
    assert (reads t 0 (py_len l1) (py_len l1 + py_len p - 1)) as Hreads.
    { apply (si_complete _ _ _ _ _ Hsem); [unfold py_len; lia|].
      rewrite Hs. unfold py_len. rewrite !length_app. lia. }
    rewrite <- Hseq in Hloop.
    apply (find_loop_complete t d pos _ _ p ci Ht Hsem _ _ _ Hreads)
      in Hloop; [done|unfold py_len; lia|lia|lia| |].
    + split; [apply (ti_root _ _ _ Ht)|]. split; [|intros; lia].
      by rewrite (si_root _ _ _ _ _ Hsem).
    + intros m Hm. rewrite Hseq. replace (m - 0) with m by lia.
      by apply (infix_lookup s p l1 l2).
Qed.

(** X6: once a caller has assigned the two attributes the class never
    sets, [case_insensitive] and [string] (the sequence itself),
    [find_substring] is right on the finished tree. For a non-empty
    pattern [p] (lowered first if [case_insensitive] is true) it returns
    normally: [-1] if [p] occurs nowhere in the sequence, and otherwise an
    index [r ≥ 0] with [seq[r : r + len(p)] == p]. *)
Theorem find_substring_with_attributes (fuel fuel' : nat) s t (ci : bool)
    substring :
  (length s < fuel)%nat → SuffixTree fuel s = Ok t → substring ≠ [] →
  let p := if ci then lower substring else substring in
  p ≠ [] → (length p < fuel')%nat →
  ∃ r, find_substring lower fuel' (with_attributes t ci s) substring = Ok r ∧
       ((r = -1 ∧ ∀ l1 l2, s ≠ l1 ++ p ++ l2) ∨ occurs_at s p r).
Proof.
  intros Hfuel Hb Hne p Hp Hfuel'.
  unfold find_substring. destruct substring as [|x substring]; [done|].
  simpl getattr. rewrite result_bind_Ok. fold p.
  by apply (find_walk_spec fuel).
Qed.

Lemma occurs_at_infix s p r : occurs_at s p r → ∃ l1 l2, s = l1 ++ p ++ l2.
Proof.
  intros [Hr Htake]. exists (take (Z.to_nat r) s).
  exists (drop (length p) (drop (Z.to_nat r) s)).
  rewrite <- (take_drop (Z.to_nat r) s) at 1. f_equal.
  rewrite <- (take_drop (length p) (drop (Z.to_nat r) s)) at 1.
  by rewrite Htake.
Qed.

(** X7: with the two attributes assigned, [has_substring] answers whether
    the pattern occurs in the sequence: [True] exactly if the sequence is
    [l1 + p + l2] for some [l1] and [l2]. *)
Theorem has_substring_with_attributes (fuel fuel' : nat) s t (ci : bool)
    substring :
  (length s < fuel)%nat → SuffixTree fuel s = Ok t → substring ≠ [] →
  let p := if ci then lower substring else substring in
  p ≠ [] → (length p < fuel')%nat →
  ∃ b : bool,
    has_substring lower fuel' (with_attributes t ci s) substring = Ok b ∧
    (b = true ↔ ∃ l1 l2, s = l1 ++ p ++ l2).
Proof.
  intros Hfuel Hb Hne p Hp Hfuel'.
  destruct (find_walk_spec fuel fuel' s t ci p Hfuel Hb Hp Hfuel')
    as (r & Hwalk & Hr).
  unfold has_substring, find_substring.
  destruct substring as [|x substring]; [done|].
  simpl getattr. rewrite result_bind_Ok. fold p.
  rewrite Hwalk, result_bind_Ok.
  exists (negb (r =? -1)). split; [done|].
  destruct Hr as [[-> Hno]|Hocc].
  - simpl. split; [done|]. intros (l1 & l2 & Hs). by destruct (Hno l1 l2).
  - split; [intros _; by eapply occurs_at_infix|]. intros _.
    destruct Hocc as [Hr _]. destruct (Z.eqb_spec r (-1)); [lia|done].
Qed.

(** X8: on a tree as the constructor returns it, [has_substring] never
    answers [True]: it returns [False] for the empty pattern and raises
    [AttributeError] for every other one. *)
Theorem has_substring_as_built (fuel fuel' : nat) s t substring :
  SuffixTree fuel s = Ok t →
  has_substring lower fuel' t substring
  = match substring with
    | [] => Ok false
    | _ => Raise (AttributeError "case_insensitive")
    end.
Proof.
  intros Hb. destruct substring as [|x substring]; [done|].
  destruct (SuffixTree_no_attributes _ _ _ Hb) as [Hci _].
  unfold has_substring.
  by rewrite (find_substring_no_attribute lower fuel' t (x :: substring)).
Qed.

(** X9: between two phases the active point is canonical. After [k] calls
    of [_add_prefix] its last index is [k - 1], its first index is between
    [0] and [k], its node is a node of the registry, and it is explicit or
    stands on an edge of the table that is longer than its window. *)
Theorem phases_active_point (fuel : nat) s (k : nat) t :
  phases fuel s k = Ok t → (k ≤ length s)%nat →
  Suffix.last_obj_index (active t) = Z.of_nat k - 1 ∧
  0 ≤ Suffix.first_obj_index (active t) ≤ Z.of_nat k ∧
  0 ≤ Suffix.source_node_index (active t) < py_len (nodes t) ∧
  canonical t.
Proof.
  intros Hph Hk. destruct (phases_inv _ _ _ _ Hph) as (d & Hp & Hseq).
  replace (Z.min (Z.of_nat k) (py_len s)) with (Z.of_nat k) in Hp
    by (unfold py_len; lia).
  destruct Hp as [Hact Hcan _ Hlast Hfirst [HJ _ _ _ _]].
  pose proof (active_inv_first _ _ _ Hact HJ) as Hf0.
  destruct Hact as [_ _ [Hsrc _] _]. done.
Qed.
Lemma py_index_len {T : Type} (l : list T) :
  py_index l (py_len l) = Raise IndexError.
Proof.
  unfold py_index, py_norm, py_len.
  destruct (Z.ltb_spec (Z.of_nat (length l)) 0); [lia|].
  destruct (Z.leb_spec 0 (Z.of_nat (length l))); [|lia].
  destruct (Z.ltb_spec (Z.of_nat (length l)) (Z.of_nat (length l))); [lia|].
  done.
Qed.

(** X15: the finished tree takes no further position. A call of
    [_add_prefix] with the index just past the sequence raises
    [IndexError] at the first read of [seq[last_obj_index]] (line 120 or
    125), before a node or an edge is made. *)
Theorem add_prefix_past_end (fuel fuel' : nat) s t :
  SuffixTree fuel s = Ok t →
  _add_prefix_test t (py_len s) = Raise IndexError ∧
  _add_prefix (S fuel') t (py_len s) = Raise IndexError.
Proof.
  rewrite SuffixTree_phases. intros Hph.
  destruct (phases_inv _ _ _ _ Hph) as (d & Hp & Hseq).
  assert (_add_prefix_test t (py_len s) = Raise IndexError) as Htest.
  { destruct Hp as [[Ht _ _ _] Hcan _ _ _ _].
    unfold _add_prefix_test. rewrite <- Hseq.
    destruct Hcan as [Hex|(c & e & Hc & He & Hlt)].
    - rewrite Hex. by rewrite py_index_len.
    - destruct (Suffix.explicit (active t)) eqn:Hex;
        [by rewrite py_index_len|].
      rewrite Hc, result_bind_Ok. unfold edge_at. rewrite He, result_bind_Ok.
      destruct (ti_edges _ _ _ Ht _ _ He) as [_ _ Hf0 _ Hlast _ _ _ _ _].
      pose proof (ti_N _ _ _ Ht) as HN.
      apply explicit_false in Hex. unfold Edge.length, Suffix.length in *.
      destruct (py_index_lt (seq t)
                  (Edge.first_obj_index e
                   + (Suffix.last_obj_index (active t)
                      - Suffix.first_obj_index (active t)) + 1))
        as (c1 & Hc1 & _); [lia|].
      rewrite Hc1, result_bind_Ok. by rewrite py_index_len. }
  split; [done|]. unfold _add_prefix. simpl. by rewrite Htest.
Qed.
End Built.

(** ** The table operations on their own *)
Section TableOps.
Context {A : Type} `{Countable A}.
Implicit Types (t : @tree A _ _) (e edge : Edge.t).

(** X10: [_remove_edge] undoes [_insert_edge]. If the insertion of an edge
    returns, the removal of the same edge returns too and takes the key of
    the edge out of the table; if the key was not in the table before, the
    object is as it was. *)
Theorem insert_then_remove t e t1 :
  _insert_edge t e = Ok t1 →
  ∃ c t2,
    py_index (seq t) (Edge.first_obj_index e) = Ok c ∧
    _remove_edge t1 e = Ok t2 ∧
    edges t2 = delete (Edge.source_node_index e, c) (edges t) ∧
    nodes t2 = nodes t ∧
    (edges t !! (Edge.source_node_index e, c) = None → t2 = t).
Proof.
  intros (c & Hc & ->)%insert_edge_Ok.
  exists c. eexists. split; [done|]. split.
  - apply remove_edge_eq; [done|]. simpl. rewrite lookup_insert_eq. by eexists.
  - simpl. split; [by rewrite delete_insert_eq|]. split; [done|].
    intros Hnone. unfold set_edges. simpl.
    rewrite delete_insert_eq, delete_id by done. by destruct t.
Qed.

(** X11: an edge cannot be removed twice: [_remove_edge] has no default for
    [dict.pop], so once it has returned, the same call on the tree it left
    raises [KeyError]. *)
Theorem remove_twice_raises t e t1 :
  _remove_edge t e = Ok t1 → _remove_edge t1 e = Raise KeyError.
Proof.
  intros (c & Hc & _ & ->)%remove_edge_Ok.
  unfold _remove_edge, edge_at. simpl. rewrite Hc, result_bind_Ok.
  by rewrite lookup_delete_eq.
Qed.

(** X12: [_insert_edge] checks nothing but the index it reads. It raises
    [IndexError] exactly if [first_obj_index] is outside
    [-len(seq) .. len(seq) - 1]; inside, it returns, and a negative index
    counts from the end of the sequence: the edge is stored under the
    symbol [seq[len(seq) + first_obj_index]]. *)
Theorem insert_edge_bounds t e :
  let f := Edge.first_obj_index e in
  let n := py_len (seq t) in
  (- n ≤ f < n →
   ∃ c, seq t !! Z.to_nat (if f <? 0 then n + f else f) = Some c ∧
        _insert_edge t e
        = Ok (set_edges t (<[(Edge.source_node_index e, c) := e]> (edges t))))
  ∧ (¬ (- n ≤ f < n) → _insert_edge t e = Raise IndexError).
Proof.
  intros f n. unfold _insert_edge, py_index, py_norm. fold f.
  change (Z.of_nat (length (seq t))) with n.
  split.
  - intros Hf. destruct (Z.ltb_spec f 0) as [Hneg|Hpos].
    + destruct (lookup_lt_is_Some_2 (seq t) (Z.to_nat (n + f))) as [c Hc].
      { unfold n, py_len in *. lia. }
      exists c. split; [done|].
      replace (f + n) with (n + f) by lia.
      destruct (Z.leb_spec 0 (n + f)); [|lia].
      destruct (Z.ltb_spec (n + f) n); [|lia]. simpl. by rewrite Hc.
    + destruct (lookup_lt_is_Some_2 (seq t) (Z.to_nat f)) as [c Hc].
      { unfold n, py_len in *. lia. }
      exists c. split; [done|].
      destruct (Z.leb_spec 0 f); [|lia].
      destruct (Z.ltb_spec f n); [|lia]. simpl. by rewrite Hc.
  - intros Hf. destruct (Z.ltb_spec f 0) as [Hneg|Hpos].
    + destruct (Z.leb_spec 0 (f + n)); [lia|]. done.
    + destruct (Z.leb_spec 0 f); [|lia].
      destruct (Z.ltb_spec f n); [lia|]. done.
Qed.

(** X13: [_canonize_suffix] does its work in one call and touches nothing
    but the active point. On the tree a call returns, a second call
    returns the same tree; the registry, the table and the last index of
    the active point are as before the first call. *)
Theorem canonize_idempotent (n m : nat) t t' :
  _canonize_suffix n t = Ok t' →
  _canonize_suffix (S m) t' = Ok t' ∧
  nodes t' = nodes t ∧ edges t' = edges t ∧
  Suffix.last_obj_index (active t') = Suffix.last_obj_index (active t).
Proof.
  revert t. induction n as [|n IH]; intros t; [done|]. simpl.
  destruct (negb (Suffix.explicit (active t))) eqn:Hex.
  - intros Hc. apply bind_Ok in Hc as (c & Hc & Hk).
    apply bind_Ok in Hk as (e & He & Hk).
    destruct (Edge.length e <=? Suffix.length (active t)) eqn:Hle.
    + apply IH in Hk as (Hagain & Hn & Hed & Hl). done.
    + injection Hk as <-. split; [|done]. simpl.
      by rewrite Hex, Hc, result_bind_Ok, He, result_bind_Ok, Hle.
  - intros [= <-]. split; [|done]. simpl. by rewrite Hex.
Qed.

(** X14: the two tests of [Suffix] are each the negation of the other: a
    suffix is explicit exactly if it is not implicit. *)
Theorem explicit_not_implicit (sfx : Suffix.t) :
  Suffix.explicit sfx = negb (Suffix.implicit sfx).
Proof.
  unfold Suffix.explicit, Suffix.implicit.
  destruct (Z.ltb_spec (Suffix.last_obj_index sfx) (Suffix.first_obj_index sfx));
    destruct (Z.leb_spec (Suffix.first_obj_index sfx)
                (Suffix.last_obj_index sfx)); simpl; (done || lia).
Qed.
End TableOps.


(** X2, on "abcabx": the word "bca" at positions 1 to 3. *)
Lemma SuffixTree_reads_substrings_witness :
  (length (chars "abcabx") < 7)%nat ∧
  SuffixTree 7 (chars "abcabx") = Ok (tree_of "abcabx") ∧
  0 ≤ 1 ∧ 3 < py_len (chars "abcabx") ∧
  reads (tree_of "abcabx") 0 1 3.
Proof.
  assert (length (chars "abcabx") < 7)%nat as Hfuel by (vm_compute; lia).
  assert (SuffixTree 7 (chars "abcabx") = Ok (tree_of "abcabx")) as Hb
    by (vm_compute; reflexivity).
  assert (0 ≤ 1) as Ha by lia.
  assert (3 < py_len (chars "abcabx")) as Hlt by (vm_compute; reflexivity).
  split; [exact Hfuel|]. split; [exact Hb|]. split; [exact Ha|].
  split; [exact Hlt|].
  exact (SuffixTree_reads_substrings 7 (chars "abcabx") _ 1 3 Hfuel Hb Ha Hlt).
Defined.

(** X3, on the edge "ab" from the root of the tree of "abcabx". *)
Lemma SuffixTree_edges_well_formed_witness :
  let t := tree_of "abcabx" in
  let e := Edge.mk 0 1 0 4 in
  SuffixTree 7 (chars "abcabx") = Ok t ∧
  edges t !! (0, "a"%char) = Some e ∧
  (0, "a"%char).1 = Edge.source_node_index e ∧
  py_index (chars "abcabx") (Edge.first_obj_index e) = Ok (0, "a"%char).2 ∧
  0 ≤ Edge.first_obj_index e ≤ Edge.last_obj_index e ∧
  Edge.last_obj_index e ≤ py_len (chars "abcabx") - 1 ∧
  0 ≤ Edge.source_node_index e < py_len (nodes t) ∧
  1 ≤ Edge.dest_node_index e < py_len (nodes t) ∧
  Edge.dest_node_index e ≠ Edge.source_node_index e ∧
  (Edge.last_obj_index e = py_len (chars "abcabx") - 1 ∨
   suffix_link t (Edge.dest_node_index e) ≠ -1).
Proof.
  intros t e.
  assert (SuffixTree 7 (chars "abcabx") = Ok t) as Hb
    by (vm_compute; reflexivity).
  assert (edges t !! (0, "a"%char) = Some e) as He
    by (vm_compute; reflexivity).
  split; [exact Hb|]. split; [exact He|].
  exact (SuffixTree_edges_well_formed 7 (chars "abcabx") t _ e Hb He).
Defined.

(** X4, on "abcabx": seven edges for eight nodes. *)
Lemma SuffixTree_edge_count_witness :
  (length (chars "abcabx") < 7)%nat ∧
  SuffixTree 7 (chars "abcabx") = Ok (tree_of "abcabx") ∧
  Z.of_nat (size (edges (tree_of "abcabx")))
  = py_len (nodes (tree_of "abcabx")) - 1.
Proof.
  assert (length (chars "abcabx") < 7)%nat as Hfuel by (vm_compute; lia).
  assert (SuffixTree 7 (chars "abcabx") = Ok (tree_of "abcabx")) as Hb
    by (vm_compute; reflexivity).
  split; [exact Hfuel|]. split; [exact Hb|].
  exact (SuffixTree_edge_count 7 (chars "abcabx") _ Hfuel Hb).
Defined.

(** X5, on node 4 of the tree of "abcabx", the end of "ab". *)
Lemma suffix_link_drops_first_witness :
  let t := tree_of "abcabx" in
  (length (chars "abcabx") < 7)%nat ∧
  SuffixTree 7 (chars "abcabx") = Ok t ∧
  0 < 4 ∧ suffix_link t 4 ≠ -1 ∧
  ∃ a k, 0 ≤ a ∧ 1 ≤ k ∧
         walk t 0 a (a + k - 1) 4 ∧
         walk t 0 (a + 1) (a + k - 1) (suffix_link t 4).
Proof.
  intros t.
  assert (length (chars "abcabx") < 7)%nat as Hfuel by (vm_compute; lia).
  assert (SuffixTree 7 (chars "abcabx") = Ok t) as Hb
    by (vm_compute; reflexivity).
  assert (0 < 4) as Hn by lia.
  assert (suffix_link t 4 ≠ -1) as Hl by (vm_compute; discriminate).
  split; [exact Hfuel|]. split; [exact Hb|]. split; [exact Hn|].
  split; [exact Hl|].
  exact (suffix_link_drops_first 7 (chars "abcabx") t 4 Hfuel Hb Hn Hl).
Defined.

(** X6, on "abcabx" and the pattern "cab". *)
Lemma find_substring_with_attributes_witness :
  let s := chars "abcabx" in
  let p := chars "cab" in
  (length s < 7)%nat ∧
  SuffixTree 7 s = Ok (tree_of "abcabx") ∧
  p ≠ [] ∧ (length p < 4)%nat ∧
  ∃ r, find_substring str_lower 4
         (with_attributes (tree_of "abcabx") false s) p = Ok r ∧
       ((r = -1 ∧ ∀ l1 l2, s ≠ l1 ++ p ++ l2) ∨ occurs_at s p r).
Proof.
  intros s p.
  assert (length s < 7)%nat as Hfuel by (vm_compute; lia).
  assert (SuffixTree 7 s = Ok (tree_of "abcabx")) as Hb
    by (vm_compute; reflexivity).
  assert (p ≠ []) as Hne by discriminate.
  assert (length p < 4)%nat as Hfuel' by (vm_compute; lia).
  split; [exact Hfuel|]. split; [exact Hb|]. split; [exact Hne|].
  split; [exact Hfuel'|].
  exact (find_substring_with_attributes str_lower 7 4 s _ false p
           Hfuel Hb Hne Hne Hfuel').
Defined.

(** X7, on "abcabx" and the pattern "ABX", case-insensitive. *)
Lemma has_substring_with_attributes_witness :
  let s := chars "abcabx" in
  let sub := chars "ABX" in
  (length s < 7)%nat ∧
  SuffixTree 7 s = Ok (tree_of "abcabx") ∧
  sub ≠ [] ∧ str_lower sub ≠ [] ∧ (length (str_lower sub) < 4)%nat ∧
  ∃ b : bool,
    has_substring str_lower 4
      (with_attributes (tree_of "abcabx") true s) sub = Ok b ∧
    (b = true ↔ ∃ l1 l2, s = l1 ++ str_lower sub ++ l2).
Proof.
  intros s sub.
  assert (length s < 7)%nat as Hfuel by (vm_compute; lia).
  assert (SuffixTree 7 s = Ok (tree_of "abcabx")) as Hb
    by (vm_compute; reflexivity).
  assert (sub ≠ []) as Hne by discriminate.
  assert (str_lower sub ≠ []) as Hne' by discriminate.
  assert (length (str_lower sub) < 4)%nat as Hfuel' by (vm_compute; lia).
  split; [exact Hfuel|]. split; [exact Hb|]. split; [exact Hne|].
  split; [exact Hne'|]. split; [exact Hfuel'|].
  exact (has_substring_with_attributes str_lower 7 4 s _ true sub
           Hfuel Hb Hne Hne' Hfuel').
Defined.

(** X8, on the tree of "abcabx" and the pattern "ab". *)
Lemma has_substring_as_built_witness :
  SuffixTree 7 (chars "abcabx") = Ok (tree_of "abcabx") ∧
  has_substring str_lower 3 (tree_of "abcabx") (chars "ab")
  = Raise (AttributeError "case_insensitive").
Proof.
  assert (SuffixTree 7 (chars "abcabx") = Ok (tree_of "abcabx")) as Hb
    by (vm_compute; reflexivity).
  split; [exact Hb|].
  exact (has_substring_as_built str_lower 7 3 (chars "abcabx") _
           (chars "ab") Hb).
Defined.

(** X9, on "abcabx" after five phases: the active point is [(0, 3, 4)],
    the word "ab" on the edge "abcabx". *)
Lemma phases_active_point_witness :
  let t := tree_after "abcabx" 5 in
  phases 7 (chars "abcabx") 5 = Ok t ∧
  (5 ≤ length (chars "abcabx"))%nat ∧
  Suffix.last_obj_index (active t) = Z.of_nat 5 - 1 ∧
  0 ≤ Suffix.first_obj_index (active t) ≤ Z.of_nat 5 ∧
  0 ≤ Suffix.source_node_index (active t) < py_len (nodes t) ∧
  canonical t.
Proof.
  intros t.
  assert (phases 7 (chars "abcabx") 5 = Ok t) as Hph
    by (vm_compute; reflexivity).
  assert (5 ≤ length (chars "abcabx"))%nat as Hk by (vm_compute; lia).
  split; [exact Hph|]. split; [exact Hk|].
  exact (phases_active_point 7 (chars "abcabx") 5 t Hph Hk).
Defined.

(** X10, on the tree of "abc" and an edge from its leaf 2 under "b". *)
Lemma insert_then_remove_witness :
  let t := tree_of "abc" in
  let e := Edge.mk 1 2 2 7 in
  let t1 := set_edges t (<[(2, "b"%char) := e]> (edges t)) in
  _insert_edge t e = Ok t1 ∧
  ∃ c t2,
    py_index (seq t) (Edge.first_obj_index e) = Ok c ∧
    _remove_edge t1 e = Ok t2 ∧
    edges t2 = delete (Edge.source_node_index e, c) (edges t) ∧
    nodes t2 = nodes t ∧
    (edges t !! (Edge.source_node_index e, c) = None → t2 = t).
Proof.
  intros t e t1.
  assert (_insert_edge t e = Ok t1) as Hi by (vm_compute; reflexivity).
  split; [exact Hi|].
  exact (insert_then_remove t e t1 Hi).
Defined.

(** X11, on the edge "abc" of the tree of "abc". *)
Lemma remove_twice_raises_witness :
  let t := tree_of "abc" in
  let e := Edge.mk 0 2 0 1 in
  let t1 := set_edges t (delete (0, "a"%char) (edges t)) in
  _remove_edge t e = Ok t1 ∧ _remove_edge t1 e = Raise KeyError.
Proof.
  intros t e t1.
  assert (_remove_edge t e = Ok t1) as Hr by (vm_compute; reflexivity).
  split; [exact Hr|].
  exact (remove_twice_raises t e t1 Hr).
Defined.

(** X13, on the tree of "abcabx" with the active point set to the word
    "abc" read from the root: the call moves it to node 4 and index 2. *)
Lemma canonize_idempotent_witness :
  let t := set_active (tree_of "abcabx") (Suffix.mk 0 0 2) in
  let t' := set_active (tree_of "abcabx") (Suffix.mk 4 2 2) in
  _canonize_suffix 3 t = Ok t' ∧
  _canonize_suffix 1 t' = Ok t' ∧
  nodes t' = nodes t ∧ edges t' = edges t ∧
  Suffix.last_obj_index (active t') = Suffix.last_obj_index (active t).
Proof.
  intros t t'.
  assert (_canonize_suffix 3 t = Ok t') as Hc by (vm_compute; reflexivity).
  split; [exact Hc|].
  exact (canonize_idempotent 3 0 t t' Hc).
Defined.

(** X15, on the tree of "abcabx" and the index 6. *)
Lemma add_prefix_past_end_witness :
  let t := tree_of "abcabx" in
  SuffixTree 7 (chars "abcabx") = Ok t ∧
  _add_prefix_test t (py_len (chars "abcabx")) = Raise IndexError ∧
  _add_prefix 1 t (py_len (chars "abcabx")) = Raise IndexError.
Proof.
  intros t.
  assert (SuffixTree 7 (chars "abcabx") = Ok t) as Hb
    by (vm_compute; reflexivity).
  split; [exact Hb|].
  exact (add_prefix_past_end 7 0 (chars "abcabx") t Hb).
Defined.

(** X12, on the tree of "abc": the index -1 is the symbol "c". *)
Lemma insert_edge_bounds_witness :
  let t := tree_of "abc" in
  let e := Edge.mk (-1) 2 0 9 in
  - py_len (seq t) ≤ -1 < py_len (seq t) ∧
  ∃ c, seq t !! Z.to_nat (if -1 <? 0 then py_len (seq t) + -1 else -1)
       = Some c ∧
       _insert_edge t e
       = Ok (set_edges t (<[(Edge.source_node_index e, c) := e]> (edges t))).
Proof.
  intros t e.
  assert (- py_len (seq t) ≤ -1 < py_len (seq t)) as Hf
    by (vm_compute; split; [discriminate|reflexivity]).
  split; [exact Hf|].
  exact (proj1 (insert_edge_bounds t e) Hf).
Defined.

(** ** Every call of [_canonize_suffix] made by the construction returns *)
Section Calls.
Context {A : Type} `{Countable A}.
Implicit Types (t : @tree A _ _) (d pos : Z → Z) (e edge : Edge.t) (n v J : Z)
  (s : list A).




End Calls.

